(** * swarmkit: static-service orchestrator, assignment engine and
      peer-group store

    A shallow embedding of the Go sources

      - manager/orchestrator/task.go            (Module [Orchestrator])
      - manager/orchestrator/static (part_009)  (Module [Static])
      - manager/state/store/peergroups (part_008) (Module [Store])
      - manager/dispatcher/assignments (part_010) (Module [Dispatcher])
      - manager/state/store/cas and manager/controlapi (part_007,
        peergroup.go, task.go)                  (Modules [Store],
                                                 [Controlapi])

    Go maps are stdpp [gmap]s, Go slices are lists, nilable pointers are
    [option]s, and a Go run-time panic (nil dereference, index out of
    range) is the result [None] of a function returning [option]. *)

From stdpp Require Import gmap strings list fin_maps.
From Stdlib Require Import ZArith.
From Stdlib.Strings Require Import Byte.

Open Scope string_scope.
Open Scope Z_scope.

(** ** The API messages (package api) *)

Module Api.

(** Modelled from the spec: api.TaskState is declared outside src/; the
    spec gives the ordered chain New < Pending < Assigned < Accepted <
    Preparing < Ready < Starting < Running < Completed < Shutdown <
    Failed < Rejected < Remove < Orphaned. *)
Inductive TaskState :=
  | TaskStateNew | TaskStatePending | TaskStateAssigned | TaskStateAccepted
  | TaskStatePreparing | TaskStateReady | TaskStateStarting | TaskStateRunning
  | TaskStateCompleted | TaskStateShutdown | TaskStateFailed
  | TaskStateRejected | TaskStateRemove | TaskStateOrphaned.

Definition TaskState_rank (s : TaskState) : Z :=
  match s with
  | TaskStateNew => 0 | TaskStatePending => 1 | TaskStateAssigned => 2
  | TaskStateAccepted => 3 | TaskStatePreparing => 4 | TaskStateReady => 5
  | TaskStateStarting => 6 | TaskStateRunning => 7 | TaskStateCompleted => 8
  | TaskStateShutdown => 9 | TaskStateFailed => 10 | TaskStateRejected => 11
  | TaskStateRemove => 12 | TaskStateOrphaned => 13
  end.

(** Go's integer comparisons on the enum. *)
Definition state_lt (a b : TaskState) : bool :=
  TaskState_rank a <? TaskState_rank b.
Definition state_le (a b : TaskState) : bool :=
  TaskState_rank a <=? TaskState_rank b.

#[global] Instance TaskState_eq_dec : EqDecision TaskState.
Proof. solve_decision. Defined.

(** api.ResourceType: the kinds of assignment items. *)
Inductive ResourceType :=
  | ResourceType_TASK | ResourceType_SECRET | ResourceType_CONFIG.

#[global] Instance ResourceType_eq_dec : EqDecision ResourceType.
Proof. solve_decision. Defined.

Definition ResourceType_code (r : ResourceType) : nat :=
  match r with
  | ResourceType_TASK => 0 | ResourceType_SECRET => 1
  | ResourceType_CONFIG => 2
  end%nat.

Definition ResourceType_of_code (n : nat) : ResourceType :=
  match n with
  | O => ResourceType_TASK
  | S O => ResourceType_SECRET
  | _ => ResourceType_CONFIG
  end.

#[global] Program Instance ResourceType_countable : Countable ResourceType :=
  inj_countable' ResourceType_code ResourceType_of_code _.
Next Obligation. by intros []. Qed.

Inductive NodeState := NodeStatus_UNKNOWN | NodeStatus_DOWN | NodeStatus_READY
  | NodeStatus_DISCONNECTED.
Inductive NodeAvailability :=
  | NodeAvailabilityActive | NodeAvailabilityPause | NodeAvailabilityDrain.

#[global] Instance NodeState_eq_dec : EqDecision NodeState.
Proof. solve_decision. Defined.
#[global] Instance NodeAvailability_eq_dec : EqDecision NodeAvailability.
Proof. solve_decision. Defined.

Record Timestamp := { Seconds : Z; Nanos : Z }.
Record Version := { Index : Z }.
Record Annotations := { Name : string; Labels : gmap string string }.
Record Driver := { Driver_Name : string; Driver_Options : gmap string string }.

Record FileTarget :=
  { File_Name : string; File_UID : string; File_GID : string; File_Mode : Z }.

(** The only target variant the sources build is the file target. *)
Record ConfigReference :=
  { ConfigID : string; ConfigName : string; Config_Target : option FileTarget }.

Record SecretReference :=
  { SecretID : string; SecretName : string; Secret_Target : option FileTarget }.

Record ResourceReference :=
  { ResourceID : string; Resource_Type : ResourceType }.

(** [Directory] is only ever used through [Copy()] followed by a field
    write, so it is taken to be present. *)
Record CertificateIssuance :=
  { CertificateAuthorityID : string; Directory : FileTarget }.

Record PullOptions := { RegistryAuth : string }.

Record ContainerSpec :=
  { Image : string;
    Command : list string;
    Env : list string;
    Secrets : list SecretReference;
    Configs : list ConfigReference;
    CertificateIssuances : list CertificateIssuance;
    Container_PullOptions : option PullOptions }.

Record Placement := { Constraints : list string }.
Record RestartPolicy := { Restart_Condition : nat; Restart_MaxAttempts : Z }.

(** The runtime is a oneof; [GetContainer()] is nil for every variant but
    the container one. *)
Inductive Runtime :=
  | Runtime_None
  | Runtime_Container (c : ContainerSpec)
  | Runtime_Generic (kind : string).

Record TaskSpec :=
  { Spec_Runtime : Runtime;
    Spec_Restart : option RestartPolicy;
    Spec_Placement : option Placement;
    Spec_LogDriver : option Driver;
    Spec_Networks : list string;
    ResourceReferences : list ResourceReference }.

Definition GetContainer (s : TaskSpec) : option ContainerSpec :=
  match Spec_Runtime s with
  | Runtime_Container c => Some c
  | _ => None
  end.

Record EndpointSpec := { Endpoint_Mode : nat; Endpoint_Ports : list Z }.

Record VirtualIP := { VIP_NetworkID : string; VIP_Name : string; VIP_Addr : string }.

Record Endpoint :=
  { Endpoint_Spec : option EndpointSpec; VirtualIPs : list VirtualIP }.

Record Network := { Network_ID : string; Network_Name : string }.

Record NetworkAttachment :=
  { Attachment_Network : Network;
    Addresses : list string;
    Aliases : list string }.

Record TaskStatus :=
  { Status_Timestamp : option Timestamp;
    State : TaskState;
    Message : string;
    AppliedAt : option Timestamp }.

Record Task :=
  { Task_ID : string;
    ServiceAnnotations : Annotations;
    Task_Spec : TaskSpec;
    Task_SpecVersion : option Version;
    ServiceID : string;
    Slot : Z;
    NodeID : string;
    Status : TaskStatus;
    DesiredState : TaskState;
    Task_Networks : list NetworkAttachment;
    Task_Endpoint : option Endpoint;
    Task_LogDriver : option Driver;
    MaterializedConfigs : list ConfigReference }.

Record StaticService :=
  { PeerGroup : string; PeerNetwork : string }.

Inductive ServiceMode :=
  | Mode_Replicated (replicas : Z)
  | Mode_Global
  | Mode_Static (s : StaticService).

Record ServiceSpec :=
  { Service_Annotations : Annotations;
    Service_Task : TaskSpec;
    Mode : ServiceMode;
    Service_Endpoint : option EndpointSpec }.

Definition GetStatic (s : ServiceSpec) : option StaticService :=
  match Mode s with
  | Mode_Static c => Some c
  | _ => None
  end.

Record StaticInfo :=
  { Static_NodeID : string;
    Static_Message : string;
    Static_NetworkAttachment : option NetworkAttachment }.

Record Service :=
  { Service_ID : string;
    Service_SpecVersion : option Version;
    Service_Spec : ServiceSpec;
    Service_StaticInfo : option StaticInfo }.

Record TaskDefaults := { Defaults_LogDriver : option Driver }.
Record ClusterSpec := { Cluster_TaskDefaults : TaskDefaults }.
Record Cluster := { Cluster_ID : string; Cluster_Spec : ClusterSpec }.

Record NodeSpec :=
  { Node_Annotations : Annotations; Availability : NodeAvailability }.
Record Node :=
  { Node_ID : string; Node_Status_State : NodeState; Node_Spec : NodeSpec }.

Record SecretSpec :=
  { Secret_Annotations : Annotations;
    Secret_Data : list byte;
    Secret_Driver : option Driver }.
Record Secret := { Secret_ID : string; Secret_Spec : SecretSpec }.

Record ConfigSpec := { Config_Annotations : Annotations; Config_Data : list byte }.
Record Config := { Config_ID : string; Config_Spec : ConfigSpec }.

Record CertificateAuthority :=
  { CA_ID : string; CA_Annotations : Annotations;
    CA_Cert : list byte; CA_Key : list byte }.

Record PeerGroupSpec := { PG_Annotations : Annotations; PG_Network : string }.
Record PeerGroupT := { PG_ID : string; PG_Spec : PeerGroupSpec }.

(** Assignment.Item is a oneof over the three payload kinds. *)
Inductive Assignment :=
  | Assignment_Task (t : Task)
  | Assignment_Secret (s : Secret)
  | Assignment_Config (c : Config).

Inductive AssignmentAction :=
  | AssignmentActionUpdate | AssignmentActionRemove.

Record AssignmentChange :=
  { Change_Assignment : Assignment; Action : AssignmentAction }.

#[global] Instance Timestamp_eq_dec : EqDecision Timestamp.
Proof. solve_decision. Defined.
#[global] Instance Version_eq_dec : EqDecision Version.
Proof. solve_decision. Defined.
#[global] Instance Annotations_eq_dec : EqDecision Annotations.
Proof. solve_decision. Defined.
#[global] Instance Driver_eq_dec : EqDecision Driver.
Proof. solve_decision. Defined.
#[global] Instance FileTarget_eq_dec : EqDecision FileTarget.
Proof. solve_decision. Defined.
#[global] Instance ConfigReference_eq_dec : EqDecision ConfigReference.
Proof. solve_decision. Defined.
#[global] Instance SecretReference_eq_dec : EqDecision SecretReference.
Proof. solve_decision. Defined.
#[global] Instance ResourceReference_eq_dec : EqDecision ResourceReference.
Proof. solve_decision. Defined.
#[global] Instance CertificateIssuance_eq_dec : EqDecision CertificateIssuance.
Proof. solve_decision. Defined.
#[global] Instance PullOptions_eq_dec : EqDecision PullOptions.
Proof. solve_decision. Defined.
#[global] Instance ContainerSpec_eq_dec : EqDecision ContainerSpec.
Proof. solve_decision. Defined.
#[global] Instance Placement_eq_dec : EqDecision Placement.
Proof. solve_decision. Defined.
#[global] Instance RestartPolicy_eq_dec : EqDecision RestartPolicy.
Proof. solve_decision. Defined.
#[global] Instance Runtime_eq_dec : EqDecision Runtime.
Proof. solve_decision. Defined.
#[global] Instance TaskSpec_eq_dec : EqDecision TaskSpec.
Proof. solve_decision. Defined.
#[global] Instance EndpointSpec_eq_dec : EqDecision EndpointSpec.
Proof. solve_decision. Defined.
#[global] Instance VirtualIP_eq_dec : EqDecision VirtualIP.
Proof. solve_decision. Defined.
#[global] Instance Endpoint_eq_dec : EqDecision Endpoint.
Proof. solve_decision. Defined.
#[global] Instance Network_eq_dec : EqDecision Network.
Proof. solve_decision. Defined.
#[global] Instance NetworkAttachment_eq_dec : EqDecision NetworkAttachment.
Proof. solve_decision. Defined.
#[global] Instance TaskStatus_eq_dec : EqDecision TaskStatus.
Proof. solve_decision. Defined.
#[global] Instance Task_eq_dec : EqDecision Task.
Proof. solve_decision. Defined.

End Api.

(** ** manager/orchestrator/task.go *)

Module Orchestrator.
Import Api.

(** Library calls made by task.go: [filepath.Join], and the constraint
    package ([constraint.Parse], whose error the caller drops, and
    [constraint.NodeMatches]). *)
Class TaskLib := {
  filepath_Join : string → string → string;
  Constraint : Type;
  constraint_Parse : list string → option (list Constraint);
  constraint_NodeMatches : list Constraint → Node → bool;
}.

Definition Task_set_NodeID (t : Task) (n : string) : Task :=
  {| Task_ID := Task_ID t; ServiceAnnotations := ServiceAnnotations t;
     Task_Spec := Task_Spec t; Task_SpecVersion := Task_SpecVersion t;
     ServiceID := ServiceID t; Slot := Slot t; NodeID := n;
     Status := Status t; DesiredState := DesiredState t;
     Task_Networks := Task_Networks t; Task_Endpoint := Task_Endpoint t;
     Task_LogDriver := Task_LogDriver t;
     MaterializedConfigs := MaterializedConfigs t |}.

Definition Task_set_MaterializedConfigs (t : Task) (l : list ConfigReference)
  : Task :=
  {| Task_ID := Task_ID t; ServiceAnnotations := ServiceAnnotations t;
     Task_Spec := Task_Spec t; Task_SpecVersion := Task_SpecVersion t;
     ServiceID := ServiceID t; Slot := Slot t; NodeID := NodeID t;
     Status := Status t; DesiredState := DesiredState t;
     Task_Networks := Task_Networks t; Task_Endpoint := Task_Endpoint t;
     Task_LogDriver := Task_LogDriver t;
     MaterializedConfigs := l |}.

Definition FileTarget_set_Name (f : FileTarget) (n : string) : FileTarget :=
  {| File_Name := n; File_UID := File_UID f; File_GID := File_GID f;
     File_Mode := File_Mode f |}.

Definition ContainerSpec_set_PullOptions (c : ContainerSpec)
    (p : option PullOptions) : ContainerSpec :=
  {| Image := Image c; Command := Command c; Env := Env c;
     Secrets := Secrets c; Configs := Configs c;
     CertificateIssuances := CertificateIssuances c;
     Container_PullOptions := p |}.

Definition TaskSpec_set_Runtime (s : TaskSpec) (r : Runtime) : TaskSpec :=
  {| Spec_Runtime := r; Spec_Restart := Spec_Restart s;
     Spec_Placement := Spec_Placement s; Spec_LogDriver := Spec_LogDriver s;
     Spec_Networks := Spec_Networks s;
     ResourceReferences := ResourceReferences s |}.

Definition TaskSpec_set_Placement (s : TaskSpec) (p : option Placement)
  : TaskSpec :=
  {| Spec_Runtime := Spec_Runtime s; Spec_Restart := Spec_Restart s;
     Spec_Placement := p; Spec_LogDriver := Spec_LogDriver s;
     Spec_Networks := Spec_Networks s;
     ResourceReferences := ResourceReferences s |}.

(** PeerGroupConfigRef: the config reference of a static service's
    materialized peer group file; mode 0444 is octal. *)
Definition PeerGroupConfigRef (task : Task) : ConfigReference :=
  {| ConfigID := Task_ID task +:+ "-peer-group";
     ConfigName := "peer-group";
     Config_Target := Some {| File_Name := "/run/peers"; File_Mode := 292;
                              File_UID := "0"; File_GID := "0" |} |}.

Section with_lib.
Context `{TaskLib}.

(** GetCertificateIssuanceConfigRefs: three references (ca, key, cert) for
    each certificate issuance of the task's container. *)
Definition GetCertificateIssuanceConfigRefs (task : Task)
  : list ConfigReference :=
  match GetContainer (Task_Spec task) with
  | None => []
  | Some container =>
    flat_map (λ certIssuance,
      let caID := CertificateAuthorityID certIssuance in
      let caConfigID := Task_ID task +:+ "-" +:+ caID +:+ "-issue-ca" in
      let caTarget := FileTarget_set_Name (Directory certIssuance)
          (filepath_Join (File_Name (Directory certIssuance)) "ca.pem") in
      let keyConfigID := Task_ID task +:+ "-" +:+ caID +:+ "-issue-key" in
      let keyTarget := FileTarget_set_Name (Directory certIssuance)
          (filepath_Join (File_Name (Directory certIssuance)) "key.pem") in
      let certConfigID := Task_ID task +:+ "-" +:+ caID +:+ "-issue-cert" in
      let certTarget := FileTarget_set_Name (Directory certIssuance)
          (filepath_Join (File_Name (Directory certIssuance)) "cert.pem") in
      [ {| ConfigID := caConfigID; ConfigName := caConfigID;
           Config_Target := Some caTarget |};
        {| ConfigID := keyConfigID; ConfigName := keyConfigID;
           Config_Target := Some keyTarget |};
        {| ConfigID := certConfigID; ConfigName := certConfigID;
           Config_Target := Some certTarget |} ])
      (CertificateIssuances container)
  end.

(** NewTask.  [identity.NewID()] and [time.Now()] are read from the
    environment; here the fresh id and the current time are arguments. *)
Definition NewTask (taskID : string) (now : Timestamp)
    (cluster : option Cluster) (service : Service) (slot : Z)
    (nodeID : string) : Task :=
  let logDriver :=
    match Spec_LogDriver (Service_Task (Service_Spec service)) with
    | Some d => Some d
    | None =>
      match cluster with
      | Some c => Defaults_LogDriver (Cluster_TaskDefaults (Cluster_Spec c))
      | None => None
      end
    end in
  let task :=
    {| Task_ID := taskID;
       ServiceAnnotations := Service_Annotations (Service_Spec service);
       Task_Spec := Service_Task (Service_Spec service);
       Task_SpecVersion := Service_SpecVersion service;
       ServiceID := Service_ID service;
       Slot := slot;
       NodeID := "";
       Status := {| State := TaskStateNew; Status_Timestamp := Some now;
                    Message := "created"; AppliedAt := None |};
       DesiredState := TaskStateRunning;
       Task_Networks := [];
       Task_Endpoint :=
         Some {| Endpoint_Spec := Service_Endpoint (Service_Spec service);
                 VirtualIPs := [] |};
       Task_LogDriver := logDriver;
       MaterializedConfigs := [] |} in
  let task :=
    if bool_decide (nodeID ≠ "") then Task_set_NodeID task nodeID
    else task in
  let task :=
    match Service_StaticInfo service with
    | Some _ =>
      Task_set_MaterializedConfigs task
        (MaterializedConfigs task ++ [PeerGroupConfigRef task])
    | None => task
    end in
  Task_set_MaterializedConfigs task
    (MaterializedConfigs task ++ GetCertificateIssuanceConfigRefs task).

(** nodeMatches; [s.Spec.Task.Placement] is dereferenced unguarded. *)
Definition nodeMatches (s : Service) (n : option Node) : option bool :=
  match n with
  | None => Some false
  | Some n =>
    match Spec_Placement (Service_Task (Service_Spec s)) with
    | None => None
    | Some placement =>
      let constraints := default [] (constraint_Parse (Constraints placement)) in
      Some (constraint_NodeMatches constraints n)
    end
  end.

(** IsTaskDirtyPlacementConstraintsOnly; [reflect.DeepEqual] on the
    messages is structural equality. *)
Definition IsTaskDirtyPlacementConstraintsOnly (serviceTaskSpec : TaskSpec)
    (t : Task) : bool :=
  if bool_decide (Spec_Placement serviceTaskSpec = Spec_Placement (Task_Spec t))
  then false
  else
    let serviceTaskSpec :=
      TaskSpec_set_Placement serviceTaskSpec (Spec_Placement (Task_Spec t)) in
    bool_decide (serviceTaskSpec = Task_Spec t).

(** IsTaskDirty. *)
Definition IsTaskDirty (s : Service) (t : Task) (n : option Node)
  : option bool :=
  if match Task_SpecVersion t, Service_SpecVersion s with
     | Some tv, Some sv => bool_decide (sv = tv)
     | _, _ => false
     end
  then Some false
  else
    let serviceTaskSpec := Service_Task (Service_Spec s) in
    placementOnly ←
      (if IsTaskDirtyPlacementConstraintsOnly serviceTaskSpec t
       then nodeMatches s n else Some false);
    if (placementOnly : bool) then Some false
    else
      let currentState := State (Status t) in
      let ignorePullOpts :=
        state_le (DesiredState t) TaskStateRunning
        && state_le TaskStateReady currentState
        && state_le currentState TaskStateRunning in
      let serviceTaskSpec :=
        match GetContainer serviceTaskSpec, GetContainer (Task_Spec t) with
        | Some sc, Some tc =>
          if ignorePullOpts
          then TaskSpec_set_Runtime serviceTaskSpec
                 (Runtime_Container
                    (ContainerSpec_set_PullOptions sc (Container_PullOptions tc)))
          else serviceTaskSpec
        | _, _ => serviceTaskSpec
        end in
      Some (negb (bool_decide (serviceTaskSpec = Task_Spec t))
            || match Task_Endpoint t with
               | Some e =>
                 negb (bool_decide
                         (Service_Endpoint (Service_Spec s) = Endpoint_Spec e))
               | None => false
               end).

End with_lib.

(** The first test of [IsTaskDirty]: both spec versions are present and
    equal. *)
Definition sameSpecVersion (s : Service) (t : Task) : bool :=
  match Task_SpecVersion t, Service_SpecVersion s with
  | Some tv, Some sv => bool_decide (sv = tv)
  | _, _ => false
  end.

(** The test under which [IsTaskDirty] leaves the pull options out of the
    comparison. *)
Definition ignorePullOpts (t : Task) : bool :=
  state_le (DesiredState t) TaskStateRunning
  && state_le TaskStateReady (State (Status t))
  && state_le (State (Status t)) TaskStateRunning.

(** InvalidNode: nil, down or drained. *)
Definition InvalidNode (n : option Node) : bool :=
  match n with
  | None => true
  | Some n =>
    bool_decide (Node_Status_State n = NodeStatus_DOWN)
    || bool_decide (Availability (Node_Spec n) = NodeAvailabilityDrain)
  end.

(** TasksByTimestamp.Less, line by line: the second [if] assigns to
    [iTimestamp].  Indexing outside the slice panics. *)
Definition Less (t : list Task) (i j : nat) : option bool :=
  ti ← t !! i;
  tj ← t !! j;
  let iTimestamp := Status_Timestamp (Status ti) in
  let iTimestamp :=
    match AppliedAt (Status ti) with
    | Some a => Some a
    | None => iTimestamp
    end in
  let jTimestamp := Status_Timestamp (Status tj) in
  let iTimestamp :=
    match AppliedAt (Status tj) with
    | Some a => Some a
    | None => iTimestamp
    end in
  Some match iTimestamp with
       | None => true
       | Some it =>
         match jTimestamp with
         | None => false
         | Some jt =>
           if Seconds it <? Seconds jt then true
           else if Seconds it >? Seconds jt then false
           else Nanos it <? Nanos jt
         end
       end.

(** The ordering as the specification words it: each side prefers its own
    [AppliedAt] over its [Timestamp]; seconds, then nanos; nil is least. *)
Definition effectiveTimestamp (t : Task) : option Timestamp :=
  match AppliedAt (Status t) with
  | Some a => Some a
  | None => Status_Timestamp (Status t)
  end.

Definition Less_spec (t : list Task) (i j : nat) : option bool :=
  ti ← t !! i;
  tj ← t !! j;
  Some match effectiveTimestamp ti with
       | None => true
       | Some it =>
         match effectiveTimestamp tj with
         | None => false
         | Some jt =>
           if Seconds it <? Seconds jt then true
           else if Seconds it >? Seconds jt then false
           else Nanos it <? Nanos jt
         end
       end.

(** Modelled from the spec: orchestrator.IsStaticService is declared
    outside src/; the spec calls it isStatic(svc), true exactly for the
    Static mode variant. *)
Definition IsStaticService (service : Service) : bool :=
  match GetStatic (Service_Spec service) with
  | Some _ => true
  | None => false
  end.

End Orchestrator.

(** ** manager/state/store: the tables, and the peer-group table of
       part_008 *)

Module Store.
Import Api.

Inductive Error :=
  | ErrExist | ErrNotExist | ErrNameConflict | ErrInvalidFindBy
  | ErrUnknownStoreAction.

(** [strings.ToLower] of the Go library. *)
Class StringsLib := { ToLower : string → string }.

(** What the generic transaction code needs from a stored object. *)
Class StoreObject (A : Type) := { GetID : A → string; GetName : A → string }.

#[global] Instance Service_object : StoreObject Service :=
  {| GetID := Service_ID;
     GetName := λ s, Name (Service_Annotations (Service_Spec s)) |}.
#[global] Instance PeerGroup_object : StoreObject PeerGroupT :=
  {| GetID := PG_ID; GetName := λ p, Name (PG_Annotations (PG_Spec p)) |}.

(** The tables of the memory store, each keyed by its unique id index. *)
Record Tables := {
  tableService : gmap string Service;
  tablePeerGroup : gmap string PeerGroupT;
  tableTask : gmap string Task;
  tableSecret : gmap string Secret;
  tableConfig : gmap string Config;
  tableCertificateAuthority : gmap string CertificateAuthority;
}.

Definition emptyTables : Tables :=
  {| tableService := ∅; tablePeerGroup := ∅; tableTask := ∅;
     tableSecret := ∅; tableConfig := ∅; tableCertificateAuthority := ∅ |}.

Definition set_tableService (tx : Tables) (m : gmap string Service) :=
  {| tableService := m; tablePeerGroup := tablePeerGroup tx;
     tableTask := tableTask tx; tableSecret := tableSecret tx;
     tableConfig := tableConfig tx;
     tableCertificateAuthority := tableCertificateAuthority tx |}.
Definition set_tablePeerGroup (tx : Tables) (m : gmap string PeerGroupT) :=
  {| tableService := tableService tx; tablePeerGroup := m;
     tableTask := tableTask tx; tableSecret := tableSecret tx;
     tableConfig := tableConfig tx;
     tableCertificateAuthority := tableCertificateAuthority tx |}.
Definition set_tableTask (tx : Tables) (m : gmap string Task) :=
  {| tableService := tableService tx; tablePeerGroup := tablePeerGroup tx;
     tableTask := m; tableSecret := tableSecret tx;
     tableConfig := tableConfig tx;
     tableCertificateAuthority := tableCertificateAuthority tx |}.

(** The outcome of a write inside a transaction. *)
Inductive result :=
  | Ok (tx : Tables)
  | Err (e : Error).

Section tx.
Context `{StringsLib}.

(** Modelled from the spec: the generic transaction primitives
    (tx.lookup, tx.create, tx.update, tx.delete of memory.go) are outside
    src/.  The spec: every table has a unique primary id index and a
    unique case-insensitive name index whose keys are lower-cased;
    create fails with ErrExist on an id collision, update and delete
    with ErrNotExist on an unknown id. *)
Definition lookupName {A} `{StoreObject A} (tbl : gmap string A)
    (key : string) : option A :=
  snd <$> list_find (λ o, ToLower (GetName o) = key) (snd <$> map_to_list tbl).

Definition create {A} `{StoreObject A} (tbl : gmap string A) (o : A)
  : Error + gmap string A :=
  match tbl !! GetID o with
  | Some _ => inl ErrExist
  | None => inr (<[GetID o := o]> tbl)
  end.

Definition update {A} `{StoreObject A} (tbl : gmap string A) (o : A)
  : Error + gmap string A :=
  match tbl !! GetID o with
  | None => inl ErrNotExist
  | Some _ => inr (<[GetID o := o]> tbl)
  end.

Definition delete_ {A} (tbl : gmap string A) (id : string)
  : Error + gmap string A :=
  match tbl !! id with
  | None => inl ErrNotExist
  | Some _ => inr (delete id tbl)
  end.

Definition commitPeerGroup (tx : Tables) (r : Error + gmap string PeerGroupT)
  : result :=
  match r with
  | inl e => Err e
  | inr m => Ok (set_tablePeerGroup tx m)
  end.

Definition commitService (tx : Tables) (r : Error + gmap string Service)
  : result :=
  match r with
  | inl e => Err e
  | inr m => Ok (set_tableService tx m)
  end.

(** CreatePeerGroup (part_008). *)
Definition CreatePeerGroup (tx : Tables) (peerGroup : PeerGroupT) : result :=
  match lookupName (tablePeerGroup tx)
          (ToLower (Name (PG_Annotations (PG_Spec peerGroup)))) with
  | Some _ => Err ErrNameConflict
  | None =>
    match lookupName (tableService tx)
            (ToLower (Name (PG_Annotations (PG_Spec peerGroup)))) with
    | Some _ => Err ErrNameConflict
    | None => commitPeerGroup tx (create (tablePeerGroup tx) peerGroup)
    end
  end.

(** UpdatePeerGroup (part_008). *)
Definition UpdatePeerGroup (tx : Tables) (peerGroup : PeerGroupT) : result :=
  match lookupName (tablePeerGroup tx)
          (ToLower (Name (PG_Annotations (PG_Spec peerGroup)))) with
  | Some existing =>
    if bool_decide (GetID existing ≠ PG_ID peerGroup)
    then Err ErrNameConflict
    else commitPeerGroup tx (update (tablePeerGroup tx) peerGroup)
  | None =>
    match lookupName (tableService tx)
            (ToLower (Name (PG_Annotations (PG_Spec peerGroup)))) with
    | Some _ => Err ErrNameConflict
    | None => commitPeerGroup tx (update (tablePeerGroup tx) peerGroup)
    end
  end.

(** DeletePeerGroup (part_008). *)
Definition DeletePeerGroup (tx : Tables) (id : string) : result :=
  commitPeerGroup tx (delete_ (tablePeerGroup tx) id).

(** GetPeerGroup (part_008). *)
Definition GetPeerGroup (tx : Tables) (id : string) : option PeerGroupT :=
  tablePeerGroup tx !! id.

(** Modelled from the spec: the service table's write functions
    (services.go) are outside src/.  The spec: names are unique per entity
    type, case-insensitively, and PeerGroup and Service share one
    name-space, a clash being reported as ErrNameConflict. *)
Definition CreateService (tx : Tables) (s : Service) : result :=
  match lookupName (tableService tx)
          (ToLower (Name (Service_Annotations (Service_Spec s)))) with
  | Some _ => Err ErrNameConflict
  | None =>
    match lookupName (tablePeerGroup tx)
            (ToLower (Name (Service_Annotations (Service_Spec s)))) with
    | Some _ => Err ErrNameConflict
    | None => commitService tx (create (tableService tx) s)
    end
  end.

Definition UpdateService (tx : Tables) (s : Service) : result :=
  match lookupName (tableService tx)
          (ToLower (Name (Service_Annotations (Service_Spec s)))) with
  | Some existing =>
    if bool_decide (GetID existing ≠ Service_ID s)
    then Err ErrNameConflict
    else commitService tx (update (tableService tx) s)
  | None =>
    match lookupName (tablePeerGroup tx)
            (ToLower (Name (Service_Annotations (Service_Spec s)))) with
    | Some _ => Err ErrNameConflict
    | None => commitService tx (update (tableService tx) s)
    end
  end.

Definition DeleteService (tx : Tables) (id : string) : result :=
  commitService tx (delete_ (tableService tx) id).

(** The write operations on the two tables that share the name-space. *)
Inductive Op :=
  | OpCreatePeerGroup (p : PeerGroupT)
  | OpUpdatePeerGroup (p : PeerGroupT)
  | OpDeletePeerGroup (id : string)
  | OpCreateService (s : Service)
  | OpUpdateService (s : Service)
  | OpDeleteService (id : string).

Definition applyOp (tx : Tables) (op : Op) : result :=
  match op with
  | OpCreatePeerGroup p => CreatePeerGroup tx p
  | OpUpdatePeerGroup p => UpdatePeerGroup tx p
  | OpDeletePeerGroup id => DeletePeerGroup tx id
  | OpCreateService s => CreateService tx s
  | OpUpdateService s => UpdateService tx s
  | OpDeleteService id => DeleteService tx id
  end.

(** One Update transaction per operation: an error discards the change. *)
Definition step (tx : Tables) (op : Op) : Tables :=
  match applyOp tx op with
  | Ok tx' => tx'
  | Err _ => tx
  end.

Definition run (ops : list Op) : Tables := foldl step emptyTables ops.

(** The name of a stored object, as the name index keys it. *)
Definition key_of {A} `{StoreObject A} (o : A) : string := ToLower (GetName o).

(** A table is well keyed when every object sits under its own id and no
    two objects share an index name. *)
Definition keyed {A} `{StoreObject A} (tbl : gmap string A) : Prop :=
  (∀ k o, tbl !! k = Some o → GetID o = k)
  ∧ (∀ k1 k2 o1 o2, tbl !! k1 = Some o1 → tbl !! k2 = Some o2 →
       key_of o1 = key_of o2 → k1 = k2).

(** No name of the first table is a name of the second. *)
Definition apart {A B} `{StoreObject A} `{StoreObject B}
    (ta : gmap string A) (tb : gmap string B) : Prop :=
  ∀ ka kb a b, ta !! ka = Some a → tb !! kb = Some b → key_of a ≠ key_of b.

Definition names_unique (tx : Tables) : Prop :=
  keyed (tableService tx) ∧ keyed (tablePeerGroup tx)
  ∧ apart (tableService tx) (tablePeerGroup tx).

End tx.

(** Modelled from the spec: the read and task-table functions used by the
    orchestrator and the dispatcher (GetService, GetTask, GetSecret,
    GetConfig, GetCA of the sibling table files follow GetPeerGroup;
    CreateTask and DeleteTask are tx.create and tx.delete on the task
    table; FindTasks(ByServiceID) and FindServices(ByPeerGroup) select by
    the service_id and peer_group indices). *)
Definition GetService (tx : Tables) (id : string) : option Service :=
  tableService tx !! id.
Definition GetTask (tx : Tables) (id : string) : option Task :=
  tableTask tx !! id.
Definition GetSecret (tx : Tables) (id : string) : option Secret :=
  tableSecret tx !! id.
Definition GetConfig (tx : Tables) (id : string) : option Config :=
  tableConfig tx !! id.
Definition GetCA (tx : Tables) (id : string) : option CertificateAuthority :=
  tableCertificateAuthority tx !! id.

Definition CreateTask (tx : Tables) (t : Task) : result :=
  match tableTask tx !! Task_ID t with
  | Some _ => Err ErrExist
  | None => Ok (set_tableTask tx (<[Task_ID t := t]> (tableTask tx)))
  end.

Definition DeleteTask (tx : Tables) (id : string) : result :=
  match tableTask tx !! id with
  | None => Err ErrNotExist
  | Some _ => Ok (set_tableTask tx (delete id (tableTask tx)))
  end.

Definition FindTasksByServiceID (tx : Tables) (serviceID : string)
  : list Task :=
  filter (λ t, ServiceID t = serviceID) (snd <$> map_to_list (tableTask tx)).

Definition FindServicesAll (tx : Tables) : list Service :=
  snd <$> map_to_list (tableService tx).

(** Modelled from the spec: FindTasks(ByNodeID) selects by the node_id
    index of the task table. *)
Definition FindTasksByNodeID (tx : Tables) (nodeID : string) : list Task :=
  filter (λ t, NodeID t = nodeID) (snd <$> map_to_list (tableTask tx)).

Definition FindServicesByPeerGroup (tx : Tables) (peerGroup : string)
  : list Service :=
  filter (λ s, PeerGroup <$> GetStatic (Service_Spec s) = Some peerGroup)
         (snd <$> map_to_list (tableService tx)).

(** *** The certificate-authority table (part_007) *)

#[global] Instance Error_eq_dec : EqDecision Error.
Proof. solve_decision. Defined.

#[global] Instance CA_object : StoreObject CertificateAuthority :=
  {| GetID := CA_ID; GetName := λ c, Name (CA_Annotations c) |}.

Definition set_tableCertificateAuthority (tx : Tables)
    (m : gmap string CertificateAuthority) :=
  {| tableService := tableService tx; tablePeerGroup := tablePeerGroup tx;
     tableTask := tableTask tx; tableSecret := tableSecret tx;
     tableConfig := tableConfig tx; tableCertificateAuthority := m |}.

Definition commitCA (tx : Tables)
    (r : Error + gmap string CertificateAuthority) : result :=
  match r with
  | inl e => Err e
  | inr m => Ok (set_tableCertificateAuthority tx m)
  end.

Section tx_ca.
Context `{StringsLib}.

(** CreateCA: only the certificate authorities' own names are looked
    up. *)
Definition CreateCA (tx : Tables) (ca : CertificateAuthority) : result :=
  match lookupName (tableCertificateAuthority tx)
          (ToLower (Name (CA_Annotations ca))) with
  | Some _ => Err ErrNameConflict
  | None => commitCA tx (create (tableCertificateAuthority tx) ca)
  end.

(** UpdateCA. *)
Definition UpdateCA (tx : Tables) (ca : CertificateAuthority) : result :=
  match lookupName (tableCertificateAuthority tx)
          (ToLower (Name (CA_Annotations ca))) with
  | Some existing =>
    if bool_decide (GetID existing ≠ CA_ID ca)
    then Err ErrNameConflict
    else commitCA tx (update (tableCertificateAuthority tx) ca)
  | None => commitCA tx (update (tableCertificateAuthority tx) ca)
  end.

(** DeleteCA. *)
Definition DeleteCA (tx : Tables) (id : string) : result :=
  commitCA tx (delete_ (tableCertificateAuthority tx) id).

Inductive CAOp :=
  | OpCreateCA (ca : CertificateAuthority)
  | OpUpdateCA (ca : CertificateAuthority)
  | OpDeleteCA (id : string).

Definition applyCAOp (tx : Tables) (op : CAOp) : result :=
  match op with
  | OpCreateCA ca => CreateCA tx ca
  | OpUpdateCA ca => UpdateCA tx ca
  | OpDeleteCA id => DeleteCA tx id
  end.

(** One Update transaction per operation: an error discards the change. *)
Definition stepCA (tx : Tables) (op : CAOp) : Tables :=
  match applyCAOp tx op with
  | Ok tx' => tx'
  | Err _ => tx
  end.

End tx_ca.

End Store.

(** ** manager/orchestrator/static (part_009) *)

Module Static.
Import Api.

(** The orchestrator's own state; the store it points to is threaded
    along with it. *)
Record Orchestrator := {
  store : Store.Tables;
  servicesByNodeID : gmap string (gset string);
  services : gmap string Service;
  restartTasks : gset string;
  cluster : option Cluster;
}.

Definition NewStaticOrchestrator (store : Store.Tables) : Orchestrator :=
  {| store := store; servicesByNodeID := ∅; services := ∅;
     restartTasks := ∅; cluster := None |}.

Definition set_store (o : Orchestrator) (tx : Store.Tables) : Orchestrator :=
  {| store := tx; servicesByNodeID := servicesByNodeID o;
     services := services o; restartTasks := restartTasks o;
     cluster := cluster o |}.

Definition set_restartTasks (o : Orchestrator) (r : gset string)
  : Orchestrator :=
  {| store := store o; servicesByNodeID := servicesByNodeID o;
     services := services o; restartTasks := r; cluster := cluster o |}.

(** updateService: [service.StaticInfo] is dereferenced unguarded. *)
Definition updateService (o : Orchestrator) (service : Service)
  : option Orchestrator :=
  let services' := <[Service_ID service := service]> (services o) in
  info ← Service_StaticInfo service;
  let nodeID := Static_NodeID info in
  let byNode :=
    if bool_decide (nodeID ≠ "")
    then <[nodeID := {[Service_ID service]}
                     ∪ default ∅ (servicesByNodeID o !! nodeID)]>
           (servicesByNodeID o)
    else servicesByNodeID o in
  Some {| store := store o; servicesByNodeID := byNode;
          services := services'; restartTasks := restartTasks o;
          cluster := cluster o |}.

(** IsRelatedService; [&&] only evaluates the dereference for a static
    service. *)
Definition IsRelatedService (service : Service) : option bool :=
  if Orchestrator.IsStaticService service
  then info ← Service_StaticInfo service;
       Some (bool_decide (Static_NodeID info ≠ ""))
  else Some false.

(** Run, the enumeration of the existing services at start-up: the loop
    over [existingServices] that fills the indexes and collects
    [reconcileServiceIDs]. *)
Fixpoint Run_enumerate (o : Orchestrator) (reconcileServiceIDs : list string)
    (existingServices : list Service) : option (Orchestrator * list string) :=
  match existingServices with
  | [] => Some (o, reconcileServiceIDs)
  | s :: rest =>
    if Orchestrator.IsStaticService s
    then o' ← updateService o s;
         Run_enumerate o' (reconcileServiceIDs ++ [Service_ID s]) rest
    else Run_enumerate o reconcileServiceIDs rest
  end.

Definition Run_startup (o : Orchestrator)
  : option (Orchestrator * list string) :=
  Run_enumerate o [] (Store.FindServicesAll (store o)).

(** handleTaskChange (FixTask has the same body). *)
Definition handleTaskChange (o : Orchestrator) (t : Task) : Orchestrator :=
  match services o !! ServiceID t with
  | None => o
  | Some _ =>
    if state_lt TaskStateRunning (DesiredState t) then o
    else if state_lt TaskStateRunning (State (Status t))
    then set_restartTasks o ({[Task_ID t]} ∪ restartTasks o)
    else o
  end.

Section with_lib.
Context `{Orchestrator.TaskLib}.

(** addTask.  The transaction creates the task only if the service is
    still in the store; an error of the transaction is logged and the
    store is left as it was. *)
Definition addTask_task (taskID : string) (now : Timestamp)
    (o : Orchestrator) (service : Service) (nodeID : string) : Task :=
  let task := Orchestrator.NewTask taskID now (cluster o) service 0 nodeID in
  Orchestrator.Task_set_MaterializedConfigs task
    (MaterializedConfigs task ++ [Orchestrator.PeerGroupConfigRef task]).

Definition addTask (taskID : string) (now : Timestamp) (o : Orchestrator)
    (service : Service) (nodeID : string) : Orchestrator :=
  let task := addTask_task taskID now o service nodeID in
  match Store.GetService (store o) (Service_ID service) with
  | None => o
  | Some _ =>
    match Store.CreateTask (store o) task with
    | Store.Ok tx' => set_store o tx'
    | Store.Err _ => o
    end
  end.

(** The call site in reconcileServices, for a service that has no task
    yet: [o.addTask(ctx, batch, service, service.StaticInfo.NodeID)]. *)
Definition reconcile_addTask (taskID : string) (now : Timestamp)
    (o : Orchestrator) (service : Service) : option Orchestrator :=
  info ← Service_StaticInfo service;
  Some (addTask taskID now o service (Static_NodeID info)).

End with_lib.

(** deleteTask: an error of the transaction is logged. *)
Definition deleteTask (o : Orchestrator) (t : Task) : Orchestrator :=
  match Store.DeleteTask (store o) (Task_ID t) with
  | Store.Ok tx' => set_store o tx'
  | Store.Err _ => o
  end.

(** foreachTaskFromNode: the node's tasks are read in one view; the
    callback then runs on those whose service is tracked. *)
Definition foreachTaskFromNode (o : Orchestrator) (node : Node)
    (cb : Orchestrator → Task → Orchestrator) : Orchestrator :=
  let tasks := Store.FindTasksByNodeID (store o) (Node_ID node) in
  foldl (λ o t,
           match services o !! ServiceID t with
           | Some _ => cb o t
           | None => o
           end) o tasks.

Definition StaticInfo_set_Message (i : StaticInfo) (m : string) : StaticInfo :=
  {| Static_NodeID := Static_NodeID i; Static_Message := m;
     Static_NetworkAttachment := Static_NetworkAttachment i |}.

Definition Service_set_StaticInfo (s : Service) (i : option StaticInfo)
  : Service :=
  {| Service_ID := Service_ID s; Service_SpecVersion := Service_SpecVersion s;
     Service_Spec := Service_Spec s; Service_StaticInfo := i |}.

(** A service as the EventDeleteNode case leaves it. *)
Definition markedDown (s : Service) : Service :=
  Service_set_StaticInfo s
    ((λ i, StaticInfo_set_Message i "Static Node Removed")
       <$> Service_StaticInfo s).

Section with_strings.
Context `{Store.StringsLib}.

(** The body of the loop of the EventDeleteNode case: the service is
    marked as down for good; [service.StaticInfo] is dereferenced
    unguarded, and an error of UpdateService is logged. *)
Definition markServiceDown (tx : Store.Tables) (serviceID : string)
  : option Store.Tables :=
  match Store.GetService tx serviceID with
  | None => Some tx
  | Some service =>
    info ← Service_StaticInfo service;
    let service :=
      Service_set_StaticInfo service
        (Some (StaticInfo_set_Message info "Static Node Removed")) in
    match Store.UpdateService tx service with
    | Store.Ok tx' => Some tx'
    | Store.Err _ => Some tx
    end
  end.

(** Run, the EventDeleteNode case: the node's tasks of tracked services
    are deleted, then the services indexed under the node are marked in
    one transaction, which commits since its callback returns nil. *)
Definition Run_deleteNode (o : Orchestrator) (node : Node)
  : option Orchestrator :=
  let o := foreachTaskFromNode o node deleteTask in
  tx ← foldl (λ tx serviceID, tx ← tx; markServiceDown tx serviceID)
         (Some (store o))
         (elements (default ∅ (servicesByNodeID o !! Node_ID node)));
  Some (set_store o tx).

End with_strings.

(** The restart supervisor (package restart) is outside src/: [Restart]
    runs inside the transaction it is given and may change it and the
    supervisor's own history; its error is logged by the caller. *)
Class RestartLib := {
  Supervisor : Type;
  Restart : Supervisor → Store.Tables → option Cluster → Service → Task
            → Supervisor * Store.Tables;
}.

Section with_restarts.
Context `{RestartLib}.

(** The transaction tickTasks runs for one queued task id. *)
Definition tickTask (cluster : option Cluster)
    (st : Supervisor * Store.Tables) (taskID : string)
  : Supervisor * Store.Tables :=
  match Store.GetTask st.2 taskID with
  | None => st
  | Some t =>
    if state_lt TaskStateRunning (DesiredState t) then st
    else
      match Store.GetService st.2 (ServiceID t) with
      | None => st
      | Some service => Restart st.1 st.2 cluster service t
      end
  end.

(** tickTasks; the queue is a Go map, walked in no particular order. *)
Definition tickTasks (restarts : Supervisor) (o : Orchestrator)
  : Supervisor * Orchestrator :=
  if bool_decide (restartTasks o = ∅) then (restarts, o)
  else
    let st := foldl (tickTask (cluster o)) (restarts, store o)
                    (elements (restartTasks o)) in
    (st.1, set_restartTasks (set_store o st.2) ∅).

End with_restarts.

Section reconcile.
Context `{Orchestrator.TaskLib}.

(** reconcileServices, the view: the tracked services of the list that
    have no task yet, in the order of the list.  A service that has tasks
    is left to the update supervisor, which is outside src/. *)
Definition reconcile_needsTasks (o : Orchestrator) (serviceIDs : list string)
  : list Service :=
  foldl (λ needsTasks serviceID,
           match services o !! serviceID with
           | None => needsTasks
           | Some service =>
             if bool_decide
                  (Store.FindTasksByServiceID (store o) serviceID = [])
             then (needsTasks ++ [service])%list
             else needsTasks
           end) [] serviceIDs.

(** reconcileServices, the batch: one addTask for each of these services;
    [identity.NewID()] gives [newID n] at its n-th call. *)
Fixpoint reconcile_addTasks (newID : nat → string) (n : nat)
    (now : Timestamp) (o : Orchestrator) (needsTasks : list Service)
  : option Orchestrator :=
  match needsTasks with
  | [] => Some o
  | service :: rest =>
    o' ← reconcile_addTask (newID n) now o service;
    reconcile_addTasks newID (S n) now o' rest
  end.

(** reconcileServices up to the tasks it creates; the calls to the update
    supervisor that end it are not part of this model. *)
Definition reconcileServices (newID : nat → string) (now : Timestamp)
    (o : Orchestrator) (serviceIDs : list string) : option Orchestrator :=
  reconcile_addTasks newID 0 now o (reconcile_needsTasks o serviceIDs).

End reconcile.

End Static.

(** ** manager/dispatcher: the assignment set (part_010) *)

Module Dispatcher.
Import Api.

Record typeAndID := { id : string; objType : ResourceType }.

#[global] Instance typeAndID_eq_dec : EqDecision typeAndID.
Proof. solve_decision. Defined.

#[global] Program Instance typeAndID_countable : Countable typeAndID :=
  inj_countable' (λ k, (id k, objType k))
                 (λ p, {| id := p.1; objType := p.2 |}) _.
Next Obligation. by intros []. Qed.

Record assignmentSet := {
  tasksMap : gmap string Task;
  tasksUsingDependency : gmap typeAndID (gset string);
  changes : gmap typeAndID AssignmentChange;
}.

Record peerGroupConfig := {
  SelfName : string;
  SelfAddr : string;
  Peers : gmap string string;
}.

(** What the assignment set calls outside the repository:
    [net.ParseCIDR] (the printed address on success), [json.MarshalIndent]
    on the peer-group document, [equality.TasksEqualStable], the secret
    driver provider with [validation.ValidateSecretPayload], and the
    certificate chain (ca.NewRootCA, cfssl's ParseRequest, Signer and Sign)
    which yields a key and a signed certificate or fails. *)
Class Lib := {
  ParseCIDR : string → option string;
  MarshalIndent : peerGroupConfig → list byte;
  TasksEqualStable : Task → Task → bool;
  SecretDriver : Type;
  NewSecretDriver : Driver → option SecretDriver;
  SecretDriver_Get : SecretDriver → SecretSpec → Task → option (list byte);
  ValidateSecretPayload : list byte → bool;
  issueCertificate :
    CertificateAuthority → string → list string → option (list byte * list byte);
}.

Definition newAssignmentSet : assignmentSet :=
  {| tasksMap := ∅; tasksUsingDependency := ∅; changes := ∅ |}.

Definition set_tasksMap (a : assignmentSet) (m : gmap string Task) :=
  {| tasksMap := m; tasksUsingDependency := tasksUsingDependency a;
     changes := changes a |}.
Definition set_tasksUsingDependency (a : assignmentSet)
    (m : gmap typeAndID (gset string)) :=
  {| tasksMap := tasksMap a; tasksUsingDependency := m;
     changes := changes a |}.
Definition set_changes (a : assignmentSet)
    (m : gmap typeAndID AssignmentChange) :=
  {| tasksMap := tasksMap a; tasksUsingDependency := tasksUsingDependency a;
     changes := m |}.

(** Reading [a.tasksUsingDependency[mapKey]]: a missing key reads as the
    nil (empty) set. *)
Definition users (a : assignmentSet) (mapKey : typeAndID) : gset string :=
  default ∅ (tasksUsingDependency a !! mapKey).

(** [len(a.tasksUsingDependency[mapKey]) == 0]. *)
Definition unused (a : assignmentSet) (mapKey : typeAndID) : bool :=
  bool_decide (users a mapKey = ∅).

(** [a.tasksUsingDependency[mapKey][taskID] = struct{}{}]; at each of its
    uses the preceding statements have made the inner map exist. *)
Definition register (a : assignmentSet) (mapKey : typeAndID)
    (taskID : string) : assignmentSet :=
  set_tasksUsingDependency a
    (<[mapKey := {[taskID]} ∪ users a mapKey]> (tasksUsingDependency a)).

Definition updateConfig (configID : string) (data : list byte)
  : AssignmentChange :=
  {| Change_Assignment :=
       Assignment_Config
         {| Config_ID := configID;
            Config_Spec := {| Config_Annotations :=
                                {| Name := ""; Labels := ∅ |};
                              Config_Data := data |} |};
     Action := AssignmentActionUpdate |}.

Definition Secret_set_Data (s : Secret) (value : list byte) : Secret :=
  {| Secret_ID := Secret_ID s;
     Secret_Spec := {| Secret_Annotations := Secret_Annotations (Secret_Spec s);
                       Secret_Data := value;
                       Secret_Driver := Secret_Driver (Secret_Spec s) |} |}.

Section with_lib.
Context `{Lib}.

(** secret: the stored secret, or the driver's value for an external
    one; [None] is the error return. *)
Definition secret (readTx : Store.Tables) (task : Task) (secretID : string)
  : option Secret :=
  match Store.GetSecret readTx secretID with
  | None => None
  | Some secret =>
    match Secret_Driver (Secret_Spec secret) with
    | None => Some secret
    | Some driver =>
      d ← NewSecretDriver driver;
      value ← SecretDriver_Get d (Secret_Spec secret) task;
      if ValidateSecretPayload value
      then Some (Secret_set_Data secret value)
      else None
    end
  end.

Definition assignSecret (a : assignmentSet) (readTx : Store.Tables)
    (mapKey : typeAndID) (t : Task) : assignmentSet :=
  let a := set_tasksUsingDependency a
             (<[mapKey := ∅]> (tasksUsingDependency a)) in
  match secret readTx t (id mapKey) with
  | None => a
  | Some secret =>
    set_changes a
      (<[mapKey := {| Change_Assignment := Assignment_Secret secret;
                      Action := AssignmentActionUpdate |}]> (changes a))
  end.

Definition assignConfig (a : assignmentSet) (readTx : Store.Tables)
    (mapKey : typeAndID) : assignmentSet :=
  let a := set_tasksUsingDependency a
             (<[mapKey := ∅]> (tasksUsingDependency a)) in
  match Store.GetConfig readTx (id mapKey) with
  | None => a
  | Some config =>
    set_changes a
      (<[mapKey := {| Change_Assignment := Assignment_Config config;
                      Action := AssignmentActionUpdate |}]> (changes a))
  end.

(** deCIDR. *)
Definition deCIDR (addressWithCIDR : string) : string :=
  match ParseCIDR addressWithCIDR with
  | None => addressWithCIDR
  | Some ip => ip
  end.

(** The loop bodies of addTaskDependencies. *)
Definition addResourceReference (readTx : Store.Tables) (t : Task)
    (a : assignmentSet) (resourceRef : ResourceReference) : assignmentSet :=
  let mapKey := {| objType := Resource_Type resourceRef;
                   id := ResourceID resourceRef |} in
  if unused a mapKey then
    match Resource_Type resourceRef with
    | ResourceType_SECRET =>
      register (assignSecret a readTx mapKey t) mapKey (Task_ID t)
    | ResourceType_CONFIG =>
      register (assignConfig a readTx mapKey) mapKey (Task_ID t)
    | _ => a
    end
  else register a mapKey (Task_ID t).

Definition addSecretReference (readTx : Store.Tables) (t : Task)
    (a : assignmentSet) (secretRef : SecretReference) : assignmentSet :=
  let mapKey := {| objType := ResourceType_SECRET; id := SecretID secretRef |} in
  let a := if unused a mapKey then assignSecret a readTx mapKey t else a in
  register a mapKey (Task_ID t).

Definition addConfigReference (readTx : Store.Tables) (t : Task)
    (a : assignmentSet) (configRef : ConfigReference) : assignmentSet :=
  let mapKey := {| objType := ResourceType_CONFIG; id := ConfigID configRef |} in
  let a := if unused a mapKey then assignConfig a readTx mapKey else a in
  register a mapKey (Task_ID t).

(** One of the three materialized files of a certificate issuance, and
    the peer-group file: the change is written only for the first user. *)
Definition addMaterialized (a : assignmentSet) (configID : string)
    (data : list byte) (taskID : string) : assignmentSet :=
  let mapKey := {| objType := ResourceType_CONFIG; id := configID |} in
  let a :=
    if unused a mapKey
    then set_changes
           (set_tasksUsingDependency a
              (<[mapKey := ∅]> (tasksUsingDependency a)))
           (<[mapKey := updateConfig configID data]> (changes a))
    else a in
  register a mapKey taskID.

(** getTaskCertHosts; the host set is a Go map used as a set, listed in
    no particular order. *)
Definition networkNamesOf (task : Task) : gmap string string :=
  foldl (λ m attachment,
           <[Network_ID (Attachment_Network attachment) :=
               Network_Name (Attachment_Network attachment)]> m)
        ∅ (Task_Networks task).

Definition addParsed (address : string) (hostSet : gset string)
  : gset string :=
  match ParseCIDR address with
  | None => hostSet
  | Some ip => {[ip]} ∪ hostSet
  end.

Definition getTaskCertHosts (readTx : Store.Tables) (task : Task)
  : list string :=
  if bool_decide (Task_Networks task = []) then []
  else
    let networkNames := networkNamesOf task in
    let lookupName (nid : string) := default "" (networkNames !! nid) in
    let hostSet : gset string :=
      foldl (λ hostSet attachment,
               let networkName :=
                 lookupName (Network_ID (Attachment_Network attachment)) in
               let hostSet :=
                 foldl (λ hs alias,
                          {[alias +:+ "." +:+ networkName]} ∪ ({[alias]} ∪ hs))
                       hostSet (Aliases attachment) in
               foldl (λ hs address, addParsed address hs)
                     hostSet (Addresses attachment))
            ∅ (Task_Networks task) in
    let hostSet :=
      match Task_Endpoint task with
      | None => hostSet
      | Some endpoint =>
        foldl (λ hs virtualIP,
                 let networkName := lookupName (VIP_NetworkID virtualIP) in
                 addParsed (VIP_Addr virtualIP)
                   ({[VIP_Name virtualIP +:+ "." +:+ networkName]}
                    ∪ ({[VIP_Name virtualIP]} ∪ hs)))
              hostSet (VirtualIPs endpoint)
      end in
    let hostSet :=
      if bool_decide (ServiceID task ≠ "") then
        match Store.GetService readTx (ServiceID task) with
        | None => hostSet
        | Some service =>
          let serviceName := Name (Service_Annotations (Service_Spec service)) in
          foldl (λ hs networkName,
                   {[serviceName +:+ "." +:+ networkName]} ∪ hs)
                ({[serviceName]} ∪ hostSet)
                (snd <$> map_to_list networkNames)
        end
      else hostSet in
    elements hostSet.

(** addCertIssuanceDependencies. *)
Definition addCertIssuanceDependencies (readTx : Store.Tables) (task : Task)
    (hosts : list string) (a : assignmentSet)
    (certIssuance : CertificateIssuance) : assignmentSet :=
  match Store.GetCA readTx (CertificateAuthorityID certIssuance) with
  | None => a
  | Some certAuthority =>
    match issueCertificate certAuthority (Task_ID task) hosts with
    | None => a
    | Some (key, cert) =>
      let caID := CertificateAuthorityID certIssuance in
      let a := addMaterialized a
                 (Task_ID task +:+ "-" +:+ caID +:+ "-issue-ca")
                 (CA_Cert certAuthority) (Task_ID task) in
      let a := addMaterialized a
                 (Task_ID task +:+ "-" +:+ caID +:+ "-issue-key")
                 key (Task_ID task) in
      addMaterialized a
        (Task_ID task +:+ "-" +:+ caID +:+ "-issue-cert")
        cert (Task_ID task)
    end
  end.

(** [s.StaticInfo.NetworkAttachment.Addresses[0]]: each step panics on
    nil, and the index on an empty slice. *)
Definition firstAddress (s : Service) : option string :=
  info ← Service_StaticInfo s;
  attachment ← Static_NetworkAttachment info;
  Addresses attachment !! 0%nat.

(** The loop over the peer services.  The guard tests the attachment of
    the task's own service. *)
Fixpoint collectPeers (service : Service) (peerServices : list Service)
    (peerAddrs : gmap string string) : option (gmap string string) :=
  match peerServices with
  | [] => Some peerAddrs
  | peerService :: rest =>
    if bool_decide (Service_ID peerService = Service_ID service)
    then collectPeers service rest peerAddrs
    else
      info ← Service_StaticInfo service;
      match Static_NetworkAttachment info with
      | Some _ =>
        let peerName := Name (Service_Annotations (Service_Spec peerService)) in
        address ← firstAddress peerService;
        collectPeers service rest (<[peerName := deCIDR address]> peerAddrs)
      | None => collectPeers service rest peerAddrs
      end
  end.

(** maybeAddStaticServiceDependencies. *)
Definition maybeAddStaticServiceDependencies (readTx : Store.Tables)
    (t : Task) (a : assignmentSet) : option assignmentSet :=
  if bool_decide (ServiceID t = "") then Some a
  else
    match Store.GetService readTx (ServiceID t) with
    | None => Some a
    | Some service =>
      match GetStatic (Service_Spec service) with
      | None => Some a
      | Some static =>
        let peerGroup := PeerGroup static in
        let peerServices := Store.FindServicesByPeerGroup readTx peerGroup in
        peerAddrs ← collectPeers service peerServices ∅;
        let selfName := Name (Service_Annotations (Service_Spec service)) in
        address ← firstAddress service;
        let selfAddr := deCIDR address in
        let cfg := {| SelfName := selfName; SelfAddr := selfAddr;
                      Peers := peerAddrs |} in
        let configData := MarshalIndent cfg in
        let configID := Task_ID t +:+ "-peer-group" in
        Some (addMaterialized a configID configData (Task_ID t))
      end
    end.

(** addTaskDependencies. *)
Definition addTaskDependencies (readTx : Store.Tables) (t : Task)
    (a : assignmentSet) : option assignmentSet :=
  let a := foldl (addResourceReference readTx t) a
                 (ResourceReferences (Task_Spec t)) in
  let container := GetContainer (Task_Spec t) in
  let secrets := match container with Some c => Secrets c | None => [] end in
  let a := foldl (addSecretReference readTx t) a secrets in
  let configs := match container with Some c => Configs c | None => [] end in
  let a := foldl (addConfigReference readTx t) a configs in
  let a :=
    match container with
    | Some c =>
      if bool_decide (CertificateIssuances c ≠ []) then
        let hosts := getTaskCertHosts readTx t in
        foldl (addCertIssuanceDependencies readTx t hosts) a
              (CertificateIssuances c)
      else a
    | None => a
    end in
  maybeAddStaticServiceDependencies readTx t a.

End with_lib.

Definition removeChange (assignment : Assignment) : AssignmentChange :=
  {| Change_Assignment := assignment; Action := AssignmentActionRemove |}.

(** releaseDependency: [delete] on the inner set (a no-op when the key is
    missing), then the emptiness test on what is read back. *)
Definition releaseDependency (a : assignmentSet) (mapKey : typeAndID)
    (assignment : Assignment) (taskID : string) : assignmentSet * bool :=
  let a := set_tasksUsingDependency a
             (alter (λ s, s ∖ {[taskID]}) mapKey (tasksUsingDependency a)) in
  if negb (unused a mapKey) then (a, false)
  else
    (set_changes
       (set_tasksUsingDependency a (delete mapKey (tasksUsingDependency a)))
       (<[mapKey := removeChange assignment]> (changes a)),
     true).

Definition minimalAnnotations : Annotations := {| Name := ""; Labels := ∅ |}.

(** The minimal payloads of a Remove: only the id is set. *)
Definition minimalSecret (secretID : string) : Assignment :=
  Assignment_Secret
    {| Secret_ID := secretID;
       Secret_Spec := {| Secret_Annotations := minimalAnnotations;
                         Secret_Data := []; Secret_Driver := None |} |}.

Definition minimalConfig (configID : string) : Assignment :=
  Assignment_Config
    {| Config_ID := configID;
       Config_Spec := {| Config_Annotations := minimalAnnotations;
                         Config_Data := [] |} |}.

Definition minimalTaskSpec : TaskSpec :=
  {| Spec_Runtime := Runtime_None; Spec_Restart := None;
     Spec_Placement := None; Spec_LogDriver := None; Spec_Networks := [];
     ResourceReferences := [] |}.

Definition minimalTask (taskID : string) : Task :=
  {| Task_ID := taskID; ServiceAnnotations := minimalAnnotations;
     Task_Spec := minimalTaskSpec; Task_SpecVersion := None;
     ServiceID := ""; Slot := 0; NodeID := "";
     Status := {| Status_Timestamp := None; State := TaskStateNew;
                  Message := ""; AppliedAt := None |};
     DesiredState := TaskStateNew; Task_Networks := [];
     Task_Endpoint := None; Task_LogDriver := None;
     MaterializedConfigs := [] |}.

(** One [if a.releaseDependency(...) { modified = true }]. *)
Definition releaseOne (taskID : string) (mapKey : typeAndID)
    (assignment : Assignment) (st : assignmentSet * bool)
  : assignmentSet * bool :=
  let '(a, modified) := st in
  let '(a, released) := releaseDependency a mapKey assignment taskID in
  (a, if released then true else modified).

Definition releaseResourceReference (t : Task) (st : assignmentSet * bool)
    (resourceRef : ResourceReference) : assignmentSet * bool :=
  let mapKey := {| objType := Resource_Type resourceRef;
                   id := ResourceID resourceRef |} in
  match Resource_Type resourceRef with
  | ResourceType_SECRET =>
    releaseOne (Task_ID t) mapKey (minimalSecret (ResourceID resourceRef)) st
  | ResourceType_CONFIG =>
    releaseOne (Task_ID t) mapKey (minimalConfig (ResourceID resourceRef)) st
  | _ => st
  end.

Definition releaseSecretReference (t : Task) (st : assignmentSet * bool)
    (secretRef : SecretReference) : assignmentSet * bool :=
  releaseOne (Task_ID t)
    {| objType := ResourceType_SECRET; id := SecretID secretRef |}
    (minimalSecret (SecretID secretRef)) st.

Definition releaseConfigReference (t : Task) (st : assignmentSet * bool)
    (configRef : ConfigReference) : assignmentSet * bool :=
  releaseOne (Task_ID t)
    {| objType := ResourceType_CONFIG; id := ConfigID configRef |}
    (minimalConfig (ConfigID configRef)) st.

(** releaseTaskDependencies. *)
Definition releaseTaskDependencies (a : assignmentSet) (t : Task)
  : assignmentSet * bool :=
  let st := foldl (releaseResourceReference t) (a, false)
                  (ResourceReferences (Task_Spec t)) in
  let container := GetContainer (Task_Spec t) in
  let secrets := match container with Some c => Secrets c | None => [] end in
  let st := foldl (releaseSecretReference t) st secrets in
  let configs := match container with Some c => Configs c | None => [] end in
  let st := foldl (releaseConfigReference t) st configs in
  foldl (releaseConfigReference t) st (MaterializedConfigs t).

Definition taskKey (taskID : string) : typeAndID :=
  {| objType := ResourceType_TASK; id := taskID |}.

Definition updateTask (t : Task) : AssignmentChange :=
  {| Change_Assignment := Assignment_Task t;
     Action := AssignmentActionUpdate |}.

Section with_lib.
Context `{Lib}.

(** addOrUpdateTask; [None] when adding the dependencies panics. *)
Definition addOrUpdateTask (readTx : Store.Tables) (a : assignmentSet)
    (t : Task) : option (assignmentSet * bool) :=
  if state_lt (State (Status t)) TaskStateAssigned then Some (a, false)
  else
    let store_and_send (a : assignmentSet) :=
      (set_changes (set_tasksMap a (<[Task_ID t := t]> (tasksMap a)))
         (<[taskKey (Task_ID t) := updateTask t]> (changes a)),
       true) in
    match tasksMap a !! Task_ID t with
    | Some oldTask =>
      if TasksEqualStable oldTask t
         && state_lt TaskStateAssigned (State (Status t))
      then
        let a := set_tasksMap a (<[Task_ID t := t]> (tasksMap a)) in
        if state_lt TaskStateRunning (State (Status t))
        then Some (releaseTaskDependencies a t)
        else Some (a, false)
      else Some (store_and_send a)
    | None =>
      if state_le (State (Status t)) TaskStateRunning
      then a ← addTaskDependencies readTx t a; Some (store_and_send a)
      else Some (store_and_send a)
    end.

End with_lib.

(** removeTask. *)
Definition removeTask (a : assignmentSet) (t : Task) : assignmentSet * bool :=
  match tasksMap a !! Task_ID t with
  | None => (a, false)
  | Some _ =>
    let a := set_changes a
               (<[taskKey (Task_ID t) :=
                    removeChange (Assignment_Task (minimalTask (Task_ID t)))]>
                  (changes a)) in
    let a := set_tasksMap a (delete (Task_ID t) (tasksMap a)) in
    ((releaseTaskDependencies a t).1, true)
  end.

(** message: the pending changes in no particular order, and the cleared
    set. *)
Definition message (a : assignmentSet)
  : list AssignmentChange * assignmentSet :=
  (snd <$> map_to_list (changes a), set_changes a ∅).

(** *** The keys a task's dependencies are filed under *)

Definition resourceKey (r : ResourceReference) : typeAndID :=
  {| objType := Resource_Type r; id := ResourceID r |}.
Definition secretKey (r : SecretReference) : typeAndID :=
  {| objType := ResourceType_SECRET; id := SecretID r |}.
Definition configKey (r : ConfigReference) : typeAndID :=
  {| objType := ResourceType_CONFIG; id := ConfigID r |}.
Definition configIDKey (configID : string) : typeAndID :=
  {| objType := ResourceType_CONFIG; id := configID |}.

Definition isDependency (k : typeAndID) : Prop :=
  objType k ≠ ResourceType_TASK.

Definition containerSecrets (t : Task) : list SecretReference :=
  match GetContainer (Task_Spec t) with Some c => Secrets c | None => [] end.
Definition containerConfigs (t : Task) : list ConfigReference :=
  match GetContainer (Task_Spec t) with Some c => Configs c | None => [] end.
Definition containerIssuances (t : Task) : list CertificateIssuance :=
  match GetContainer (Task_Spec t) with
  | Some c => CertificateIssuances c
  | None => []
  end.

(** The secrets and configs a task declares: its resource references of
    kind secret or config, and its container's secret and config
    references. *)
Definition declaredKeys (t : Task) : list typeAndID :=
  filter isDependency (resourceKey <$> ResourceReferences (Task_Spec t))
  ++ (secretKey <$> containerSecrets t)
  ++ (configKey <$> containerConfigs t).

(** The ids of the files synthesized for a task: three per certificate
    issuance, and the peer-group file of a task whose service is a static
    service of the store. *)
Definition issuanceKeys (t : Task) (certIssuance : CertificateIssuance)
  : list typeAndID :=
  let caID := CertificateAuthorityID certIssuance in
  [ configIDKey (Task_ID t +:+ "-" +:+ caID +:+ "-issue-ca");
    configIDKey (Task_ID t +:+ "-" +:+ caID +:+ "-issue-key");
    configIDKey (Task_ID t +:+ "-" +:+ caID +:+ "-issue-cert") ].

Definition peerGroupKey (t : Task) : typeAndID :=
  configIDKey (Task_ID t +:+ "-peer-group").

Definition staticServiceOf (readTx : Store.Tables) (t : Task)
  : option Service :=
  if bool_decide (ServiceID t = "") then None
  else
    service ← Store.GetService readTx (ServiceID t);
    _ ← GetStatic (Service_Spec service);
    Some service.

Definition synthesizedKeys (readTx : Store.Tables) (t : Task)
  : list typeAndID :=
  flat_map (issuanceKeys t) (containerIssuances t)
  ++ (if staticServiceOf readTx t is Some _ then [peerGroupKey t] else []).

(** Every key addTaskDependencies may file the task under. *)
Definition filedKeys (readTx : Store.Tables) (t : Task) : list typeAndID :=
  declaredKeys t ++ synthesizedKeys readTx t.

(** Every key releaseTaskDependencies releases: the references the task
    carries. *)
Definition releasedKeys (t : Task) : list typeAndID :=
  declaredKeys t ++ (configKey <$> MaterializedConfigs t).

(** Only secrets and configs are filed in the reverse index. *)
Definition noTaskKeys (a : assignmentSet) : Prop :=
  ∀ k, users a k ≠ ∅ → isDependency k.

(** [a'] is [a] after task [tid] was filed under some of the keys [K]:
    the stored tasks are the same, the sets only gain [tid] and only at
    keys of [K], and a change is written only at a key of [K] that had
    no user. *)
Definition extends (tid : string) (K : list typeAndID)
    (a a' : assignmentSet) : Prop :=
  tasksMap a' = tasksMap a
  ∧ (∀ k, users a k ⊆ users a' k)
  ∧ (∀ k, users a' k ⊆ users a k ∪ {[tid]})
  ∧ (∀ k, k ∉ K → users a' k = users a k)
  ∧ (∀ k, users a k ≠ ∅ ∨ k ∉ K → changes a' !! k = changes a !! k).

(** From [a] to [a'] every newly pending change is an Update. *)
Definition onlyUpdates (a a' : assignmentSet) : Prop :=
  ∀ k c, changes a' !! k = Some c →
         changes a !! k = Some c ∨ Action c = AssignmentActionUpdate.

(** The payload of the Remove written for a key. *)
Definition minimalFor (k : typeAndID) : Assignment :=
  match objType k with
  | ResourceType_SECRET => minimalSecret (id k)
  | _ => minimalConfig (id k)
  end.

(** What one call does to the users and the pending changes of the
    dependencies: it either releases the keys of a task, or it only adds
    users and writes Updates. *)
Definition releasing (a a' : assignmentSet) (t : Task) : Prop :=
  (∀ k, users a' k
        = if decide (k ∈ releasedKeys t) then users a k ∖ {[Task_ID t]}
          else users a k)
  ∧ (∀ k, isDependency k →
          changes a' !! k
          = if decide (k ∈ releasedKeys t ∧ users a k ∖ {[Task_ID t]} = ∅)
            then Some (removeChange (minimalFor k))
            else changes a !! k).

Definition adding (a a' : assignmentSet) : Prop :=
  (∀ k, users a k ⊆ users a' k)
  ∧ (∀ k c, isDependency k → changes a' !! k = Some c →
            changes a !! k = Some c ∨ Action c = AssignmentActionUpdate).

(** One release step on a key, with the payload of its kind. *)
Definition releaseKey (tid : string) (st : assignmentSet * bool)
    (k : typeAndID) : assignmentSet * bool :=
  releaseOne tid k (minimalFor k) st.

Section with_lib.
Context `{Lib}.

(** Materializing a declared dependency: the Update to send, if the
    object can be had. *)
Definition materialize (readTx : Store.Tables) (t : Task) (k : typeAndID)
  : option AssignmentChange :=
  match objType k with
  | ResourceType_SECRET =>
    s ← secret readTx t (id k);
    Some {| Change_Assignment := Assignment_Secret s;
            Action := AssignmentActionUpdate |}
  | _ =>
    c ← Store.GetConfig readTx (id k);
    Some {| Change_Assignment := Assignment_Config c;
            Action := AssignmentActionUpdate |}
  end.

(** The common shape of the three loop bodies of addTaskDependencies on
    a secret or config key. *)
Definition addKey (readTx : Store.Tables) (t : Task) (a : assignmentSet)
    (k : typeAndID) : assignmentSet :=
  let a :=
    if unused a k then
      match objType k with
      | ResourceType_SECRET => assignSecret a readTx k t
      | _ => assignConfig a readTx k
      end
    else a in
  register a k (Task_ID t).

(** Storing the task and writing its TASK Update: the tail of
    addOrUpdateTask. *)
Definition storeAndSend (a : assignmentSet) (t : Task) : assignmentSet :=
  set_changes (set_tasksMap a (<[Task_ID t := t]> (tasksMap a)))
    (<[taskKey (Task_ID t) := updateTask t]> (changes a)).

(** The other services of the peer group of [service]. *)
Definition peerOf (readTx : Store.Tables) (service : Service)
    (static : StaticService) (p : Service) : Prop :=
  (∃ sid, Store.tableService readTx !! sid = Some p)
  ∧ PeerGroup <$> GetStatic (Service_Spec p) = Some (PeerGroup static)
  ∧ Service_ID p ≠ Service_ID service.

(** The task's service, if it is a static one in the store, and its peers
    have been given their addresses: what the peer-group synthesis
    dereferences. *)
Definition addressesAllocated (readTx : Store.Tables) (t : Task) : Prop :=
  ServiceID t ≠ "" →
  ∀ service static,
    Store.GetService readTx (ServiceID t) = Some service →
    GetStatic (Service_Spec service) = Some static →
    is_Some (firstAddress service)
    ∧ ∀ p, peerOf readTx service static p → is_Some (firstAddress p).

(** Two read transactions that may differ only in the object behind the
    dependency [k]. *)
Definition sameExcept (k : typeAndID) (tx1 tx2 : Store.Tables) : Prop :=
  Store.tableService tx1 = Store.tableService tx2
  ∧ Store.tableCertificateAuthority tx1 = Store.tableCertificateAuthority tx2
  ∧ (∀ i, k ≠ {| objType := ResourceType_SECRET; id := i |} →
          Store.tableSecret tx1 !! i = Store.tableSecret tx2 !! i)
  ∧ (∀ i, k ≠ {| objType := ResourceType_CONFIG; id := i |} →
          Store.tableConfig tx1 !! i = Store.tableConfig tx2 !! i).

(** *** Sequences of calls *)

(** A call on the assignment set; each addOrUpdateTask comes with the
    read transaction it is given. *)
Inductive Call :=
  | CallAddOrUpdate (readTx : Store.Tables) (t : Task)
  | CallRemove (t : Task).

Definition call (a : assignmentSet) (c : Call) : option assignmentSet :=
  match c with
  | CallAddOrUpdate readTx t => fst <$> addOrUpdateTask readTx a t
  | CallRemove t => Some (removeTask a t).1
  end.

Fixpoint calls (a : assignmentSet) (cs : list Call) : option assignmentSet :=
  match cs with
  | [] => Some a
  | c :: cs => a' ← call a c; calls a' cs
  end.

(** Two values of one task carry the same references. *)
Definition sameReferences (t t' : Task) : Prop :=
  Task_ID t = Task_ID t' ∧ Task_Spec t = Task_Spec t'
  ∧ MaterializedConfigs t = MaterializedConfigs t'.

(** A task lists the files synthesized for it among its
    MaterializedConfigs, as the tasks made by NewTask do. *)
Definition listsSynthesized (readTx : Store.Tables) (t : Task) : Prop :=
  ∀ k, k ∈ synthesizedKeys readTx t →
       k ∈ (configKey <$> MaterializedConfigs t).

(** The calls the dispatcher makes: a task's references never change
    while it is stored, a stored task above Running is not brought back
    to Running or below, and tasks list their synthesized files. *)
Definition regular (a : assignmentSet) (c : Call) : Prop :=
  match c with
  | CallAddOrUpdate readTx t =>
    listsSynthesized readTx t
    ∧ ∀ old, tasksMap a !! Task_ID t = Some old →
        sameReferences old t
        ∧ (state_le (State (Status t)) TaskStateRunning = true →
           state_le (State (Status old)) TaskStateRunning = true)
  | CallRemove t =>
    ∀ old, tasksMap a !! Task_ID t = Some old → sameReferences old t
  end.

(** What holds of the reverse index after such calls: only secrets and
    configs are filed; tasks are stored under their ids; every id filed
    under a key is that of a stored task that references the key; and a
    stored task that is at most Running is filed under every secret and
    config it declares. *)
Definition consistent (a : assignmentSet) : Prop :=
  noTaskKeys a
  ∧ (∀ tid T, tasksMap a !! tid = Some T → Task_ID T = tid)
  ∧ (∀ k tid, tid ∈ users a k →
       ∃ T, tasksMap a !! tid = Some T ∧ k ∈ releasedKeys T)
  ∧ (∀ tid T k, tasksMap a !! tid = Some T →
       state_le (State (Status T)) TaskStateRunning = true →
       k ∈ declaredKeys T → tid ∈ users a k).

Inductive Reached : assignmentSet → Prop :=
  | Reached_new : Reached newAssignmentSet
  | Reached_call a c a' :
      Reached a → regular a c → call a c = Some a' → Reached a'.

End with_lib.

(** *** What holds after any sequence of calls *)

(** The object a pending change is about: the kind and the id of its
    payload. *)
Definition changeKey (c : AssignmentChange) : typeAndID :=
  match Change_Assignment c with
  | Assignment_Task t => taskKey (Task_ID t)
  | Assignment_Secret s =>
    {| objType := ResourceType_SECRET; id := Secret_ID s |}
  | Assignment_Config c =>
    {| objType := ResourceType_CONFIG; id := Config_ID c |}
  end.

(** The reverse index holds no empty set and no TASK key. *)
Definition nonEmptyIndex (a : assignmentSet) : Prop :=
  ∀ k S, tasksUsingDependency a !! k = Some S → S ≠ ∅ ∧ isDependency k.

(** The tasks are stored under their ids, each Assigned or beyond. *)
Definition tasksAdmitted (a : assignmentSet) : Prop :=
  ∀ tid T, tasksMap a !! tid = Some T →
    Task_ID T = tid
    ∧ state_le TaskStateAssigned (State (Status T)) = true.

Definition wellFormed (a : assignmentSet) : Prop :=
  nonEmptyIndex a ∧ tasksAdmitted a.

(** A read transaction that keeps its secrets and configs under their
    ids. *)
Definition keyedStore (readTx : Store.Tables) : Prop :=
  (∀ i s, Store.tableSecret readTx !! i = Some s → Secret_ID s = i)
  ∧ (∀ i c, Store.tableConfig readTx !! i = Some c → Config_ID c = i).

Definition keyedCall (c : Call) : Prop :=
  match c with
  | CallAddOrUpdate readTx _ => keyedStore readTx
  | CallRemove _ => True
  end.

(** Every pending change is filed under the kind and id of its payload. *)
Definition changesKeyed (a : assignmentSet) : Prop :=
  ∀ k c, changes a !! k = Some c → changeKey c = k.

(** The stages of getTaskCertHosts: the hosts of one attachment, of one
    virtual IP, and of the service. *)
Section cert_hosts.
Context `{Lib}.

Definition networkNameOf (task : Task) (nid : string) : string :=
  default "" (networkNamesOf task !! nid).

Definition attachmentHosts (task : Task) (hostSet : gset string)
    (attachment : NetworkAttachment) : gset string :=
  let networkName :=
    networkNameOf task (Network_ID (Attachment_Network attachment)) in
  let hostSet :=
    foldl (λ hs alias, {[alias +:+ "." +:+ networkName]} ∪ ({[alias]} ∪ hs))
          hostSet (Aliases attachment) in
  foldl (λ hs address, addParsed address hs) hostSet (Addresses attachment).

Definition virtualIPHosts (task : Task) (hostSet : gset string)
    (virtualIP : VirtualIP) : gset string :=
  let networkName := networkNameOf task (VIP_NetworkID virtualIP) in
  addParsed (VIP_Addr virtualIP)
    ({[VIP_Name virtualIP +:+ "." +:+ networkName]}
     ∪ ({[VIP_Name virtualIP]} ∪ hostSet)).

Definition serviceHosts (task : Task) (service : Service)
    (hostSet : gset string) : gset string :=
  let serviceName := Name (Service_Annotations (Service_Spec service)) in
  foldl (λ hs networkName, {[serviceName +:+ "." +:+ networkName]} ∪ hs)
        ({[serviceName]} ∪ hostSet)
        (snd <$> map_to_list (networkNamesOf task)).

End cert_hosts.

(** What makes the peer-group synthesis panic: the task's service is a
    static service of the store, and it or one of its peers has no first
    address. *)
Definition synthesisPanics (readTx : Store.Tables) (t : Task) : Prop :=
  ∃ service static,
    staticServiceOf readTx t = Some service
    ∧ GetStatic (Service_Spec service) = Some static
    ∧ (firstAddress service = None
       ∨ ∃ p, peerOf readTx service static p ∧ firstAddress p = None).

End Dispatcher.

(** ** manager/controlapi: the peer-group and certificate-authority
       calls (peergroup.go, part_007) and the list filters *)

Module Controlapi.
Import Api.

(** What a call fails with: the three gRPC codes the code writes itself;
    an error of a validator or of the store is handed on as it is. *)
Inductive Failure :=
  | InvalidArgument | NotFound | Internal
  | Invalid
  | Refused (e : Store.Error).

Inductive reply (A : Type) :=
  | Reply (a : A)
  | Fail (f : Failure).
Arguments Reply {A} a.
Arguments Fail {A} f.

(** Outside src/: validateAnnotations, Server.validateNetworks (which
    reads the store), initca.New (the certificate and the key of a new
    root authority for a common name), and the list filters of
    common.go. *)
Class ServerLib := {
  validateAnnotations : Annotations → bool;
  validateNetworks : Store.Tables → list string → bool;
  initca_New : string → option (list byte * list byte);
  filterContains : string → list string → bool;
  filterContainsPrefix : string → list string → bool;
  filterMatchLabels : gmap string string → gmap string string → bool;
}.

(** The inner loop of the three filter functions, with its break. *)
Fixpoint matchesAll {A} (filters : list (A → bool)) (c : A) : bool :=
  match filters with
  | [] => true
  | f :: rest => if f c then matchesAll rest c else false
  end.

(** filterTasks, filterPeerGroups and filterCAs have one body. *)
Definition filterCandidates {A} (candidates : list A)
    (filters : list (A → bool)) : list A :=
  foldl (λ result c,
           if matchesAll filters c then (result ++ [c])%list else result)
        [] candidates.

Definition filterTasks := @filterCandidates Task.
Definition filterPeerGroups := @filterCandidates PeerGroupT.
Definition filterCAs := @filterCandidates CertificateAuthority.

Definition CA_set_Key (ca : CertificateAuthority) (key : list byte)
  : CertificateAuthority :=
  {| CA_ID := CA_ID ca; CA_Annotations := CA_Annotations ca;
     CA_Cert := CA_Cert ca; CA_Key := key |}.

Record ListFilters := {
  Filter_Names : list string;
  Filter_NamePrefixes : list string;
  Filter_IDPrefixes : list string;
  Filter_Labels : gmap string string;
}.

Section with_lib.
Context `{ServerLib} `{Store.StringsLib}.

(** CreatePeerGroup; [identity.NewID()] is an argument, and the store
    keeps its state when the transaction fails. *)
Definition CreatePeerGroup (newID : string) (tx : Store.Tables)
    (spec : option PeerGroupSpec) : reply PeerGroupT * Store.Tables :=
  match spec with
  | None => (Fail InvalidArgument, tx)
  | Some spec =>
    if negb (validateAnnotations (PG_Annotations spec)) then (Fail Invalid, tx)
    else if negb (validateNetworks tx [PG_Network spec]) then (Fail Invalid, tx)
    else
      let peerGroup := {| PG_ID := newID; PG_Spec := spec |} in
      match Store.CreatePeerGroup tx peerGroup with
      | Store.Err e => (Fail (Refused e), tx)
      | Store.Ok tx' => (Reply peerGroup, tx')
      end
  end.

(** GetPeerGroup. *)
Definition GetPeerGroup (tx : Store.Tables) (peerGroupID : string)
  : reply PeerGroupT :=
  if bool_decide (peerGroupID = "") then Fail InvalidArgument
  else
    match Store.GetPeerGroup tx peerGroupID with
    | None => Fail NotFound
    | Some peerGroup => Reply peerGroup
    end.

(** RemovePeerGroup. *)
Definition RemovePeerGroup (tx : Store.Tables) (peerGroupID : string)
  : reply unit * Store.Tables :=
  if bool_decide (peerGroupID = "") then (Fail InvalidArgument, tx)
  else
    match Store.DeletePeerGroup tx peerGroupID with
    | Store.Err e =>
      (if bool_decide (e = Store.ErrNotExist) then Fail NotFound
       else Fail (Refused e), tx)
    | Store.Ok tx' => (Reply (), tx')
    end.

(** CreateCA: the reply is the authority as it is stored, key
    included. *)
Definition CreateCA (newID : string) (tx : Store.Tables)
    (spec : option Annotations)
  : reply CertificateAuthority * Store.Tables :=
  match spec with
  | None => (Fail InvalidArgument, tx)
  | Some annotations =>
    if negb (validateAnnotations annotations) then (Fail Invalid, tx)
    else
      let rootCN := Name annotations +:+ " Root Certificate Authority" in
      match initca_New rootCN with
      | None => (Fail Internal, tx)
      | Some (cert, key) =>
        let certAuthority :=
          {| CA_ID := newID; CA_Annotations := annotations;
             CA_Cert := cert; CA_Key := key |} in
        match Store.CreateCA tx certAuthority with
        | Store.Err e => (Fail (Refused e), tx)
        | Store.Ok tx' => (Reply certAuthority, tx')
        end
      end
  end.

(** GetCA: the key is cut from the copy the store hands out. *)
Definition GetCA (tx : Store.Tables) (certificateAuthorityID : string)
  : reply CertificateAuthority :=
  if bool_decide (certificateAuthorityID = "") then Fail InvalidArgument
  else
    match Store.GetCA tx certificateAuthorityID with
    | None => Fail NotFound
    | Some certAuthority => Reply (CA_set_Key certAuthority [])
    end.

(** RemoveCA. *)
Definition RemoveCA (tx : Store.Tables) (certificateAuthorityID : string)
  : reply unit * Store.Tables :=
  if bool_decide (certificateAuthorityID = "") then (Fail InvalidArgument, tx)
  else
    match Store.DeleteCA tx certificateAuthorityID with
    | Store.Err e =>
      (if bool_decide (e = Store.ErrNotExist) then Fail NotFound
       else Fail (Refused e), tx)
    | Store.Ok tx' => (Reply (), tx')
    end.

(** ListCAs, from the authorities the store has found on: the request's
    filters, then the keys are cut. *)
Definition ListCAs_found (certAuthorities : list CertificateAuthority)
    (filters : option ListFilters) : list CertificateAuthority :=
  let certAuthorities :=
    match filters with
    | None => certAuthorities
    | Some filters =>
      filterCAs certAuthorities
        [ (λ e, filterContains (Name (CA_Annotations e))
                  (Filter_Names filters));
          (λ e, filterContainsPrefix (Name (CA_Annotations e))
                  (Filter_NamePrefixes filters));
          (λ e, filterContainsPrefix (CA_ID e) (Filter_IDPrefixes filters));
          (λ e, filterMatchLabels (Labels (CA_Annotations e))
                  (Filter_Labels filters)) ]
    end in
  (λ certAuthority, CA_set_Key certAuthority []) <$> certAuthorities.

End with_lib.

End Controlapi.

(** ** Concrete data used by the examples *)

Module Examples.
Import Api.

(** Instances of the library interfaces for the worked examples:
    [filepath.Join] on clean relative parts, constraints kept as they are
    written and always satisfied. *)
Definition exampleTaskLib : Orchestrator.TaskLib :=
  {| Orchestrator.filepath_Join := λ dir file, dir +:+ "/" +:+ file;
     Orchestrator.Constraint := string;
     Orchestrator.constraint_Parse := Some;
     Orchestrator.constraint_NodeMatches := λ _ _, true |}.

(** The dispatcher's library for the worked examples: an address is cut
    at its slash, the peer-group document is left unprinted, stable
    equality compares everything but the status, and there are neither
    secret drivers nor a working certificate chain. *)
Fixpoint beforeSlash (s : string) : option string :=
  match s with
  | EmptyString => None
  | String c rest =>
    if bool_decide (Ascii.nat_of_ascii c = 47%nat) then Some EmptyString
    else String c <$> beforeSlash rest
  end.

Definition clearStatus (t : Task) : Task :=
  {| Task_ID := Task_ID t; ServiceAnnotations := ServiceAnnotations t;
     Task_Spec := Task_Spec t; Task_SpecVersion := Task_SpecVersion t;
     ServiceID := ServiceID t; Slot := Slot t; NodeID := NodeID t;
     Status := {| Status_Timestamp := None; State := TaskStateNew;
                  Message := ""; AppliedAt := None |};
     DesiredState := DesiredState t; Task_Networks := Task_Networks t;
     Task_Endpoint := Task_Endpoint t; Task_LogDriver := Task_LogDriver t;
     MaterializedConfigs := MaterializedConfigs t |}.

Definition exampleLib : Dispatcher.Lib :=
  {| Dispatcher.ParseCIDR := beforeSlash;
     Dispatcher.MarshalIndent := λ _, [];
     Dispatcher.TasksEqualStable :=
       λ a b, bool_decide (clearStatus a = clearStatus b);
     Dispatcher.SecretDriver := unit;
     Dispatcher.NewSecretDriver := λ _, None;
     Dispatcher.SecretDriver_Get := λ _ _ _, None;
     Dispatcher.ValidateSecretPayload := λ _, true;
     Dispatcher.issueCertificate := λ _ _ _, None |}.



(** Lower-casing of ASCII letters, for the name index. *)
Definition lowerAscii (c : Ascii.ascii) : Ascii.ascii :=
  let n := Ascii.nat_of_ascii c in
  if ((65 <=? n) && (n <=? 90))%nat then Ascii.ascii_of_nat (n + 32) else c.

Fixpoint lowerString (s : string) : string :=
  match s with
  | EmptyString => EmptyString
  | String c rest => String (lowerAscii c) (lowerString rest)
  end.

Definition asciiStrings : Store.StringsLib := {| Store.ToLower := lowerString |}.

Definition named (name : string) : Annotations :=
  {| Name := name; Labels := ∅ |}.

Definition plainContainer (image : string) : ContainerSpec :=
  {| Image := image; Command := []; Env := []; Secrets := []; Configs := [];
     CertificateIssuances := []; Container_PullOptions := None |}.

Definition containerTaskSpec (c : ContainerSpec) : TaskSpec :=
  {| Spec_Runtime := Runtime_Container c; Spec_Restart := None;
     Spec_Placement := None; Spec_LogDriver := None; Spec_Networks := [];
     ResourceReferences := [] |}.

Definition staticService (sid name group : string) (spec : TaskSpec)
    (info : option StaticInfo) : Service :=
  {| Service_ID := sid; Service_SpecVersion := None;
     Service_Spec :=
       {| Service_Annotations := named name; Service_Task := spec;
          Mode := Mode_Static {| PeerGroup := group; PeerNetwork := "net" |};
          Service_Endpoint := None |};
     Service_StaticInfo := info |}.

Definition pinned (nodeID : string) (addresses : list string) : StaticInfo :=
  {| Static_NodeID := nodeID; Static_Message := "";
     Static_NetworkAttachment :=
       Some {| Attachment_Network := {| Network_ID := "net";
                                        Network_Name := "net" |};
               Addresses := addresses; Aliases := [] |} |}.

(** A task in a given state with the given spec. *)
Definition taskIn (tid sid : string) (spec : TaskSpec) (st : TaskState)
    (mc : list ConfigReference) : Task :=
  {| Task_ID := tid; ServiceAnnotations := named ""; Task_Spec := spec;
     Task_SpecVersion := None; ServiceID := sid; Slot := 0; NodeID := "N1";
     Status := {| Status_Timestamp := None; State := st; Message := "";
                  AppliedAt := None |};
     DesiredState := TaskStateRunning; Task_Networks := [];
     Task_Endpoint := None; Task_LogDriver := None;
     MaterializedConfigs := mc |}.

(** A task that only carries timestamps. *)
Definition stamped (tid : string) (timestamp appliedAt : option Timestamp)
  : Task :=
  {| Task_ID := tid; ServiceAnnotations := named "";
     Task_Spec := containerTaskSpec (plainContainer "img");
     Task_SpecVersion := None; ServiceID := ""; Slot := 0; NodeID := "";
     Status := {| Status_Timestamp := timestamp; State := TaskStateRunning;
                  Message := ""; AppliedAt := appliedAt |};
     DesiredState := TaskStateRunning; Task_Networks := [];
     Task_Endpoint := None; Task_LogDriver := None;
     MaterializedConfigs := [] |}.

(** A static service S1 of peer group g1 pinned to node N1. *)
Definition S1 : Service :=
  staticService "S1" "alpha" "g1" (containerTaskSpec (plainContainer "img"))
    (Some (pinned "N1" ["10.0.0.4/24"])).

(** The same service asking for one certificate. *)
Definition S1cert : Service :=
  staticService "S1" "alpha" "g1"
    (containerTaskSpec
       {| Image := "img"; Command := []; Env := []; Secrets := [];
          Configs := [];
          CertificateIssuances :=
            [ {| CertificateAuthorityID := "ca1";
                 Directory := {| File_Name := "/certs"; File_UID := "0";
                                 File_GID := "0"; File_Mode := 292 |} |} ];
          Container_PullOptions := None |})
    (Some (pinned "N1" ["10.0.0.4/24"])).

(** A static service the scheduler has not pinned yet. *)
Definition S0 : Service :=
  staticService "S0" "beta" "g1" (containerTaskSpec (plainContainer "img"))
    (Some {| Static_NodeID := ""; Static_Message := "";
             Static_NetworkAttachment := None |}).



(** A container task that uses the secret X. *)
Definition usesX : TaskSpec :=
  containerTaskSpec
    {| Image := "img"; Command := []; Env := [];
       Secrets := [ {| SecretID := "X"; SecretName := "x";
                       Secret_Target := None |} ];
       Configs := []; CertificateIssuances := [];
       Container_PullOptions := None |}.

Definition keyX : Dispatcher.typeAndID :=
  {| Dispatcher.objType := ResourceType_SECRET; Dispatcher.id := "X" |}.

Definition secretX : Secret :=
  {| Secret_ID := "X";
     Secret_Spec := {| Secret_Annotations := named "x"; Secret_Data := [];
                       Secret_Driver := None |} |}.

(** A store that holds the secret X and nothing else. *)
Definition storeX : Store.Tables :=
  {| Store.tableService := ∅; Store.tablePeerGroup := ∅;
     Store.tableTask := ∅; Store.tableSecret := {[ "X" := secretX ]};
     Store.tableConfig := ∅; Store.tableCertificateAuthority := ∅ |}.

(** Scenario E4: two tasks T and T' that use the secret X, added one
    after the other under a store that holds X. *)
Definition taskT : Task := taskIn "T" "" usesX TaskStateAssigned [].
Definition taskT' : Task := taskIn "T'" "" usesX TaskStateAssigned [].

Definition afterT : Dispatcher.assignmentSet :=
  default Dispatcher.newAssignmentSet
    (Dispatcher.call (H:=exampleLib) Dispatcher.newAssignmentSet
       (Dispatcher.CallAddOrUpdate storeX taskT)).

Definition afterBoth : Dispatcher.assignmentSet :=
  default afterT
    (Dispatcher.call (H:=exampleLib) afterT
       (Dispatcher.CallAddOrUpdate storeX taskT')).

(** A task that reaches the dispatcher only once it has completed. *)
Definition taskDone : Task := taskIn "T" "" usesX TaskStateCompleted [].

Definition storeWith (svcs : list Service) : Store.Tables :=
  Store.set_tableService Store.emptyTables
    (list_to_map ((λ s, (Service_ID s, s)) <$> svcs)).

Definition epoch : Timestamp := {| Seconds := 0; Nanos := 0 |}.

(** A container task spec with placement constraints. *)
Definition placedTaskSpec (constraints : list string) : TaskSpec :=
  Orchestrator.TaskSpec_set_Placement
    (containerTaskSpec (plainContainer "img"))
    (Some {| Constraints := constraints |}).

(** A replicated service whose tasks are placed by a constraint, and a task
    of it made under an older constraint. *)
Definition Splaced : Service :=
  {| Service_ID := "S4"; Service_SpecVersion := Some {| Index := 2 |};
     Service_Spec :=
       {| Service_Annotations := named "delta";
          Service_Task := placedTaskSpec ["node.labels.zone==b"];
          Mode := Mode_Replicated 1; Service_Endpoint := None |};
     Service_StaticInfo := None |}.

Definition taskPlaced : Task :=
  {| Task_ID := "T4"; ServiceAnnotations := named "delta";
     Task_Spec := placedTaskSpec ["node.labels.zone==a"];
     Task_SpecVersion := Some {| Index := 1 |}; ServiceID := "S4";
     Slot := 1; NodeID := "N1";
     Status := {| Status_Timestamp := None; State := TaskStateRunning;
                  Message := ""; AppliedAt := None |};
     DesiredState := TaskStateRunning; Task_Networks := [];
     Task_Endpoint := None; Task_LogDriver := None;
     MaterializedConfigs := [] |}.

(** The restart supervisor of the worked examples keeps the ids of the
    tasks it was asked to restart and leaves the store alone. *)
Definition exampleRestarts : Static.RestartLib :=
  {| Static.Supervisor := list string;
     Static.Restart := λ history tx _ _ t, (history ++ [Task_ID t], tx)%list |}.

(** A failed task of S1 on node N1, a store that holds both, and an
    orchestrator that tracks S1. *)
Definition taskFailed : Task :=
  taskIn "T1" "S1" (Service_Task (Service_Spec S1)) TaskStateFailed [].

Definition storeS1T1 : Store.Tables :=
  Store.set_tableTask (storeWith [S1]) {[ "T1" := taskFailed ]}.

Definition trackingS1 : Static.Orchestrator :=
  {| Static.store := storeS1T1;
     Static.servicesByNodeID := {[ "N1" := {[ "S1" ]} ]};
     Static.services := {[ "S1" := S1 ]};
     Static.restartTasks := ∅;
     Static.cluster := None |}.

(** A peer group, and the same peer group renamed in upper case. *)
Definition pgAlpha : PeerGroupT :=
  {| PG_ID := "P1";
     PG_Spec := {| PG_Annotations := named "alpha"; PG_Network := "net" |} |}.

Definition pgALPHA : PeerGroupT :=
  {| PG_ID := "P1";
     PG_Spec := {| PG_Annotations := named "ALPHA"; PG_Network := "net" |} |}.

(** An assignment set that stores one running task which uses X. *)
Definition taskRunning : Task := taskIn "T" "" usesX TaskStateRunning [].

Definition storingRunning : Dispatcher.assignmentSet :=
  Dispatcher.set_tasksMap Dispatcher.newAssignmentSet {[ "T" := taskRunning ]}.

(** A library whose certificate chain works: every request is signed. *)
Definition issuingLib : Dispatcher.Lib :=
  {| Dispatcher.ParseCIDR := beforeSlash;
     Dispatcher.MarshalIndent := λ _, [];
     Dispatcher.TasksEqualStable :=
       λ a b, bool_decide (clearStatus a = clearStatus b);
     Dispatcher.SecretDriver := unit;
     Dispatcher.NewSecretDriver := λ _, None;
     Dispatcher.SecretDriver_Get := λ _ _ _, None;
     Dispatcher.ValidateSecretPayload := λ _, true;
     Dispatcher.issueCertificate := λ _ _ _, Some ([x6b], [x63]) |}.

Definition caOne : CertificateAuthority :=
  {| CA_ID := "ca1"; CA_Annotations := named "one";
     CA_Cert := [x43]; CA_Key := [x4b] |}.

Definition storeCA : Store.Tables :=
  {| Store.tableService := ∅; Store.tablePeerGroup := ∅;
     Store.tableTask := ∅; Store.tableSecret := ∅;
     Store.tableConfig := ∅;
     Store.tableCertificateAuthority := {[ "ca1" := caOne ]} |}.

Definition certIssuanceOne : CertificateIssuance :=
  {| CertificateAuthorityID := "ca1";
     Directory := {| File_Name := "/certs"; File_UID := "0";
                     File_GID := "0"; File_Mode := 292 |} |}.

Definition taskCert : Task :=
  taskIn "T1" "" (Service_Task (Service_Spec S1cert)) TaskStateAssigned [].

(** A control API whose validators accept everything and whose root
    authorities all get the same certificate and key. *)
Definition exampleServer : Controlapi.ServerLib :=
  {| Controlapi.validateAnnotations := λ _, true;
     Controlapi.validateNetworks := λ _ _, true;
     Controlapi.initca_New := λ _, Some ([x43], [x4b]);
     Controlapi.filterContains := λ _ _, true;
     Controlapi.filterContainsPrefix := λ _ _, true;
     Controlapi.filterMatchLabels := λ _ _, true |}.

(** An orchestrator that tracks S1 before any task of it exists. *)
Definition trackingS1_new : Static.Orchestrator :=
  {| Static.store := storeWith [S1];
     Static.servicesByNodeID := {[ "N1" := {[ "S1" ]} ]};
     Static.services := {[ "S1" := S1 ]};
     Static.restartTasks := ∅;
     Static.cluster := None |}.

Definition nodeN1 : Node :=
  {| Node_ID := "N1"; Node_Status_State := NodeStatus_READY;
     Node_Spec := {| Node_Annotations := named "n1";
                     Availability := NodeAvailabilityActive |} |}.

(** A service whose image is pulled with registry credentials, and a task
    of it made under other credentials. *)
Definition Spull : Service :=
  {| Service_ID := "S5"; Service_SpecVersion := Some {| Index := 2 |};
     Service_Spec :=
       {| Service_Annotations := named "epsilon";
          Service_Task :=
            containerTaskSpec
              (Orchestrator.ContainerSpec_set_PullOptions (plainContainer "img")
                 (Some {| RegistryAuth := "new" |}));
          Mode := Mode_Replicated 1; Service_Endpoint := None |};
     Service_StaticInfo := None |}.

Definition taskPull (st : TaskState) : Task :=
  {| Task_ID := "T5"; ServiceAnnotations := named "epsilon";
     Task_Spec :=
       containerTaskSpec
         (Orchestrator.ContainerSpec_set_PullOptions (plainContainer "img")
            (Some {| RegistryAuth := "old" |}));
     Task_SpecVersion := Some {| Index := 1 |}; ServiceID := "S5";
     Slot := 1; NodeID := "N1";
     Status := {| Status_Timestamp := None; State := st;
                  Message := ""; AppliedAt := None |};
     DesiredState := TaskStateRunning; Task_Networks := [];
     Task_Endpoint := None; Task_LogDriver := None;
     MaterializedConfigs := [] |}.

End Examples.

(** * Properties *)

(** ** manager/orchestrator/task.go *)

Section task_go.
Import Api Orchestrator.
Context `{TaskLib}.

Lemma PeerGroupConfigRef_set_mc t l :
  PeerGroupConfigRef (Task_set_MaterializedConfigs t l) = PeerGroupConfigRef t.
Proof. reflexivity. Qed.

Lemma GetCertificateIssuanceConfigRefs_set_mc t l :
  GetCertificateIssuanceConfigRefs (Task_set_MaterializedConfigs t l)
  = GetCertificateIssuanceConfigRefs t.
Proof. reflexivity. Qed.

(** The fields [NewTask] copies or sets, whatever the node id is. *)
Lemma NewTask_basic taskID now c s slot node :
  let task := NewTask taskID now c s slot node in
  Task_ID task = taskID ∧ ServiceID task = Service_ID s ∧ Slot task = slot
  ∧ NodeID task = node ∧ DesiredState task = TaskStateRunning
  ∧ State (Status task) = TaskStateNew
  ∧ Task_Spec task = Service_Task (Service_Spec s).
Proof.
  unfold NewTask. cbv zeta.
  destruct (decide (node = "")) as [->|Hne].
  - rewrite bool_decide_eq_false_2 by auto.
    destruct (Service_StaticInfo s); simpl; auto 10.
  - rewrite bool_decide_eq_true_2 by auto.
    destruct (Service_StaticInfo s); simpl; auto 10.
Qed.

(** C9: the task returned by [NewTask c s slot node] has ServiceID = s.ID,
    Slot = slot, NodeID = node, DesiredState = Running and
    Status.State = New, for every cluster, service, slot and node id. *)
Theorem NewTask_fields taskID now c s slot node :
  let task := NewTask taskID now c s slot node in
  ServiceID task = Service_ID s ∧ Slot task = slot ∧ NodeID task = node
  ∧ DesiredState task = TaskStateRunning
  ∧ State (Status task) = TaskStateNew.
Proof.
  intros task. destruct (NewTask_basic taskID now c s slot node)
    as (_ & ? & ? & ? & ? & ? & _). auto.
Qed.

(** The materialized references of a new task: the peer-group reference
    for a service that carries static info, then the certificate
    references. *)
Lemma NewTask_MaterializedConfigs taskID now c s slot node :
  let task := NewTask taskID now c s slot node in
  MaterializedConfigs task
  = ((if Service_StaticInfo s is Some _ then [PeerGroupConfigRef task] else [])
     ++ GetCertificateIssuanceConfigRefs task)%list.
Proof.
  unfold NewTask. cbv zeta.
  destruct (bool_decide (node ≠ "")); destruct (Service_StaticInfo s);
    reflexivity.
Qed.

(** C7 (amended): when both spec versions are present and equal,
    [IsTaskDirty s t n] returns false whatever the other fields of the
    service, the task and the node are. *)
Theorem IsTaskDirty_same_version s t n v :
  Service_SpecVersion s = Some v →
  Task_SpecVersion t = Some v →
  IsTaskDirty s t n = Some false.
Proof.
  intros Hs Ht. unfold IsTaskDirty. rewrite Hs, Ht.
  by rewrite bool_decide_eq_true_2.
Qed.

End task_go.

Section task_go_examples.
Import Api Orchestrator Examples.

Lemma IsTaskDirty_same_version_witness :
  IsTaskDirty (H:=exampleTaskLib)
    {| Service_ID := "S1"; Service_SpecVersion := Some {| Index := 7 |};
       Service_Spec := Service_Spec S1; Service_StaticInfo := None |}
    {| Task_ID := "T1"; ServiceAnnotations := named "alpha";
       Task_Spec := containerTaskSpec (plainContainer "other");
       Task_SpecVersion := Some {| Index := 7 |}; ServiceID := "S1";
       Slot := 0; NodeID := "N1";
       Status := {| Status_Timestamp := None; State := TaskStateRunning;
                    Message := ""; AppliedAt := None |};
       DesiredState := TaskStateRunning; Task_Networks := [];
       Task_Endpoint := None; Task_LogDriver := None;
       MaterializedConfigs := [] |}
    None = Some false.
Proof.
  apply (IsTaskDirty_same_version (H:=exampleTaskLib) _ _ _ {| Index := 7 |});
    reflexivity.
Defined.

(** C7, as stated, fails when both spec versions are absent: the versions
    are equal (both nil), the guard asks for non-nil versions, and the
    structural comparison finds the changed image. *)
Lemma IsTaskDirty_nil_versions_counterexample :
  let s := S1 in
  let t := taskIn "T1" "S1" (containerTaskSpec (plainContainer "other"))
             TaskStateRunning [] in
  Service_SpecVersion s = Task_SpecVersion t
  ∧ IsTaskDirty (H:=exampleTaskLib) s t None = Some true.
Proof. split; reflexivity. Qed.

(** C8: the code at two tasks, the first stamped (5,0) without AppliedAt,
    the second stamped (1,0) and applied at (10,0).  By effective
    timestamps (5,0) < (10,0), so the first sorts first; the code moves
    the second task's AppliedAt into [iTimestamp], compares (10,0) with
    (1,0) and answers false. *)
Theorem Less_AppliedAt_overwrite :
  let ts := [ stamped "A" (Some {| Seconds := 5; Nanos := 0 |}) None;
              stamped "B" (Some {| Seconds := 1; Nanos := 0 |})
                          (Some {| Seconds := 10; Nanos := 0 |}) ] in
  Less ts 0 1 = Some false ∧ Less_spec ts 0 1 = Some true.
Proof. split; reflexivity. Qed.

End task_go_examples.

(** ** manager/orchestrator/static *)

Section static_orchestrator.
Import Api Orchestrator Static.
Context `{TaskLib}.

(** C2 (amended): for a service that carries static info and is still in
    the store, and a fresh task id, the orchestrator's task creation adds
    exactly one task to the store; its ServiceID is the service's ID, its
    NodeID is StaticInfo.NodeID, its Slot is 0, its DesiredState is
    Running, and its MaterializedConfigs hold the peer-group reference
    with id "<taskID>-peer-group" together with the certificate-issuance
    references of its container spec, and nothing else. *)
Theorem addTask_creates_static_task taskID now o service info :
  Service_StaticInfo service = Some info →
  is_Some (Store.GetService (store o) (Service_ID service)) →
  Store.tableTask (store o) !! taskID = None →
  ∃ o' task,
    reconcile_addTask taskID now o service = Some o'
    ∧ Store.tableTask (store o') = <[taskID := task]> (Store.tableTask (store o))
    ∧ Task_ID task = taskID
    ∧ ServiceID task = Service_ID service
    ∧ NodeID task = Static_NodeID info
    ∧ Slot task = 0
    ∧ DesiredState task = TaskStateRunning
    ∧ ConfigID (PeerGroupConfigRef task) = taskID +:+ "-peer-group"
    ∧ ∀ r, r ∈ MaterializedConfigs task
           ↔ r = PeerGroupConfigRef task
             ∨ r ∈ GetCertificateIssuanceConfigRefs task.
Proof.
  intros Hinfo [svc Hsvc] Hfresh.
  set (task := addTask_task taskID now o service (Static_NodeID info)).
  destruct (NewTask_basic taskID now (cluster o) service 0 (Static_NodeID info))
    as (Hid & Hsid & Hslot & Hnode & Hdes & _ & _).
  assert (Htid : Task_ID task = taskID) by exact Hid.
  exists (set_store o
            (Store.set_tableTask (store o)
               (<[taskID := task]> (Store.tableTask (store o))))), task.
  split.
  { unfold reconcile_addTask, addTask. rewrite Hinfo. simpl.
    rewrite Hsvc. unfold Store.CreateTask. fold task.
    rewrite Htid, Hfresh. reflexivity. }
  assert (Hmc : ∀ r, r ∈ MaterializedConfigs task
                     ↔ r = PeerGroupConfigRef task
                       ∨ r ∈ GetCertificateIssuanceConfigRefs task).
  { intros r.
    change (MaterializedConfigs task)
      with (MaterializedConfigs
              (NewTask taskID now (cluster o) service 0 (Static_NodeID info))
            ++ [PeerGroupConfigRef task])%list.
    rewrite NewTask_MaterializedConfigs, Hinfo.
    change (GetCertificateIssuanceConfigRefs
              (NewTask taskID now (cluster o) service 0 (Static_NodeID info)))
      with (GetCertificateIssuanceConfigRefs task).
    change (PeerGroupConfigRef
              (NewTask taskID now (cluster o) service 0 (Static_NodeID info)))
      with (PeerGroupConfigRef task).
    rewrite !elem_of_app, !list_elem_of_singleton. tauto. }
  repeat split; try assumption; try apply Hmc.
  change (Task_ID task +:+ "-peer-group" = taskID +:+ "-peer-group").
  by rewrite Htid.
Qed.

End static_orchestrator.

Section static_orchestrator_examples.
Import Api Orchestrator Static Examples.

Lemma addTask_creates_static_task_witness :
  ∃ o' task,
    reconcile_addTask (H:=exampleTaskLib) "T1" epoch
      (NewStaticOrchestrator (storeWith [S1])) S1 = Some o'
    ∧ Store.tableTask (store o') = <[ "T1" := task ]> ∅
    ∧ Task_ID task = "T1"
    ∧ ServiceID task = "S1"
    ∧ NodeID task = "N1"
    ∧ Slot task = 0
    ∧ DesiredState task = TaskStateRunning
    ∧ ConfigID (PeerGroupConfigRef task) = "T1-peer-group"
    ∧ ∀ r, r ∈ MaterializedConfigs task
           ↔ r = PeerGroupConfigRef task
             ∨ r ∈ GetCertificateIssuanceConfigRefs (H:=exampleTaskLib) task.
Proof.
  apply (addTask_creates_static_task (H:=exampleTaskLib) "T1" epoch
           (NewStaticOrchestrator (storeWith [S1])) S1
           (pinned "N1" ["10.0.0.4/24"])).
  - reflexivity.
  - exists S1. reflexivity.
  - reflexivity.
Defined.

(** C2, as stated, fails for a static service whose container asks for a
    certificate: the created task's MaterializedConfigs also hold the
    three certificate references, so the list is not a single reference
    and holds ids other than "<taskID>-peer-group". *)
Lemma addTask_certificate_refs_counterexample :
  let task := addTask_task (H:=exampleTaskLib) "T1" epoch
                (NewStaticOrchestrator (storeWith [S1cert])) S1cert "N1" in
  Store.tableTask
    (store (addTask (H:=exampleTaskLib) "T1" epoch
              (NewStaticOrchestrator (storeWith [S1cert])) S1cert "N1"))
  !! "T1" = Some task
  ∧ (length (MaterializedConfigs task) ≠ 1)%nat
  ∧ ∃ r, r ∈ MaterializedConfigs task ∧ ConfigID r = "T1-ca1-issue-ca"
         ∧ ConfigID r ≠ "T1-peer-group".
Proof.
  split; [reflexivity|]. split; [by vm_compute|].
  eexists. split; [apply list_elem_of_lookup; exists 1%nat; reflexivity|].
  split; [reflexivity | by vm_compute].
Qed.

(** C6: start-up on a store holding one static service that has no node
    id yet.  [IsRelatedService] rejects it, yet the enumeration puts it in
    [services] and hands its id to the initial reconciliation; only
    [servicesByNodeID] leaves it out. *)
Theorem Run_startup_keeps_unpinned_static_service :
  let o := NewStaticOrchestrator (storeWith [S0]) in
  IsRelatedService S0 = Some false
  ∧ ∃ o', Run_startup o = Some (o', ["S0"])
          ∧ services o' !! "S0" = Some S0
          ∧ servicesByNodeID o' = ∅.
Proof.
  split; [reflexivity|].
  eexists. split; [reflexivity|]. split; reflexivity.
Qed.

End static_orchestrator_examples.

(** ** manager/state/store: the name-space shared by services and peer
       groups *)

Section store_names.
Import Api Store.
Context `{StringsLib}.

Lemma lookupName_Some {A} `{StoreObject A} (tbl : gmap string A) key o :
  lookupName tbl key = Some o →
  ∃ k, tbl !! k = Some o ∧ ToLower (GetName o) = key.
Proof.
  unfold lookupName. intros Hfind.
  destruct (list_find _ _) as [[i x]|] eqn:E; simplify_eq/=.
  apply list_find_Some in E as (Hi & HP & _).
  apply list_elem_of_lookup_2, list_elem_of_fmap in Hi as ([k y] & -> & Hin).
  apply elem_of_map_to_list in Hin. eauto.
Qed.

Lemma lookupName_None {A} `{StoreObject A} (tbl : gmap string A) key k o :
  lookupName tbl key = None →
  tbl !! k = Some o → ToLower (GetName o) ≠ key.
Proof.
  unfold lookupName. intros Hfind Hk.
  destruct (list_find _ _) as [[i x]|] eqn:E; simplify_eq/=.
  apply list_find_None in E. rewrite Forall_forall in E.
  apply E, list_elem_of_fmap. exists (k, o). split; [done|].
  by apply elem_of_map_to_list.
Qed.

Lemma lookupName_is_Some {A} `{StoreObject A} (tbl : gmap string A) key k o :
  tbl !! k = Some o → ToLower (GetName o) = key →
  is_Some (lookupName tbl key).
Proof.
  intros Hk Hn. destruct (lookupName tbl key) eqn:E; [eauto|].
  by destruct (lookupName_None _ _ _ _ E Hk).
Qed.

Lemma keyed_empty {A} `{StoreObject A} : keyed (∅ : gmap string A).
Proof. split; intros *; by rewrite lookup_empty. Qed.

Lemma keyed_delete {A} `{StoreObject A} (tbl : gmap string A) k :
  keyed tbl → keyed (delete k tbl).
Proof.
  intros [Hid Hname]. split.
  - intros k' o Hk'. apply lookup_delete_Some in Hk' as [_ Hk']. eauto.
  - intros k1 k2 o1 o2 H1 H2.
    apply lookup_delete_Some in H1 as [_ H1].
    apply lookup_delete_Some in H2 as [_ H2]. eauto.
Qed.

(** Writing [o] under its id keeps the table well keyed when every other
    object has another name. *)
Lemma keyed_insert {A} `{StoreObject A} (tbl : gmap string A) o :
  keyed tbl →
  (∀ k o', tbl !! k = Some o' → key_of o' = key_of o → k = GetID o) →
  keyed (<[GetID o := o]> tbl).
Proof.
  intros [Hid Hname] Hother. split.
  - intros k o' Hk. apply lookup_insert_Some in Hk as [[<- <-]|[_ Hk]]; eauto.
  - intros k1 k2 o1 o2 H1 H2 Heq.
    apply lookup_insert_Some in H1 as [[<- <-]|[Hne1 H1]];
      apply lookup_insert_Some in H2 as [[<- <-]|[Hne2 H2]]; eauto.
    symmetry. eauto.
Qed.

Lemma apart_insert_l {A B} `{StoreObject A} `{StoreObject B}
    (ta : gmap string A) (tb : gmap string B) o :
  apart ta tb →
  (∀ kb b, tb !! kb = Some b → key_of o ≠ key_of b) →
  apart (<[GetID o := o]> ta) tb.
Proof.
  intros Hap Ho ka kb a b Ha Hb.
  apply lookup_insert_Some in Ha as [[<- <-]|[_ Ha]]; eauto.
Qed.

Lemma apart_insert_r {A B} `{StoreObject A} `{StoreObject B}
    (ta : gmap string A) (tb : gmap string B) o :
  apart ta tb →
  (∀ ka a, ta !! ka = Some a → key_of a ≠ key_of o) →
  apart ta (<[GetID o := o]> tb).
Proof.
  intros Hap Ho ka kb a b Ha Hb.
  apply lookup_insert_Some in Hb as [[<- <-]|[_ Hb]]; eauto.
Qed.

Lemma apart_delete_l {A B} `{StoreObject A} `{StoreObject B}
    (ta : gmap string A) (tb : gmap string B) k :
  apart ta tb → apart (delete k ta) tb.
Proof.
  intros Hap ka kb a b Ha Hb.
  apply lookup_delete_Some in Ha as [_ Ha]. eauto.
Qed.

Lemma apart_delete_r {A B} `{StoreObject A} `{StoreObject B}
    (ta : gmap string A) (tb : gmap string B) k :
  apart ta tb → apart ta (delete k tb).
Proof.
  intros Hap ka kb a b Ha Hb.
  apply lookup_delete_Some in Hb as [_ Hb]. eauto.
Qed.

(** Reading a table of a transaction that has just been written. *)
Ltac project_tables :=
  cbn [tableService tablePeerGroup set_tablePeerGroup set_tableService].

Lemma names_unique_empty : names_unique emptyTables.
Proof.
  split; [apply keyed_empty | split; [apply keyed_empty|]].
  intros ka kb a b Ha. simpl in Ha. by rewrite lookup_empty in Ha.
Qed.

(** A name already taken by another table entry, or by an entry of the
    table itself under another id, makes the write fail; so every write
    that succeeds keeps the names unique. *)
Lemma CreatePeerGroup_names_unique tx p tx' :
  names_unique tx → CreatePeerGroup tx p = Ok tx' → names_unique tx'.
Proof.
  intros (Hs & Hp & Hap). unfold CreatePeerGroup.
  destruct (lookupName (tablePeerGroup tx) _) eqn:Ep; [done|].
  destruct (lookupName (tableService tx) _) eqn:Es; [done|].
  unfold create. destruct (tablePeerGroup tx !! GetID p) eqn:Eid; [done|].
  intros [= <-]. split; [exact Hs | split];
      project_tables.
  - refine (keyed_insert (tablePeerGroup tx) p _ _); [done|].
      intros k o' Hk Hkey.
    by destruct (lookupName_None _ _ _ _ Ep Hk).
  - refine (apart_insert_r (tableService tx) (tablePeerGroup tx) p _ _);
        [done|]. intros ka a Ha.
    exact (lookupName_None _ _ _ _ Es Ha).
Qed.

Lemma UpdatePeerGroup_names_unique tx p tx' :
  names_unique tx → UpdatePeerGroup tx p = Ok tx' → names_unique tx'.
Proof.
  intros (Hs & Hp & Hap). unfold UpdatePeerGroup.
  destruct (lookupName (tablePeerGroup tx) _) as [existing|] eqn:Ep.
  - case_bool_decide as Hne; [done|].
    unfold update. destruct (tablePeerGroup tx !! GetID p) eqn:Eid; [|done].
    intros [= <-].
    apply lookupName_Some in Ep as (ke & Hke & Hkey).
    assert (Hown : ke = GetID p).
    { destruct Hp as [Hid _]. rewrite <- (Hid _ _ Hke). exact Hne. }
    subst ke. split; [exact Hs | split];
      project_tables.
    + refine (keyed_insert (tablePeerGroup tx) p _ _); [done|].
      intros k o' Hk Hkey'.
      destruct Hp as [_ Hname].
      apply (Hname k (GetID p) o' existing Hk Hke).
      etrans; [exact Hkey' | symmetry; exact Hkey].
    + refine (apart_insert_r (tableService tx) (tablePeerGroup tx) p _ _);
        [done|]. intros ka a Ha Heq.
      apply (Hap ka (GetID p) a existing Ha Hke).
      etrans; [exact Heq | symmetry; exact Hkey].
  - destruct (lookupName (tableService tx) _) eqn:Es; [done|].
    unfold update. destruct (tablePeerGroup tx !! GetID p) eqn:Eid; [|done].
    intros [= <-]. split; [exact Hs | split];
      project_tables.
    + refine (keyed_insert (tablePeerGroup tx) p _ _); [done|].
      intros k o' Hk Hkey.
      by destruct (lookupName_None _ _ _ _ Ep Hk).
    + refine (apart_insert_r (tableService tx) (tablePeerGroup tx) p _ _);
        [done|]. intros ka a Ha.
      exact (lookupName_None _ _ _ _ Es Ha).
Qed.

Lemma CreateService_names_unique tx s tx' :
  names_unique tx → CreateService tx s = Ok tx' → names_unique tx'.
Proof.
  intros (Hs & Hp & Hap). unfold CreateService.
  destruct (lookupName (tableService tx) _) eqn:Es; [done|].
  destruct (lookupName (tablePeerGroup tx) _) eqn:Ep; [done|].
  unfold create. destruct (tableService tx !! GetID s) eqn:Eid; [done|].
  intros [= <-]. split; [|split; [exact Hp|]];
      project_tables.
  - refine (keyed_insert (tableService tx) s _ _); [done|].
      intros k o' Hk Hkey.
    by destruct (lookupName_None _ _ _ _ Es Hk).
  - refine (apart_insert_l (tableService tx) (tablePeerGroup tx) s _ _);
        [done|]. intros kb b Hb Heq.
    by destruct (lookupName_None _ _ _ _ Ep Hb).
Qed.

Lemma UpdateService_names_unique tx s tx' :
  names_unique tx → UpdateService tx s = Ok tx' → names_unique tx'.
Proof.
  intros (Hs & Hp & Hap). unfold UpdateService.
  destruct (lookupName (tableService tx) _) as [existing|] eqn:Es.
  - case_bool_decide as Hne; [done|].
    unfold update. destruct (tableService tx !! GetID s) eqn:Eid; [|done].
    intros [= <-].
    apply lookupName_Some in Es as (ke & Hke & Hkey).
    assert (Hown : ke = GetID s).
    { destruct Hs as [Hid _]. rewrite <- (Hid _ _ Hke). exact Hne. }
    subst ke. split; [|split; [exact Hp|]];
      project_tables.
    + refine (keyed_insert (tableService tx) s _ _); [done|].
      intros k o' Hk Hkey'.
      destruct Hs as [_ Hname].
      apply (Hname k (GetID s) o' existing Hk Hke).
      etrans; [exact Hkey' | symmetry; exact Hkey].
    + refine (apart_insert_l (tableService tx) (tablePeerGroup tx) s _ _);
        [done|]. intros kb b Hb Heq.
      apply (Hap (GetID s) kb existing b Hke Hb).
      etrans; [exact Hkey | exact Heq].
  - destruct (lookupName (tablePeerGroup tx) _) eqn:Ep; [done|].
    unfold update. destruct (tableService tx !! GetID s) eqn:Eid; [|done].
    intros [= <-]. split; [|split; [exact Hp|]];
      project_tables.
    + refine (keyed_insert (tableService tx) s _ _); [done|].
      intros k o' Hk Hkey.
      by destruct (lookupName_None _ _ _ _ Es Hk).
    + refine (apart_insert_l (tableService tx) (tablePeerGroup tx) s _ _);
        [done|]. intros kb b Hb Heq.
      by destruct (lookupName_None _ _ _ _ Ep Hb).
Qed.

Lemma step_names_unique tx op : names_unique tx → names_unique (step tx op).
Proof.
  intros Hu. unfold step. destruct (applyOp tx op) as [tx'|] eqn:E; [|done].
  destruct op; simpl in E.
  - eauto using CreatePeerGroup_names_unique.
  - eauto using UpdatePeerGroup_names_unique.
  - unfold DeletePeerGroup, delete_ in E.
    destruct (tablePeerGroup tx !! id); simplify_eq/=.
    destruct Hu as (Hs & Hp & Hap). split; [exact Hs | split];
      project_tables.
    + by apply keyed_delete.
    + by apply apart_delete_r.
  - eauto using CreateService_names_unique.
  - eauto using UpdateService_names_unique.
  - unfold DeleteService, delete_ in E.
    destruct (tableService tx !! id); simplify_eq/=.
    destruct Hu as (Hs & Hp & Hap). split; [|split; [exact Hp|]];
      project_tables.
    + by apply keyed_delete.
    + by apply apart_delete_l.
Qed.

Lemma run_names_unique ops : names_unique (run ops).
Proof.
  induction ops as [|op ops IH] using rev_ind.
  - apply names_unique_empty.
  - unfold run. rewrite foldl_app. simpl. by apply step_names_unique.
Qed.

(** C5: in the store reached by any sequence of service and peer-group
    writes, CreatePeerGroup returns ErrNameConflict whenever the new name
    equals, after lower-casing, the name of a stored peer group or of a
    stored service; UpdatePeerGroup does so whenever the name is that of
    another stored peer group or of a stored service; and no stored
    service and stored peer group have the same lower-cased name. *)
Theorem PeerGroup_Service_shared_namespace ops :
  let tx := run ops in
  (∀ p, (∃ k p', tablePeerGroup tx !! k = Some p' ∧ key_of p' = key_of p)
        ∨ (∃ k s, tableService tx !! k = Some s ∧ key_of s = key_of p) →
        CreatePeerGroup tx p = Err ErrNameConflict)
  ∧ (∀ p, (∃ k p', tablePeerGroup tx !! k = Some p' ∧ key_of p' = key_of p
                   ∧ PG_ID p' ≠ PG_ID p)
          ∨ (∃ k s, tableService tx !! k = Some s ∧ key_of s = key_of p) →
          UpdatePeerGroup tx p = Err ErrNameConflict)
  ∧ (∀ ks s kp p, tableService tx !! ks = Some s →
                  tablePeerGroup tx !! kp = Some p →
                  ToLower (Name (Service_Annotations (Service_Spec s)))
                  ≠ ToLower (Name (PG_Annotations (PG_Spec p)))).
Proof.
  intros tx. pose proof (run_names_unique ops) as (Hs & Hp & Hap).
  fold tx in Hs, Hp, Hap. split; [|split].
  - intros p Hclash. unfold CreatePeerGroup.
    destruct (lookupName (tablePeerGroup tx) _) eqn:Ep; [done|].
    destruct Hclash as [(k & p' & Hk & Hkey)|(k & s & Hk & Hkey)].
    { by destruct (lookupName_None _ _ _ _ Ep Hk). }
    destruct (lookupName (tableService tx) _) eqn:Es; [done|].
    by destruct (lookupName_None _ _ _ _ Es Hk).
  - intros p Hclash. unfold UpdatePeerGroup.
    destruct (lookupName (tablePeerGroup tx) _) as [existing|] eqn:Ep.
    + case_bool_decide as Hne; [done|]. exfalso.
        apply lookupName_Some in Ep as (ke & Hke & Hkey).
      destruct Hclash as [(k & p' & Hk & Hkey' & Hid)|(k & s & Hk & Hkey')].
      * destruct Hp as [Hkeyed Hname].
        assert (k = ke) as ->.
        { apply (Hname k ke p' existing Hk Hke).
          etrans; [exact Hkey' | symmetry; exact Hkey]. }
        apply Hid. rewrite Hke in Hk. by simplify_eq.
      * apply (Hap k ke s existing Hk Hke).
        etrans; [exact Hkey' | symmetry; exact Hkey].
    + destruct Hclash as [(k & p' & Hk & Hkey' & _)|(k & s & Hk & Hkey')].
      { by destruct (lookupName_None _ _ _ _ Ep Hk). }
      destruct (lookupName (tableService tx) _) eqn:Es; [done|].
      by destruct (lookupName_None _ _ _ _ Es Hk).
  - intros ks s kp p Hks Hkp. exact (Hap _ _ _ _ Hks Hkp).
Qed.

End store_names.

(** ** manager/dispatcher: the assignment set *)

Section assignment_set.
Import Api Dispatcher.
Context `{lib : Lib}.

Implicit Types (a : assignmentSet) (k : typeAndID) (t : Task).

(** *** How one step moves the reverse index and the pending changes *)

Lemma users_register a k tid k' :
  users (register a k tid) k'
  = if decide (k = k') then {[tid]} ∪ users a k' else users a k'.
Proof.
  unfold users, register. simpl. case_decide as E.
  - subst. by rewrite lookup_insert_eq.
  - by rewrite lookup_insert_ne.
Qed.

Lemma users_assignSecret a readTx k t k' :
  users (assignSecret a readTx k t) k'
  = if decide (k = k') then ∅ else users a k'.
Proof.
  unfold users, assignSecret. destruct (secret readTx t (id k)); simpl;
    (case_decide as E; [subst; by rewrite lookup_insert_eq
                       | by rewrite lookup_insert_ne]).
Qed.

Lemma users_assignConfig a readTx k k' :
  users (assignConfig a readTx k) k'
  = if decide (k = k') then ∅ else users a k'.
Proof.
  unfold users, assignConfig. destruct (Store.GetConfig readTx (id k)); simpl;
    (case_decide as E; [subst; by rewrite lookup_insert_eq
                       | by rewrite lookup_insert_ne]).
Qed.

Lemma unused_true a k : unused a k = true ↔ users a k = ∅.
Proof. unfold unused. by rewrite bool_decide_eq_true. Qed.

Lemma unused_false a k : unused a k = false ↔ users a k ≠ ∅.
Proof. unfold unused. by rewrite bool_decide_eq_false. Qed.

Lemma users_addKey readTx t a k k' :
  users (addKey readTx t a k) k'
  = if decide (k = k') then {[Task_ID t]} ∪ users a k' else users a k'.
Proof.
  unfold addKey. rewrite users_register.
  destruct (unused a k) eqn:E; [|done].
  apply unused_true in E.
  destruct (objType k);
    rewrite ?users_assignSecret, ?users_assignConfig;
    case_decide; subst; by rewrite ?E.
Qed.

Lemma tasksMap_addKey readTx t a k :
  tasksMap (addKey readTx t a k) = tasksMap a.
Proof.
  unfold addKey, register, assignSecret, assignConfig.
  destruct (unused a k); [|done].
  destruct (objType k); simpl;
    by destruct (secret _ _ _) || by destruct (Store.GetConfig _ _) || done.
Qed.

Lemma changes_addKey readTx t a k :
  changes (addKey readTx t a k)
  = if unused a k
    then match materialize readTx t k with
         | Some c => <[k := c]> (changes a)
         | None => changes a
         end
    else changes a.
Proof.
  unfold addKey, register, assignSecret, assignConfig, materialize.
  destruct (unused a k); [|done].
  destruct (objType k); simpl.
  - by destruct (Store.GetConfig _ _).
  - by destruct (secret _ _ _).
  - by destruct (Store.GetConfig _ _).
Qed.

Lemma users_addMaterialized a configID data tid k' :
  users (addMaterialized a configID data tid) k'
  = if decide (configIDKey configID = k') then {[tid]} ∪ users a k'
    else users a k'.
Proof.
  unfold addMaterialized. fold (configIDKey configID).
  rewrite users_register.
  destruct (unused a (configIDKey configID)) eqn:E; [|done].
  apply unused_true in E. unfold users in *. simpl.
  case_decide; subst.
  - by rewrite lookup_insert_eq, E.
  - by rewrite lookup_insert_ne.
Qed.

Lemma tasksMap_addMaterialized a configID data tid :
  tasksMap (addMaterialized a configID data tid) = tasksMap a.
Proof. unfold addMaterialized. by destruct (unused _ _). Qed.

Lemma changes_addMaterialized a configID data tid :
  changes (addMaterialized a configID data tid)
  = if unused a (configIDKey configID)
    then <[configIDKey configID := updateConfig configID data]> (changes a)
    else changes a.
Proof.
  unfold addMaterialized. fold (configIDKey configID).
  by destruct (unused _ _).
Qed.

Lemma users_releaseDependency a k assignment tid k' :
  users (releaseDependency a k assignment tid).1 k'
  = if decide (k = k') then users a k' ∖ {[tid]} else users a k'.
Proof.
  unfold releaseDependency.
  set (a1 := set_tasksUsingDependency a _).
  assert (Ha1 : ∀ j, users a1 j
                     = if decide (k = j) then users a j ∖ {[tid]}
                       else users a j).
  { intros j. unfold users, a1. simpl. case_decide as E.
    - subst. rewrite lookup_alter_eq.
      destruct (tasksUsingDependency a !! j); simpl; set_solver.
    - by rewrite lookup_alter_ne. }
  destruct (unused a1 k) eqn:E; simpl; [|apply Ha1].
  apply unused_true in E. rewrite <- Ha1. unfold users at 1. simpl.
  destruct (decide (k = k')) as [<-|Hne].
  - by rewrite lookup_delete_eq, E.
  - by rewrite lookup_delete_ne.
Qed.

Lemma tasksMap_releaseDependency a k assignment tid :
  tasksMap (releaseDependency a k assignment tid).1 = tasksMap a.
Proof. unfold releaseDependency. by destruct (negb _). Qed.

Lemma changes_releaseDependency a k assignment tid :
  changes (releaseDependency a k assignment tid).1
  = if decide (users a k ∖ {[tid]} = ∅)
    then <[k := removeChange assignment]> (changes a)
    else changes a.
Proof.
  pose proof (users_releaseDependency a k assignment tid k) as Hu.
  rewrite decide_True in Hu by done. revert Hu.
  unfold releaseDependency.
  set (a1 := set_tasksUsingDependency a _).
  destruct (unused a1 k) eqn:E; simpl; intros Hu.
  - apply unused_true in E.
    assert (users a1 k = users a k ∖ {[tid]}) as Heq.
    { unfold users, a1. simpl. rewrite lookup_alter_eq.
      destruct (tasksUsingDependency a !! k); simpl; set_solver. }
    rewrite <- Heq, E. by rewrite decide_True.
  - apply unused_false in E. rewrite <- Hu. by rewrite decide_False.
Qed.


End assignment_set.

Section assignment_set_phases.
Import Api Dispatcher.
Context `{lib : Lib}.

Implicit Types (a : assignmentSet) (k : typeAndID) (t : Task).

(** *** Composing steps *)

Lemma extends_refl tid K a : extends tid K a a.
Proof.
  split; [done|]. split; [done|]. split; [|done].
  intros k. apply union_subseteq_l.
Qed.

Lemma extends_trans tid K1 K2 a a1 a2 :
  extends tid K1 a a1 → extends tid K2 a1 a2 →
  extends tid (K1 ++ K2) a a2.
Proof.
  intros (Ht1 & Hsub1 & Hsup1 & Hout1 & Hch1) (Ht2 & Hsub2 & Hsup2 & Hout2 & Hch2).
  split; [congruence|]. split; [|split; [|split]].
  - intros k. specialize (Hsub1 k). specialize (Hsub2 k). set_solver.
  - intros k. specialize (Hsup1 k). specialize (Hsup2 k). set_solver.
  - intros k Hk. rewrite not_elem_of_app in Hk. destruct Hk.
    rewrite Hout2, Hout1; auto.
  - intros k Hk. rewrite Hch2, Hch1; auto.
    + destruct Hk as [Hk|Hk]; [by left|right].
      rewrite not_elem_of_app in Hk. tauto.
    + destruct Hk as [Hk|Hk].
      * left. specialize (Hsub1 k). set_solver.
      * right. rewrite not_elem_of_app in Hk. tauto.
Qed.

Lemma extends_weaken tid K K' a a' :
  (∀ k, k ∈ K → k ∈ K') → extends tid K a a' → extends tid K' a a'.
Proof.
  intros HK (Ht & Hsub & Hsup & Hout & Hch).
  split; [done|]. split; [done|]. split; [done|]. split.
  - intros k Hk. apply Hout. auto.
  - intros k [Hk|Hk]; apply Hch; auto.
Qed.

Lemma extends_addKey readTx t a k :
  extends (Task_ID t) [k] a (addKey readTx t a k).
Proof.
  split; [apply tasksMap_addKey|]. split; [|split; [|split]].
  - intros j. rewrite users_addKey. case_decide; set_solver.
  - intros j. rewrite users_addKey. case_decide; set_solver.
  - intros j Hj. rewrite users_addKey. rewrite decide_False; [done|].
    set_solver.
  - intros j Hj. rewrite changes_addKey.
    destruct (unused a k) eqn:E; [|done]. apply unused_true in E.
    destruct (materialize readTx t k); [|done].
    rewrite lookup_insert_ne; [done|].
    intros ->. destruct Hj as [Hj|Hj]; [done|]. set_solver.
Qed.

Lemma extends_addMaterialized a configID data tid :
  extends tid [configIDKey configID] a (addMaterialized a configID data tid).
Proof.
  split; [apply tasksMap_addMaterialized|]. split; [|split; [|split]].
  - intros j. rewrite users_addMaterialized. case_decide; set_solver.
  - intros j. rewrite users_addMaterialized. case_decide; set_solver.
  - intros j Hj. rewrite users_addMaterialized. rewrite decide_False; [done|].
    set_solver.
  - intros j Hj. rewrite changes_addMaterialized.
    destruct (unused a _) eqn:E; [|done]. apply unused_true in E.
    rewrite lookup_insert_ne; [done|].
    intros <-. destruct Hj as [Hj|Hj]; [done|]. set_solver.
Qed.

Lemma extends_foldl_addKey readTx t l a :
  extends (Task_ID t) l a (foldl (addKey readTx t) a l).
Proof.
  revert a. induction l as [|k l IH]; intros a; simpl.
  - apply extends_refl.
  - change (k :: l) with ([k] ++ l)%list. eapply extends_trans; [|apply IH].
    apply extends_addKey.
Qed.

Lemma users_foldl_addKey readTx t l a k :
  users (foldl (addKey readTx t) a l) k
  = if decide (k ∈ l) then {[Task_ID t]} ∪ users a k else users a k.
Proof.
  revert a. induction l as [|x l IH]; intros a; cbn [foldl].
  - rewrite decide_False by set_solver. done.
  - rewrite IH, users_addKey.
    destruct (decide (k ∈ l)), (decide (x = k)); subst.
    + rewrite decide_True by set_solver. set_solver.
    + rewrite decide_True by set_solver. done.
    + rewrite decide_True by set_solver. done.
    + rewrite decide_False by set_solver. done.
Qed.

(** A dependency whose materialization fails leaves no change behind. *)
Lemma changes_foldl_addKey_failed readTx t l a k :
  materialize readTx t k = None →
  changes (foldl (addKey readTx t) a l) !! k = changes a !! k.
Proof.
  intros Hfail. revert a. induction l as [|x l IH]; intros a; simpl; [done|].
  rewrite IH, changes_addKey. destruct (unused a x); [|done].
  destruct (materialize readTx t x) eqn:E; [|done].
  rewrite lookup_insert_ne; [done|]. congruence.
Qed.

(** *** The loop bodies are [addKey] on the keys of their references *)

Lemma addSecretReference_addKey readTx t a r :
  addSecretReference readTx t a r = addKey readTx t a (secretKey r).
Proof. reflexivity. Qed.

Lemma addConfigReference_addKey readTx t a r :
  addConfigReference readTx t a r = addKey readTx t a (configKey r).
Proof. reflexivity. Qed.

Lemma noTaskKeys_extends tid K a a' :
  (∀ k, k ∈ K → isDependency k) →
  noTaskKeys a → extends tid K a a' → noTaskKeys a'.
Proof.
  intros HK Ha (_ & _ & _ & Hout & _) k Hk.
  destruct (decide (k ∈ K)); [by apply HK|].
  apply Ha. by rewrite <- Hout.
Qed.

Lemma foldl_addResourceReference readTx t refs a :
  noTaskKeys a →
  foldl (addResourceReference readTx t) a refs
  = foldl (addKey readTx t) a (filter isDependency (resourceKey <$> refs)).
Proof.
  revert a. induction refs as [|r refs IH]; intros a Ha; simpl; [done|].
  rewrite filter_cons. fold (resourceKey r).
  destruct (decide (isDependency (resourceKey r))) as [Hdep|Htask].
  - simpl. assert (addResourceReference readTx t a r
                   = addKey readTx t a (resourceKey r)) as ->.
    { unfold addResourceReference, addKey. fold (resourceKey r).
      unfold isDependency, resourceKey in Hdep. simpl in Hdep.
      destruct (unused a (resourceKey r)); [|done].
      unfold resourceKey. simpl.
      destruct (Resource_Type r); [by destruct Hdep|done..]. }
    apply IH. eapply noTaskKeys_extends; [|done|apply extends_addKey].
    intros k Hk. apply list_elem_of_singleton in Hk. by subst.
  - assert (addResourceReference readTx t a r = a) as ->; [|by apply IH].
    unfold addResourceReference. fold (resourceKey r).
    destruct (unused a (resourceKey r)) eqn:E.
    + unfold isDependency, resourceKey in Htask. simpl in Htask.
      destruct (Resource_Type r); [done|by destruct Htask..].
    + apply unused_false in E. destruct Htask. by apply Ha.
Qed.

End assignment_set_phases.

Section add_dependencies.
Import Api Dispatcher.
Context `{lib : Lib}.

Implicit Types (a : assignmentSet) (k : typeAndID) (t : Task).

Lemma declaredKeys_dependency t k : k ∈ declaredKeys t → isDependency k.
Proof.
  unfold declaredKeys. rewrite !elem_of_app, list_elem_of_filter.
  intros [[Hk _]|[Hk|Hk]]; [done|..];
    apply list_elem_of_fmap in Hk as (r & -> & _); done.
Qed.

Lemma synthesizedKeys_dependency readTx t k :
  k ∈ synthesizedKeys readTx t → isDependency k.
Proof.
  unfold synthesizedKeys. rewrite elem_of_app. intros [Hk|Hk].
  - apply list_elem_of_In, in_flat_map in Hk as (ci & _ & Hk).
    unfold issuanceKeys in Hk. simpl in Hk.
    destruct Hk as [<-|[<-|[<-|[]]]]; done.
  - destruct (staticServiceOf readTx t); [|by apply elem_of_nil in Hk].
    apply list_elem_of_singleton in Hk. by subst.
Qed.

(** The three loops over the declared references are one pass of
    [addKey] over [declaredKeys]. *)
Lemma declared_phase readTx t a :
  noTaskKeys a →
  foldl (addConfigReference readTx t)
    (foldl (addSecretReference readTx t)
       (foldl (addResourceReference readTx t) a
          (ResourceReferences (Task_Spec t)))
       (containerSecrets t))
    (containerConfigs t)
  = foldl (addKey readTx t) a (declaredKeys t).
Proof.
  intros Ha. unfold declaredKeys. rewrite !foldl_app, !foldl_fmap.
  by rewrite foldl_addResourceReference.
Qed.

Lemma extends_addCertIssuanceDependencies readTx t hosts a certIssuance :
  extends (Task_ID t) (issuanceKeys t certIssuance) a
    (addCertIssuanceDependencies readTx t hosts a certIssuance).
Proof.
  unfold addCertIssuanceDependencies.
  destruct (Store.GetCA _ _) as [certAuthority|]; [|apply extends_refl].
  destruct (issueCertificate _ _ _) as [[key cert]|]; [|apply extends_refl].
  unfold issuanceKeys.
  eapply (extends_trans _ [_] [_; _]);
    [|eapply (extends_trans _ [_] [_])]; apply extends_addMaterialized.
Qed.

Lemma extends_foldl_addCertIssuanceDependencies readTx t hosts l a :
  extends (Task_ID t) (flat_map (issuanceKeys t) l) a
    (foldl (addCertIssuanceDependencies readTx t hosts) a l).
Proof.
  revert a. induction l as [|ci l IH]; intros a; cbn [foldl flat_map].
  - apply extends_refl.
  - eapply extends_trans; [|apply IH].
    apply extends_addCertIssuanceDependencies.
Qed.

Lemma extends_maybeAddStaticServiceDependencies readTx t a a' :
  maybeAddStaticServiceDependencies readTx t a = Some a' →
  extends (Task_ID t)
    (if staticServiceOf readTx t is Some _ then [peerGroupKey t] else [])
    a a'.
Proof.
  unfold maybeAddStaticServiceDependencies, staticServiceOf.
  destruct (bool_decide (ServiceID t = "")).
  { intros [= <-]. apply extends_refl. }
  destruct (Store.GetService _ _) as [service|]; simpl;
    [|intros [= <-]; apply extends_refl].
  destruct (GetStatic _) as [static|]; simpl;
    [|intros [= <-]; apply extends_refl].
  destruct (collectPeers _ _ _) as [peerAddrs|]; [|done]. simpl.
  destruct (firstAddress service) as [address|]; [|done]. simpl.
  intros [= <-]. apply extends_addMaterialized.
Qed.

(** addTaskDependencies: the declared keys through [addKey], then the
    synthesized files. *)
Lemma addTaskDependencies_phases readTx t a a' :
  noTaskKeys a →
  addTaskDependencies readTx t a = Some a' →
  extends (Task_ID t) (synthesizedKeys readTx t)
    (foldl (addKey readTx t) a (declaredKeys t)) a'.
Proof.
  intros Ha. unfold addTaskDependencies.
  change (match GetContainer (Task_Spec t) with
          | Some c => Secrets c | None => [] end) with (containerSecrets t).
  change (match GetContainer (Task_Spec t) with
          | Some c => Configs c | None => [] end) with (containerConfigs t).
  rewrite declared_phase by done.
  set (a1 := foldl (addKey readTx t) a (declaredKeys t)).
  intros Hpg. apply extends_maybeAddStaticServiceDependencies in Hpg.
  unfold synthesizedKeys, containerIssuances.
  eapply extends_trans; [|exact Hpg].
  destruct (GetContainer (Task_Spec t)) as [c|]; [|apply extends_refl].
  destruct (decide (CertificateIssuances c = [])) as [Hc|Hc].
  - rewrite bool_decide_eq_false_2 by auto. rewrite Hc. apply extends_refl.
  - rewrite bool_decide_eq_true_2 by auto.
    apply extends_foldl_addCertIssuanceDependencies.
Qed.

Lemma addTaskDependencies_extends readTx t a a' :
  noTaskKeys a →
  addTaskDependencies readTx t a = Some a' →
  extends (Task_ID t) (filedKeys readTx t) a a'.
Proof.
  intros Ha Hadd. unfold filedKeys.
  eapply extends_trans; [apply extends_foldl_addKey|].
  by apply addTaskDependencies_phases.
Qed.

(** Every declared secret and config has the task among its users
    afterwards. *)
Lemma addTaskDependencies_registers readTx t a a' k :
  noTaskKeys a →
  addTaskDependencies readTx t a = Some a' →
  k ∈ declaredKeys t → Task_ID t ∈ users a' k.
Proof.
  intros Ha Hadd Hk.
  apply addTaskDependencies_phases in Hadd as (_ & Hsub & _); [|done].
  apply Hsub. rewrite users_foldl_addKey, decide_True by done. set_solver.
Qed.

End add_dependencies.

Section release_dependencies.
Import Api Dispatcher.

Implicit Types (a : assignmentSet) (k : typeAndID) (t : Task).

Lemma foldl_releaseResourceReference t refs st :
  foldl (releaseResourceReference t) st refs
  = foldl (releaseKey (Task_ID t)) st
      (filter isDependency (resourceKey <$> refs)).
Proof.
  revert st. induction refs as [|r refs IH]; intros st; simpl; [done|].
  rewrite filter_cons. fold (resourceKey r).
  destruct (decide (isDependency (resourceKey r))) as [Hdep|Htask].
  - simpl. rewrite IH. f_equal.
    unfold releaseResourceReference, minimalFor, resourceKey,
      isDependency in *. simpl in *.
    destruct (Resource_Type r); [by destruct Hdep|done..].
  - rewrite IH. f_equal.
    unfold releaseResourceReference, resourceKey, isDependency in *.
    simpl in *. destruct (Resource_Type r); [done|by destruct Htask..].
Qed.

(** releaseTaskDependencies is one pass of releases over [releasedKeys]. *)
Lemma releaseTaskDependencies_keys a t :
  releaseTaskDependencies a t
  = foldl (releaseKey (Task_ID t)) (a, false) (releasedKeys t).
Proof.
  unfold releaseTaskDependencies, releasedKeys, declaredKeys.
  rewrite !foldl_app, !foldl_fmap, foldl_releaseResourceReference.
  reflexivity.
Qed.

Lemma releaseOne_fst tid k assignment a b :
  (releaseOne tid k assignment (a, b)).1
  = (releaseDependency a k assignment tid).1.
Proof. unfold releaseOne. by destruct (releaseDependency _ _ _ _). Qed.


Lemma releaseKey_fst tid k a b :
  (releaseKey tid (a, b) k).1
  = (releaseDependency a k (minimalFor k) tid).1.
Proof. apply releaseOne_fst. Qed.


Lemma tasksMap_foldl_release tid l st :
  tasksMap (foldl (releaseKey tid) st l).1 = tasksMap st.1.
Proof.
  revert st. induction l as [|x l IH]; intros [a b]; cbn [foldl]; [done|].
  rewrite IH, releaseKey_fst. apply tasksMap_releaseDependency.
Qed.

Lemma users_foldl_release tid l st k :
  users (foldl (releaseKey tid) st l).1 k
  = if decide (k ∈ l) then users st.1 k ∖ {[tid]} else users st.1 k.
Proof.
  revert st. induction l as [|x l IH]; intros [a b]; cbn [foldl].
  - rewrite decide_False by set_solver. done.
  - rewrite IH, releaseKey_fst, users_releaseDependency. simpl.
    destruct (decide (k ∈ l)), (decide (x = k)); subst.
    + rewrite decide_True by set_solver. set_solver.
    + rewrite decide_True by set_solver. done.
    + rewrite decide_True by set_solver. done.
    + rewrite decide_False by set_solver. done.
Qed.

(** A Remove is pending for [k] afterwards exactly when [k] was released
    and no other task was left using it. *)
Lemma changes_foldl_release tid l st k :
  changes (foldl (releaseKey tid) st l).1 !! k
  = if decide (k ∈ l ∧ users st.1 k ∖ {[tid]} = ∅)
    then Some (removeChange (minimalFor k))
    else changes st.1 !! k.
Proof.
  revert st. induction l as [|x l IH]; intros [a b]; cbn [foldl].
  - rewrite decide_False; [done|]. intros [Hk _]. by apply elem_of_nil in Hk.
  - rewrite IH, !releaseKey_fst, users_releaseDependency,
      changes_releaseDependency. simpl.
    assert (Hsame : (if decide (x = k) then users a k ∖ {[tid]}
                     else users a k) ∖ {[tid]} = users a k ∖ {[tid]}).
    { destruct (decide (x = k)); set_solver. }
    rewrite Hsame. clear Hsame.
    destruct (decide (k ∈ l ∧ users a k ∖ {[tid]} = ∅)) as [[Hl He]|Hn].
    { rewrite decide_True; [done|]. split; [set_solver|done]. }
    destruct (decide (x = k)) as [->|Hx].
    + destruct (decide (users a k ∖ {[tid]} = ∅)) as [He|Hne].
      * rewrite lookup_insert_eq.
        rewrite decide_True; [done|]. split; [set_solver|done].
      * rewrite decide_False; [done|]. tauto.
    + rewrite (decide_False (P:=k ∈ x :: l ∧ _)).
      * destruct (decide (users a x ∖ {[tid]} = ∅));
          [by rewrite lookup_insert_ne|done].
      * intros [Hk He]. apply Hn. split; [set_solver|done].
Qed.


(** The frame of releaseTaskDependencies. *)
Lemma tasksMap_releaseTaskDependencies a t :
  tasksMap (releaseTaskDependencies a t).1 = tasksMap a.
Proof. rewrite releaseTaskDependencies_keys. apply tasksMap_foldl_release. Qed.

Lemma users_releaseTaskDependencies a t k :
  users (releaseTaskDependencies a t).1 k
  = if decide (k ∈ releasedKeys t) then users a k ∖ {[Task_ID t]}
    else users a k.
Proof. rewrite releaseTaskDependencies_keys. apply users_foldl_release. Qed.

Lemma changes_releaseTaskDependencies a t k :
  changes (releaseTaskDependencies a t).1 !! k
  = if decide (k ∈ releasedKeys t ∧ users a k ∖ {[Task_ID t]} = ∅)
    then Some (removeChange (minimalFor k))
    else changes a !! k.
Proof. rewrite releaseTaskDependencies_keys. apply changes_foldl_release. Qed.


Lemma releasedKeys_dependency t k : k ∈ releasedKeys t → isDependency k.
Proof.
  unfold releasedKeys. rewrite elem_of_app. intros [Hk|Hk].
  - unfold declaredKeys in Hk.
    rewrite !elem_of_app, list_elem_of_filter in Hk.
    destruct Hk as [[Hk _]|[Hk|Hk]]; [done|..];
      apply list_elem_of_fmap in Hk as (r & -> & _); done.
  - apply list_elem_of_fmap in Hk as (r & -> & _). done.
Qed.

End release_dependencies.

Section store_names_examples.
Import Api Store Examples.

(** Scenario E2: after creating service "alpha", creating the peer group
    "ALPHA" fails with a name conflict. *)
Lemma PeerGroup_Service_shared_namespace_witness :
  CreatePeerGroup (H:=asciiStrings)
    (run (H:=asciiStrings) [OpCreateService S1])
    {| PG_ID := "P1";
       PG_Spec := {| PG_Annotations := named "ALPHA"; PG_Network := "net" |} |}
  = Err ErrNameConflict.
Proof.
  apply (proj1 (PeerGroup_Service_shared_namespace (H:=asciiStrings)
                  [OpCreateService S1])).
  right. exists "S1", S1. split; reflexivity.
Defined.

End store_names_examples.

Section peer_group.
Import Api Dispatcher.
Context `{lib : Lib}.

Implicit Types (a : assignmentSet) (t : Task) (service p : Service).

Local Notation "'nameOf' p" :=
  (Name (Service_Annotations (Service_Spec p))) (at level 10, p at level 9).

Lemma elem_of_FindServicesByPeerGroup readTx group p :
  p ∈ Store.FindServicesByPeerGroup readTx group
  ↔ (∃ sid, Store.tableService readTx !! sid = Some p)
    ∧ PeerGroup <$> GetStatic (Service_Spec p) = Some group.
Proof.
  unfold Store.FindServicesByPeerGroup.
  rewrite list_elem_of_filter, list_elem_of_fmap. split.
  - intros [Hg ([sid q] & -> & Hin)]. apply elem_of_map_to_list in Hin. eauto.
  - intros [[sid Hin] Hg]. split; [done|]. exists (sid, p).
    split; [done|]. by apply elem_of_map_to_list.
Qed.

Lemma firstAddress_attachment service address :
  firstAddress service = Some address →
  ∃ info attachment,
    Service_StaticInfo service = Some info
    ∧ Static_NetworkAttachment info = Some attachment.
Proof.
  unfold firstAddress. destruct (Service_StaticInfo service) as [info|]; [|done].
  simpl. destruct (Static_NetworkAttachment info) as [att|] eqn:E; [|done].
  intros _. eauto.
Qed.

(** The loop returns when every peer has an address. *)
Lemma collectPeers_Some service l acc :
  is_Some (firstAddress service) →
  (∀ p, p ∈ l → Service_ID p ≠ Service_ID service → is_Some (firstAddress p)) →
  is_Some (collectPeers service l acc).
Proof.
  intros [self Hself] Hl.
  destruct (firstAddress_attachment _ _ Hself) as (info & att & Hinfo & Hatt).
  revert acc. induction l as [|p l IH]; intros acc; simpl; [eauto|].
  case_bool_decide as Hid.
  - apply IH. intros q Hq. apply Hl. by right.
  - rewrite Hinfo. simpl. rewrite Hatt.
    destruct (Hl p) as [address Hp]; [by left|done|]. rewrite Hp. simpl.
    apply IH. intros q Hq. apply Hl. by right.
Qed.






End peer_group.

Section failed_materialization.
Import Api Dispatcher.
Context `{lib : Lib}.

Implicit Types (a : assignmentSet) (k : typeAndID) (t : Task).

(** With the addresses allocated, adding the dependencies returns. *)
Lemma maybeAddStaticServiceDependencies_Some readTx t a :
  addressesAllocated readTx t →
  is_Some (maybeAddStaticServiceDependencies readTx t a).
Proof.
  intros Halloc. unfold maybeAddStaticServiceDependencies.
  case_bool_decide as Hsid; [eauto|].
  destruct (Store.GetService _ _) as [service|] eqn:Hsvc; [|eauto].
  destruct (GetStatic _) as [static|] eqn:Hstatic; [|eauto].
  destruct (Halloc Hsid service static Hsvc Hstatic) as [[self Hself] Hpeers].
  destruct (collectPeers_Some service
              (Store.FindServicesByPeerGroup readTx (PeerGroup static)) ∅)
    as [peers Hc]; [eauto| |].
  { intros p Hp Hne. apply Hpeers. unfold peerOf.
    apply elem_of_FindServicesByPeerGroup in Hp. tauto. }
  rewrite Hc. simpl. rewrite Hself. simpl. eauto.
Qed.

Lemma addTaskDependencies_Some readTx t a :
  addressesAllocated readTx t →
  is_Some (addTaskDependencies readTx t a).
Proof.
  intros Halloc. unfold addTaskDependencies.
  by apply maybeAddStaticServiceDependencies_Some.
Qed.

(** *** The outcome does not depend on the object behind a key in use *)

Lemma secret_sameExcept k tx1 tx2 t i :
  sameExcept k tx1 tx2 →
  k ≠ {| objType := ResourceType_SECRET; id := i |} →
  secret tx1 t i = secret tx2 t i.
Proof.
  intros (_ & _ & Hs & _) Hk. unfold secret, Store.GetSecret.
  by rewrite (Hs i Hk).
Qed.

Lemma addKey_sameExcept k tx1 tx2 t a x :
  sameExcept k tx1 tx2 → isDependency x → users a k ≠ ∅ →
  addKey tx1 t a x = addKey tx2 t a x.
Proof.
  intros Hsame Hdep Hused. unfold addKey.
  destruct (unused a x) eqn:E; [|done]. apply unused_true in E.
  assert (k ≠ x) as Hne by (intros ->; done).
  destruct x as [i ty]. unfold isDependency in Hdep. simpl in *.
  destruct ty; [done| |].
  - unfold assignSecret. simpl.
    by rewrite (secret_sameExcept k tx1 tx2 t i Hsame Hne).
  - unfold assignConfig, Store.GetConfig. simpl.
    destruct Hsame as (_ & _ & _ & Hc). by rewrite (Hc i Hne).
Qed.

Lemma foldl_addKey_sameExcept k tx1 tx2 t l a :
  sameExcept k tx1 tx2 → (∀ x, x ∈ l → isDependency x) → users a k ≠ ∅ →
  foldl (addKey tx1 t) a l = foldl (addKey tx2 t) a l.
Proof.
  intros Hsame. revert a. induction l as [|x l IH]; intros a Hl Hused;
    cbn [foldl]; [done|].
  rewrite (addKey_sameExcept k tx1 tx2 t a x) by (auto; apply Hl; by left).
  apply IH; [intros y Hy; apply Hl; by right|].
  rewrite users_addKey. case_decide; set_solver.
Qed.

Lemma foldl_pointwise {A B} (f g : A → B → A) (l : list B) (acc : A) :
  (∀ y x, f y x = g y x) → foldl f acc l = foldl g acc l.
Proof.
  intros Hfg. revert acc. induction l as [|x l IH]; intros acc; simpl; [done|].
  by rewrite Hfg, IH.
Qed.

Lemma getTaskCertHosts_sameExcept k tx1 tx2 t :
  sameExcept k tx1 tx2 → getTaskCertHosts tx1 t = getTaskCertHosts tx2 t.
Proof.
  intros (Hsvc & _). unfold getTaskCertHosts, Store.GetService.
  by rewrite Hsvc.
Qed.

Lemma addCertIssuanceDependencies_sameExcept k tx1 tx2 t hosts a ci :
  sameExcept k tx1 tx2 →
  addCertIssuanceDependencies tx1 t hosts a ci
  = addCertIssuanceDependencies tx2 t hosts a ci.
Proof.
  intros (_ & Hca & _). unfold addCertIssuanceDependencies, Store.GetCA.
  by rewrite Hca.
Qed.

Lemma maybeAddStaticServiceDependencies_sameExcept k tx1 tx2 t a :
  sameExcept k tx1 tx2 →
  maybeAddStaticServiceDependencies tx1 t a
  = maybeAddStaticServiceDependencies tx2 t a.
Proof.
  intros (Hsvc & _).
  unfold maybeAddStaticServiceDependencies, Store.GetService,
    Store.FindServicesByPeerGroup.
  by rewrite Hsvc.
Qed.

Lemma addTaskDependencies_sameExcept k tx1 tx2 t a :
  sameExcept k tx1 tx2 → noTaskKeys a → users a k ≠ ∅ →
  addTaskDependencies tx1 t a = addTaskDependencies tx2 t a.
Proof.
  intros Hsame Ha Hused. unfold addTaskDependencies.
  change (match GetContainer (Task_Spec t) with
          | Some c => Secrets c | None => [] end) with (containerSecrets t).
  change (match GetContainer (Task_Spec t) with
          | Some c => Configs c | None => [] end) with (containerConfigs t).
  rewrite !declared_phase by done.
  rewrite (foldl_addKey_sameExcept k tx1 tx2 t (declaredKeys t) a Hsame
             (declaredKeys_dependency t) Hused).
  rewrite (getTaskCertHosts_sameExcept k tx1 tx2) by done.
  rewrite (maybeAddStaticServiceDependencies_sameExcept k tx1 tx2) by done.
  f_equal. destruct (GetContainer (Task_Spec t)); [|done].
  destruct (bool_decide _); [|done].
  apply foldl_pointwise. intros a0 ci.
  by apply (addCertIssuanceDependencies_sameExcept k).
Qed.

(** C10: a declared secret or config that cannot be materialized while
    the task's dependencies are added (it is missing from the store, or
    its driver fails) is still filed with the task's id, and no change is
    written for it.  While the dependency has a user, the outcome of any
    later addOrUpdateTask is the same whatever the store holds for that
    dependency, so it is not fetched again; and a call that adds a new
    task's dependencies leaves the pending change of the dependency as it
    was. *)
Theorem failed_dependency_stays_registered readTx a t k :
  noTaskKeys a →
  addressesAllocated readTx t →
  k ∈ declaredKeys t →
  users a k = ∅ →
  materialize readTx t k = None →
  (∃ a', addTaskDependencies readTx t a = Some a'
         ∧ Task_ID t ∈ users a' k
         ∧ changes a' !! k = changes a !! k)
  ∧ (∀ a1 t' tx1 tx2,
       noTaskKeys a1 → users a1 k ≠ ∅ → sameExcept k tx1 tx2 →
       addOrUpdateTask tx1 a1 t' = addOrUpdateTask tx2 a1 t')
  ∧ (∀ a1 t' tx a2 modified,
       noTaskKeys a1 → users a1 k ≠ ∅ →
       tasksMap a1 !! Task_ID t' = None →
       addOrUpdateTask tx a1 t' = Some (a2, modified) →
       changes a2 !! k = changes a1 !! k ∧ users a2 k ≠ ∅).
Proof.
  intros Ha Halloc Hk Hfree Hfail. split; [|split].
  - destruct (addTaskDependencies_Some readTx t a Halloc) as [a' Hadd].
    exists a'. split; [done|].
    pose proof (addTaskDependencies_registers _ _ _ _ _ Ha Hadd Hk) as Hreg.
    split; [done|].
    apply addTaskDependencies_phases in Hadd as (_ & _ & _ & _ & Hch); [|done].
    rewrite Hch.
    + by apply changes_foldl_addKey_failed.
    + left. rewrite users_foldl_addKey, decide_True by done. set_solver.
  - intros a1 t' tx1 tx2 Ha1 Hused Hsame. unfold addOrUpdateTask.
    by rewrite (addTaskDependencies_sameExcept k tx1 tx2).
  - intros a1 t' tx a2 modified Ha1 Hused Hnew. unfold addOrUpdateTask.
    rewrite Hnew.
    assert (Hkey : taskKey (Task_ID t') ≠ k).
    { intros <-. by apply declaredKeys_dependency in Hk. }
    destruct (state_lt _ _); [by intros [= <- <-]|].
    destruct (state_le _ _).
    + destruct (addTaskDependencies tx t' a1) as [a1'|] eqn:Hadd; [|done].
      simpl. intros [= <- <-]. simpl.
      apply addTaskDependencies_extends in Hadd
        as (_ & Hsub & _ & _ & Hch); [|done].
      rewrite lookup_insert_ne by done. split; [apply Hch; by left|].
      specialize (Hsub k). unfold users in *. simpl. set_solver.
    + intros [= <- <-]. simpl. by rewrite lookup_insert_ne.
Qed.

End failed_materialization.

Section add_or_update.
Import Api Dispatcher.
Context `{lib : Lib}.

Implicit Types (a : assignmentSet) (k : typeAndID) (t : Task).

(** *** What adding the dependencies of a task does *)




Lemma users_storeAndSend a t k : users (storeAndSend a t) k = users a k.
Proof. reflexivity. Qed.


End add_or_update.

Section dispatcher_examples.
Import Api Dispatcher Examples.

Lemma storeWith_lookup svcs sid p :
  Store.tableService (storeWith svcs) !! sid = Some p → p ∈ svcs.
Proof.
  unfold storeWith. simpl. intros Hin.
  apply elem_of_list_to_map_2, list_elem_of_fmap in Hin as (q & [= _ ->] & Hq).
  done.
Qed.




(** A task that uses the secret X, on a store without X: X is filed under
    the task and no change is pending for it. *)
Lemma failed_dependency_stays_registered_witness :
  ∃ a',
    addTaskDependencies (H:=exampleLib) Store.emptyTables
      (taskIn "T" "" usesX TaskStateAssigned []) newAssignmentSet = Some a'
    ∧ "T" ∈ users a' keyX
    ∧ changes a' !! keyX = None.
Proof.
  apply (failed_dependency_stays_registered (lib:=exampleLib)
           Store.emptyTables newAssignmentSet
           (taskIn "T" "" usesX TaskStateAssigned []) keyX).
  - intros k Hk. by destruct Hk.
  - intros Hsid. by destruct Hsid.
  - apply list_elem_of_In. simpl. auto.
  - reflexivity.
  - reflexivity.
Defined.

End dispatcher_examples.

Section reference_counting.
Import Api Dispatcher.
Context `{lib : Lib}.

Implicit Types (a : assignmentSet) (k : typeAndID) (t : Task).

Lemma state_above_not_le s :
  state_lt TaskStateRunning s = true → state_le s TaskStateRunning = false.
Proof.
  unfold state_lt, state_le. rewrite Z.ltb_lt, Z.leb_gt. done.
Qed.

Lemma sameReferences_declaredKeys t t' :
  sameReferences t t' → declaredKeys t = declaredKeys t'.
Proof.
  intros (_ & Hspec & _).
  unfold declaredKeys, containerSecrets, containerConfigs. by rewrite Hspec.
Qed.

Lemma sameReferences_releasedKeys t t' :
  sameReferences t t' → releasedKeys t = releasedKeys t'.
Proof.
  intros Hsame. unfold releasedKeys.
  rewrite (sameReferences_declaredKeys _ _ Hsame).
  destruct Hsame as (_ & _ & Hmc). by rewrite Hmc.
Qed.

Lemma declaredKeys_released t k : k ∈ declaredKeys t → k ∈ releasedKeys t.
Proof. unfold releasedKeys. rewrite elem_of_app. by left. Qed.

Lemma filedKeys_released readTx t k :
  listsSynthesized readTx t → k ∈ filedKeys readTx t → k ∈ releasedKeys t.
Proof.
  intros Hlists. unfold filedKeys, releasedKeys.
  rewrite !elem_of_app. intros [?|?]; [by left|right; by apply Hlists].
Qed.

Lemma filedKeys_dependency readTx t k :
  k ∈ filedKeys readTx t → isDependency k.
Proof.
  unfold filedKeys. rewrite elem_of_app.
  intros [?|?]; eauto using declaredKeys_dependency, synthesizedKeys_dependency.
Qed.

(** *** Additions write Updates only *)

Lemma onlyUpdates_refl a : onlyUpdates a a.
Proof. intros k c Hc. by left. Qed.

Lemma onlyUpdates_trans a1 a2 a3 :
  onlyUpdates a1 a2 → onlyUpdates a2 a3 → onlyUpdates a1 a3.
Proof.
  intros H12 H23 k c Hc. destruct (H23 k c Hc) as [Hc2|?]; [|by right].
  by apply H12.
Qed.

Lemma onlyUpdates_addKey readTx t a k : onlyUpdates a (addKey readTx t a k).
Proof.
  intros j c. rewrite changes_addKey. destruct (unused a k); [|by left].
  destruct (materialize readTx t k) as [u|] eqn:Hm; [|by left].
  intros Hj. apply lookup_insert_Some in Hj as [[<- <-]|[_ Hj]]; [|by left].
  right. unfold materialize in Hm.
  destruct (objType k);
    [destruct (Store.GetConfig _ _)|destruct (secret _ _ _)
    |destruct (Store.GetConfig _ _)]; by simplify_eq/=.
Qed.

Lemma onlyUpdates_addMaterialized a configID data tid :
  onlyUpdates a (addMaterialized a configID data tid).
Proof.
  intros j c. rewrite changes_addMaterialized.
  destruct (unused a _); [|by left].
  intros Hj. apply lookup_insert_Some in Hj as [[<- <-]|[_ Hj]]; [|by left].
  by right.
Qed.

Lemma onlyUpdates_foldl_addKey readTx t l a :
  onlyUpdates a (foldl (addKey readTx t) a l).
Proof.
  revert a. induction l as [|x l IH]; intros a; cbn [foldl].
  - apply onlyUpdates_refl.
  - eapply onlyUpdates_trans; [apply onlyUpdates_addKey|apply IH].
Qed.

Lemma onlyUpdates_addCertIssuanceDependencies readTx t hosts a certIssuance :
  onlyUpdates a (addCertIssuanceDependencies readTx t hosts a certIssuance).
Proof.
  unfold addCertIssuanceDependencies.
  destruct (Store.GetCA _ _); [|apply onlyUpdates_refl].
  destruct (issueCertificate _ _ _) as [[key cert]|]; [|apply onlyUpdates_refl].
  eapply onlyUpdates_trans; [|apply onlyUpdates_addMaterialized].
  eapply onlyUpdates_trans; apply onlyUpdates_addMaterialized.
Qed.

Lemma onlyUpdates_addTaskDependencies readTx t a a' :
  noTaskKeys a → addTaskDependencies readTx t a = Some a' → onlyUpdates a a'.
Proof.
  intros Ha. unfold addTaskDependencies.
  change (match GetContainer (Task_Spec t) with
          | Some c => Secrets c | None => [] end) with (containerSecrets t).
  change (match GetContainer (Task_Spec t) with
          | Some c => Configs c | None => [] end) with (containerConfigs t).
  rewrite declared_phase by done.
  set (a1 := foldl (addKey readTx t) a (declaredKeys t)).
  set (a2 := match GetContainer (Task_Spec t) with
             | Some c => _ | None => a1 end).
  assert (H12 : onlyUpdates a1 a2).
  { unfold a2. destruct (GetContainer (Task_Spec t)) as [c|];
      [|apply onlyUpdates_refl].
    destruct (bool_decide _); [|apply onlyUpdates_refl].
    generalize (getTaskCertHosts readTx t). intros hosts.
    generalize a1. induction (CertificateIssuances c) as [|ci l IH];
      intros a0; cbn [foldl]; [apply onlyUpdates_refl|].
    eapply onlyUpdates_trans;
      [apply onlyUpdates_addCertIssuanceDependencies|apply IH]. }
  intros Hpg.
  eapply onlyUpdates_trans; [apply onlyUpdates_foldl_addKey|].
  eapply onlyUpdates_trans; [exact H12|].
  revert Hpg. unfold maybeAddStaticServiceDependencies.
  destruct (bool_decide _); [intros [= <-]; apply onlyUpdates_refl|].
  destruct (Store.GetService _ _); [|intros [= <-]; apply onlyUpdates_refl].
  destruct (GetStatic _); [|intros [= <-]; apply onlyUpdates_refl].
  destruct (collectPeers _ _ _); [|done]. simpl.
  destruct (firstAddress _); [|done]. simpl.
  intros [= <-]. apply onlyUpdates_addMaterialized.
Qed.

End reference_counting.

Section consistency.
Import Api Dispatcher.
Context `{lib : Lib}.

Implicit Types (a : assignmentSet) (k : typeAndID) (t : Task).

Lemma consistent_new : consistent newAssignmentSet.
Proof.
  split; [|split; [|split]].
  - intros k Hk. by destruct Hk.
  - intros tid T HT. simpl in HT. by rewrite lookup_empty in HT.
  - intros k tid Htid. unfold users in Htid. simpl in Htid.
    rewrite lookup_empty in Htid. simpl in Htid. set_solver.
  - intros tid T k HT. simpl in HT. by rewrite lookup_empty in HT.
Qed.

(** Storing [t] under its id, the other tasks' entries being untouched. *)
Lemma consistent_put a a' t :
  consistent a → noTaskKeys a' →
  tasksMap a' = <[Task_ID t := t]> (tasksMap a) →
  (∀ k tid, tid ≠ Task_ID t → tid ∈ users a' k ↔ tid ∈ users a k) →
  (∀ k, state_le (State (Status t)) TaskStateRunning = true →
        k ∈ declaredKeys t → Task_ID t ∈ users a' k) →
  (∀ k, Task_ID t ∈ users a' k → k ∈ releasedKeys t) →
  consistent a'.
Proof.
  intros (_ & Hid & Hreg & Hheld) Hno Hmap Hothers Hown Hrefs.
  split; [done|]. split; [|split].
  - intros tid T. rewrite Hmap. intros HT.
    apply lookup_insert_Some in HT as [[<- <-]|[_ HT]]; eauto.
  - intros k tid Htid. rewrite Hmap.
    destruct (decide (tid = Task_ID t)) as [->|Hne].
    + exists t. rewrite lookup_insert_eq. eauto.
    + apply Hothers in Htid; [|done].
      destruct (Hreg _ _ Htid) as (T & HT & Hk).
      exists T. by rewrite lookup_insert_ne.
  - intros tid T k. rewrite Hmap. intros HT Hstate Hk.
    apply lookup_insert_Some in HT as [[<- <-]|[Hne HT]]; [by apply Hown|].
    apply Hothers; [done|]. by eapply Hheld.
Qed.

(** Dropping the task stored under the id of [t], which is left filed
    nowhere. *)
Lemma consistent_drop a a' t :
  consistent a → noTaskKeys a' →
  tasksMap a' = delete (Task_ID t) (tasksMap a) →
  (∀ k tid, tid ≠ Task_ID t → tid ∈ users a' k ↔ tid ∈ users a k) →
  (∀ k, Task_ID t ∉ users a' k) →
  consistent a'.
Proof.
  intros (_ & Hid & Hreg & Hheld) Hno Hmap Hothers Hgone.
  split; [done|]. split; [|split].
  - intros tid T. rewrite Hmap. intros HT.
    apply lookup_delete_Some in HT as [_ HT]. eauto.
  - intros k tid Htid. rewrite Hmap.
    destruct (decide (tid = Task_ID t)) as [->|Hne]; [by destruct (Hgone k)|].
    apply Hothers in Htid; [|done].
    destruct (Hreg _ _ Htid) as (T & HT & Hk).
    exists T. by rewrite lookup_delete_ne.
  - intros tid T k. rewrite Hmap. intros HT Hstate Hk.
    apply lookup_delete_Some in HT as [Hne HT].
    apply Hothers; [done|]. by eapply Hheld.
Qed.

Lemma users_released_others a t k tid :
  tid ≠ Task_ID t →
  tid ∈ (if decide (k ∈ releasedKeys t) then users a k ∖ {[Task_ID t]}
         else users a k)
  ↔ tid ∈ users a k.
Proof. intros Hne. destruct (decide (k ∈ releasedKeys t)); set_solver. Qed.

Lemma noTaskKeys_released a a' t :
  noTaskKeys a →
  (∀ k, users a' k
        = if decide (k ∈ releasedKeys t) then users a k ∖ {[Task_ID t]}
          else users a k) →
  noTaskKeys a'.
Proof.
  intros Ha Hu k Hk. apply Ha. rewrite Hu in Hk.
  destruct (decide (k ∈ releasedKeys t)); set_solver.
Qed.

(** removeTask on a stored task. *)
Lemma removeTask_stored a t old :
  tasksMap a !! Task_ID t = Some old →
  tasksMap (removeTask a t).1 = delete (Task_ID t) (tasksMap a)
  ∧ (∀ k, users (removeTask a t).1 k
          = if decide (k ∈ releasedKeys t) then users a k ∖ {[Task_ID t]}
            else users a k)
  ∧ (∀ k, isDependency k →
          changes (removeTask a t).1 !! k
          = if decide (k ∈ releasedKeys t ∧ users a k ∖ {[Task_ID t]} = ∅)
            then Some (removeChange (minimalFor k))
            else changes a !! k).
Proof.
  intros Hold. unfold removeTask. rewrite Hold. cbn [fst].
  split; [|split].
  - by rewrite tasksMap_releaseTaskDependencies.
  - intros k. by rewrite users_releaseTaskDependencies.
  - intros k Hk. rewrite changes_releaseTaskDependencies.
    change (users (set_tasksMap _ _) k) with (users a k).
    destruct (decide _); [done|]. simpl.
    rewrite lookup_insert_ne; [done|]. intros <-. by destruct Hk.
Qed.

(** Every regular call keeps the reverse index consistent. *)
Lemma consistent_call a c a' :
  consistent a → regular a c → call a c = Some a' → consistent a'.
Proof.
  intros Hcons Hreg Hcall. pose proof Hcons as (Hno & Hid & Hfiled & Hheld).
  destruct c as [readTx t|t]; simpl in Hcall.
  - destruct Hreg as [Hlists Hold].
    unfold addOrUpdateTask in Hcall.
    destruct (state_lt (State (Status t)) TaskStateAssigned);
      [by simplify_eq/=|].
    destruct (tasksMap a !! Task_ID t) as [old|] eqn:Hstored.
    + destruct (Hold old eq_refl) as [Hsame Hmono].
      assert (Hown : ∀ k, Task_ID t ∈ users a k → k ∈ releasedKeys t).
      { intros k Hk. destruct (Hfiled _ _ Hk) as (T & HT & HkT).
        rewrite Hstored in HT. simplify_eq.
        by rewrite <- (sameReferences_releasedKeys _ _ Hsame). }
      assert (Hkept : ∀ k, state_le (State (Status t)) TaskStateRunning = true →
                           k ∈ declaredKeys t → Task_ID t ∈ users a k).
      { intros k Hstate Hk. eapply Hheld; [exact Hstored|by apply Hmono|].
        by rewrite (sameReferences_declaredKeys _ _ Hsame). }
      destruct (TasksEqualStable old t
                && state_lt TaskStateAssigned (State (Status t))).
      * destruct (state_lt TaskStateRunning (State (Status t))) eqn:Habove.
        -- simplify_eq/=.
           set (a1 := set_tasksMap a (<[Task_ID t := t]> (tasksMap a))).
           assert (Hu : ∀ k, users (releaseTaskDependencies a1 t).1 k
                     = if decide (k ∈ releasedKeys t)
                       then users a k ∖ {[Task_ID t]} else users a k).
           { intros k. by rewrite users_releaseTaskDependencies. }
           apply (consistent_put a _ t); [done|..].
           ++ by eapply noTaskKeys_released.
           ++ by rewrite tasksMap_releaseTaskDependencies.
           ++ intros k tid Hne. rewrite Hu. by apply users_released_others.
           ++ intros k Hstate. by rewrite (state_above_not_le _ Habove) in Hstate.
           ++ intros k. rewrite Hu. intros Hk. apply Hown.
              destruct (decide (k ∈ releasedKeys t)); set_solver.
        -- simplify_eq/=. by apply (consistent_put a _ t).
      * simplify_eq/=. by apply (consistent_put a _ t).
    + assert (Hnone : ∀ k, Task_ID t ∉ users a k).
      { intros k Hk. destruct (Hfiled _ _ Hk) as (T & HT & _). congruence. }
      destruct (state_le (State (Status t)) TaskStateRunning) eqn:Hstate.
      * destruct (addTaskDependencies readTx t a) as [a1|] eqn:Hadd;
          [|done]. simplify_eq/=.
        pose proof (addTaskDependencies_extends _ _ _ _ Hno Hadd)
          as (Hmap & Hsub & Hsup & Hout & _).
        apply (consistent_put a _ t); [done|..].
        -- eapply (noTaskKeys_extends _ _ a a1);
             [apply (filedKeys_dependency readTx)|done|].
           by eapply addTaskDependencies_extends.
        -- simpl. by rewrite Hmap.
        -- intros k tid Hne. change (tid ∈ users a1 k ↔ tid ∈ users a k).
           specialize (Hsub k). specialize (Hsup k). set_solver.
        -- intros k _ Hk. change (Task_ID t ∈ users a1 k).
           by eapply addTaskDependencies_registers.
        -- intros k Hk. change (Task_ID t ∈ users a1 k) in Hk.
           destruct (decide (k ∈ filedKeys readTx t));
             [by eapply filedKeys_released|].
           rewrite Hout in Hk by done. by destruct (Hnone k).
      * simplify_eq/=. apply (consistent_put a _ t); try done.
        -- intros k Hle. by rewrite Hstate in Hle.
        -- intros k Hk. by destruct (Hnone k).
  - rename Hreg into Hold. simplify_eq/=.
    destruct (tasksMap a !! Task_ID t) as [old|] eqn:Hstored.
    + destruct (removeTask_stored a t old Hstored) as (Hmap & Hu & _).
      apply (consistent_drop a _ t); [done|..].
      * by eapply noTaskKeys_released.
      * done.
      * intros k tid Hne. rewrite Hu. by apply users_released_others.
      * intros k. rewrite Hu. intros Hk.
        destruct (decide (k ∈ releasedKeys t)) as [|Hout]; [set_solver|].
        destruct (Hfiled _ _ Hk) as (T & HT & HkT).
        rewrite Hstored in HT. simplify_eq.
        pose proof (Hold T eq_refl) as Hsame.
        rewrite (sameReferences_releasedKeys _ _ Hsame) in HkT.
        by apply Hout.
    + unfold removeTask. by rewrite Hstored.
Qed.

Lemma Reached_consistent a : Reached a → consistent a.
Proof.
  induction 1 as [|a c a' _ IH Hreg Hcall]; [apply consistent_new|].
  by eapply consistent_call.
Qed.

End consistency.

Section remove_changes.
Import Api Dispatcher.
Context `{lib : Lib}.

Implicit Types (a : assignmentSet) (k : typeAndID) (t : Task).

Lemma adding_refl a : adding a a.
Proof. split; [done|]. intros k c _ Hc. by left. Qed.

Lemma adding_set_tasksMap a m : adding a (set_tasksMap a m).
Proof. split; [done|]. intros k c _ Hc. by left. Qed.

Lemma adding_storeAndSend a a1 t :
  adding a a1 → adding a (storeAndSend a1 t).
Proof.
  intros [Hsub Hch]. split; [exact Hsub|].
  intros k c Hk. simpl. rewrite lookup_insert_ne; [by apply Hch|].
  intros <-. by destruct Hk.
Qed.

Lemma call_shape a c a' :
  noTaskKeys a → call a c = Some a' →
  noTaskKeys a' ∧ ((∃ t, releasing a a' t) ∨ adding a a').
Proof.
  intros Hno Hcall. destruct c as [readTx t|t]; simpl in Hcall.
  - unfold addOrUpdateTask in Hcall.
    destruct (state_lt (State (Status t)) TaskStateAssigned).
    { simplify_eq/=. split; [done|]. right. apply adding_refl. }
    destruct (tasksMap a !! Task_ID t) as [old|] eqn:Hstored.
    + destruct (TasksEqualStable old t
                && state_lt TaskStateAssigned (State (Status t))).
      * destruct (state_lt TaskStateRunning (State (Status t))).
        -- simplify_eq/=.
           set (a1 := set_tasksMap a (<[Task_ID t := t]> (tasksMap a))).
           assert (Hrel : releasing a (releaseTaskDependencies a1 t).1 t).
           { split.
             - intros k. by rewrite users_releaseTaskDependencies.
             - intros k _. by rewrite changes_releaseTaskDependencies. }
           split; [eapply noTaskKeys_released; [done|apply Hrel]|].
           left. by exists t.
        -- simplify_eq/=. split; [done|]. right. apply adding_set_tasksMap.
      * simplify_eq/=. split; [done|]. right.
        apply (adding_storeAndSend a a t), adding_refl.
    + destruct (state_le (State (Status t)) TaskStateRunning).
      * destruct (addTaskDependencies readTx t a) as [a1|] eqn:Hadd; [|done].
        simplify_eq/=.
        pose proof (addTaskDependencies_extends _ _ _ _ Hno Hadd) as Hext.
        split.
        { eapply (noTaskKeys_extends _ _ a a1);
            [apply (filedKeys_dependency readTx)|done|done]. }
        right. apply (adding_storeAndSend a a1 t). split.
        -- by destruct Hext as (_ & Hsub & _).
        -- intros k c _.
           apply (onlyUpdates_addTaskDependencies _ _ _ _ Hno Hadd).
      * simplify_eq/=. split; [done|]. right.
        apply (adding_storeAndSend a a t), adding_refl.
  - simplify_eq/=. destruct (tasksMap a !! Task_ID t) as [old|] eqn:Hstored.
    + destruct (removeTask_stored a t old Hstored) as (_ & Hu & Hch).
      split; [by eapply noTaskKeys_released|]. left. by exists t.
    + unfold removeTask. rewrite Hstored. split; [done|]. right.
      apply adding_refl.
Qed.

(** C1 (amended): after any sequence of addOrUpdateTask and removeTask
    calls in which a task keeps its references, lists its synthesized
    files, and is not brought back from above Running while stored,
    - a dependency that no stored task references has no user;
    - a dependency without users is declared by no stored task that is at
      most Running (a stored task above Running may be filed or not);
    - a call that takes the users of a dependency from non-empty to empty
      leaves one Remove pending for it, and a call that leaves it with
      users writes no Remove for it;
    - removing one of two stored tasks that share a dependency, the other
      being at most Running, leaves the dependency's pending change
      untouched; removing the only stored task that references a
      dependency leaves a Remove pending for it. *)
Theorem dependency_reference_counting a :
  Reached a →
  (∀ k, (∀ tid T, tasksMap a !! tid = Some T → k ∉ releasedKeys T) →
        users a k = ∅)
  ∧ (∀ k tid T, users a k = ∅ → tasksMap a !! tid = Some T →
        state_le (State (Status T)) TaskStateRunning = true →
        k ∉ declaredKeys T)
  ∧ (∀ c a' k, call a c = Some a' → users a k ≠ ∅ → users a' k = ∅ →
        changes a' !! k = Some (removeChange (minimalFor k)))
  ∧ (∀ c a' k ch, call a c = Some a' → users a' k ≠ ∅ →
        changes a' !! k = Some ch → Action ch = AssignmentActionRemove →
        changes a !! k = Some ch)
  ∧ (∀ T T' k,
        tasksMap a !! Task_ID T = Some T →
        tasksMap a !! Task_ID T' = Some T' → Task_ID T ≠ Task_ID T' →
        state_le (State (Status T')) TaskStateRunning = true →
        k ∈ declaredKeys T' →
        changes (removeTask a T).1 !! k = changes a !! k
        ∧ users (removeTask a T).1 k ≠ ∅)
  ∧ (∀ T k,
        tasksMap a !! Task_ID T = Some T → k ∈ declaredKeys T →
        (∀ tid T', tasksMap a !! tid = Some T' → tid ≠ Task_ID T →
                   k ∉ releasedKeys T') →
        changes (removeTask a T).1 !! k = Some (removeChange (minimalFor k))
        ∧ users (removeTask a T).1 k = ∅).
Proof.
  intros Hreached.
  pose proof (Reached_consistent a Hreached) as (Hno & Hid & Hfiled & Hheld).
  split; [|split; [|split; [|split; [|split]]]].
  - intros k Hnone. apply elem_of_equiv_empty_L. intros tid Htid.
    destruct (Hfiled _ _ Htid) as (T & HT & Hk). by apply (Hnone tid T).
  - intros k tid T Hempty HT Hstate Hk.
    pose proof (Hheld _ _ _ HT Hstate Hk) as Hin. set_solver.
  - intros c a' k Hcall Hused Hempty.
    destruct (call_shape a c a' Hno Hcall) as [_ [[t [Hu Hch]]|[Hsub _]]].
    + rewrite Hu in Hempty.
      destruct (decide (k ∈ releasedKeys t)) as [Hk|]; [|done].
      rewrite Hch by by eapply releasedKeys_dependency.
      by rewrite decide_True.
    + specialize (Hsub k). set_solver.
  - intros c a' k ch Hcall Hused Hpending Hremove.
    destruct (call_shape a c a' Hno Hcall) as [Hno' [[t [Hu Hch]]|[_ Hch]]].
    + rewrite Hch in Hpending by by apply Hno'.
      rewrite Hu in Hused.
      destruct (decide (k ∈ releasedKeys t)) as [Hk|Hk].
      * rewrite decide_False in Hpending; [done|]. tauto.
      * rewrite decide_False in Hpending; [done|]. tauto.
    + destruct (Hch k ch) as [?|Hupd]; [by apply Hno'|done|done|].
      congruence.
  - intros T T' k HT HT' Hne Hstate Hk.
    destruct (removeTask_stored a T T HT) as (_ & Hu & Hch).
    pose proof (Hheld _ _ _ HT' Hstate Hk) as Hin.
    assert (Hleft : users a k ∖ {[Task_ID T]} ≠ ∅) by set_solver.
    split.
    + rewrite Hch by by eapply declaredKeys_dependency.
      rewrite decide_False; [done|]. tauto.
    + rewrite Hu. destruct (decide (k ∈ releasedKeys T)); set_solver.
  - intros T k HT Hk Honly.
    destruct (removeTask_stored a T T HT) as (_ & Hu & Hch).
    assert (Hrel : k ∈ releasedKeys T) by by apply declaredKeys_released.
    assert (Hlast : users a k ∖ {[Task_ID T]} = ∅).
    { apply elem_of_equiv_empty_L. intros tid Htid.
      apply elem_of_difference in Htid as [Htid Hne].
      destruct (Hfiled _ _ Htid) as (T' & HT' & Hk').
      apply (Honly tid T' HT'); [set_solver|done]. }
    split.
    + rewrite Hch by by eapply declaredKeys_dependency.
      by rewrite decide_True.
    + rewrite Hu. by rewrite decide_True.
Qed.

End remove_changes.

Section reference_counting_examples.
Import Api Dispatcher Examples.

Lemma Reached_afterBoth : Reached (H:=exampleLib) afterBoth.
Proof.
  apply (Reached_call afterT (CallAddOrUpdate storeX taskT')).
  - apply (Reached_call newAssignmentSet (CallAddOrUpdate storeX taskT)).
    + apply Reached_new.
    + split.
      * intros k Hk. by apply elem_of_nil in Hk.
      * intros old Hold. vm_compute in Hold. discriminate.
    + reflexivity.
  - split.
    + intros k Hk. by apply elem_of_nil in Hk.
    + intros old Hold. vm_compute in Hold. discriminate.
  - reflexivity.
Defined.

(** Scenario E4 through the theorem: with T and T' both filed under X,
    removing T leaves the pending change of X untouched and X in use. *)
Lemma dependency_reference_counting_witness :
  changes (removeTask afterBoth taskT).1 !! keyX = changes afterBoth !! keyX
  ∧ users (removeTask afterBoth taskT).1 keyX ≠ ∅.
Proof.
  apply (proj1 (proj2 (proj2 (proj2 (proj2
           (dependency_reference_counting (lib:=exampleLib) afterBoth
              Reached_afterBoth))))) taskT taskT' keyX).
  - reflexivity.
  - reflexivity.
  - done.
  - reflexivity.
  - apply list_elem_of_In. simpl. auto.
Defined.

(** Scenario E4 by evaluation: one Update for X is pending after the two
    additions; removing T writes nothing for X; removing T' then writes
    the Remove for X. *)
Example E4_reference_count :
  let update := {| Change_Assignment := Assignment_Secret secretX;
                   Action := AssignmentActionUpdate |} in
  let a1 := (removeTask afterBoth taskT).1 in
  let a2 := (removeTask a1 taskT').1 in
  changes afterT !! keyX = Some update
  ∧ changes afterBoth !! keyX = Some update
  ∧ users afterBoth keyX = {[ "T"; "T'" ]}
  ∧ changes a1 !! keyX = Some update
  ∧ users a1 keyX = {[ "T'" ]}
  ∧ changes a2 !! keyX = Some (removeChange (minimalSecret "X"))
  ∧ users a2 keyX = ∅.
Proof. repeat split; by vm_compute. Qed.

(** C1, as stated, fails for a task first admitted above Running: it is
    stored and it references X, yet X has no user; and removing it writes
    a Remove for X although the users of X were empty before and after. *)
Lemma terminal_task_not_filed_counterexample :
  ∃ a1,
    addOrUpdateTask (H:=exampleLib) storeX newAssignmentSet taskDone
    = Some (a1, true)
    ∧ tasksMap a1 !! "T" = Some taskDone
    ∧ keyX ∈ declaredKeys taskDone
    ∧ users a1 keyX = ∅
    ∧ changes a1 !! keyX = None
    ∧ users (removeTask a1 taskDone).1 keyX = ∅
    ∧ changes (removeTask a1 taskDone).1 !! keyX
      = Some (removeChange (minimalSecret "X")).
Proof.
  eexists. split; [reflexivity|].
  split; [reflexivity|].
  split; [apply list_elem_of_In; simpl; auto|].
  repeat split; by vm_compute.
Qed.

End reference_counting_examples.

(** * Further properties of the code *)

(** ** manager/orchestrator/task.go: IsTaskDirty, Less and the references
       of a new task *)

Section task_go_dirty.
Import Api Orchestrator.
Context `{TaskLib}.

Lemma IsTaskDirty_unfold s t n :
  IsTaskDirty s t n
  = if sameSpecVersion s t then Some false
    else
      placementOnly ←
        (if IsTaskDirtyPlacementConstraintsOnly (Service_Task (Service_Spec s)) t
         then nodeMatches s n else Some false);
      if (placementOnly : bool) then Some false
      else
        let serviceTaskSpec :=
          match GetContainer (Service_Task (Service_Spec s)),
                GetContainer (Task_Spec t) with
          | Some sc, Some tc =>
            if ignorePullOpts t
            then TaskSpec_set_Runtime (Service_Task (Service_Spec s))
                   (Runtime_Container
                      (ContainerSpec_set_PullOptions sc
                         (Container_PullOptions tc)))
            else Service_Task (Service_Spec s)
          | _, _ => Service_Task (Service_Spec s)
          end in
        Some (negb (bool_decide (serviceTaskSpec = Task_Spec t))
              || match Task_Endpoint t with
                 | Some e =>
                   negb (bool_decide
                           (Service_Endpoint (Service_Spec s) = Endpoint_Spec e))
                 | None => false
                 end).
Proof. reflexivity. Qed.

Lemma NewTask_Endpoint taskID now c s slot node :
  Task_Endpoint (NewTask taskID now c s slot node)
  = Some {| Endpoint_Spec := Service_Endpoint (Service_Spec s);
            VirtualIPs := [] |}.
Proof.
  unfold NewTask. cbv zeta.
  destruct (bool_decide (node ≠ "")); destruct (Service_StaticInfo s);
    reflexivity.
Qed.

(** X1: a task that [NewTask] has just made from a service is not dirty
    with respect to that service, whatever the node is. *)
Theorem NewTask_not_dirty taskID now c s slot node n :
  IsTaskDirty s (NewTask taskID now c s slot node) n = Some false.
Proof.
  rewrite IsTaskDirty_unfold.
  destruct (sameSpecVersion _ _); [done|].
  destruct (NewTask_basic taskID now c s slot node)
    as (_ & _ & _ & _ & _ & Hstate & Hspec).
  pose proof (NewTask_Endpoint taskID now c s slot node) as Hend.
  set (t := NewTask taskID now c s slot node) in *.
  unfold IsTaskDirtyPlacementConstraintsOnly. rewrite Hspec.
  rewrite (bool_decide_eq_true_2 (Spec_Placement _ = Spec_Placement _))
    by done.
  cbn [mbind option_bind].
  unfold ignorePullOpts. rewrite Hstate, Hend.
  replace (state_le TaskStateReady TaskStateNew) with false by reflexivity.
  rewrite andb_false_r. cbn [andb].
  destruct (GetContainer (Service_Task (Service_Spec s))); cbv zeta;
    cbn [Endpoint_Spec]; by rewrite !bool_decide_eq_true_2.
Qed.

(** The spec the comparison uses keeps the service's placement. *)
Lemma compared_spec_Placement (spec : TaskSpec) (t : Task) :
  Spec_Placement
    match GetContainer spec, GetContainer (Task_Spec t) with
    | Some sc, Some tc =>
      if ignorePullOpts t
      then TaskSpec_set_Runtime spec
             (Runtime_Container
                (ContainerSpec_set_PullOptions sc (Container_PullOptions tc)))
      else spec
    | _, _ => spec
    end
  = Spec_Placement spec.
Proof.
  destruct (GetContainer spec), (GetContainer (Task_Spec t));
    try destruct (ignorePullOpts t); reflexivity.
Qed.

Lemma placementOnly_differs (spec : TaskSpec) t :
  IsTaskDirtyPlacementConstraintsOnly spec t = true →
  Spec_Placement spec ≠ Spec_Placement (Task_Spec t).
Proof.
  unfold IsTaskDirtyPlacementConstraintsOnly.
  by case_bool_decide.
Qed.

(** X2: when the service's task spec and the task's spec differ in their
    placement only, and the versions do not settle the question, the task
    is dirty exactly when the node is unknown or fails the service's
    constraints. *)
Theorem IsTaskDirty_placement_only s t n placement :
  sameSpecVersion s t = false →
  IsTaskDirtyPlacementConstraintsOnly (Service_Task (Service_Spec s)) t = true →
  Spec_Placement (Service_Task (Service_Spec s)) = Some placement →
  IsTaskDirty s t n
  = Some match n with
         | None => true
         | Some node =>
           negb (constraint_NodeMatches
                   (default [] (constraint_Parse (Constraints placement))) node)
         end.
Proof.
  intros Hv Hp Hpl. rewrite IsTaskDirty_unfold, Hv, Hp.
  pose proof (placementOnly_differs _ _ Hp) as Hne.
  assert (Hdirty :
    ∀ b, Some (negb (bool_decide
                 (match GetContainer (Service_Task (Service_Spec s)),
                        GetContainer (Task_Spec t) with
                  | Some sc, Some tc =>
                    if ignorePullOpts t
                    then TaskSpec_set_Runtime (Service_Task (Service_Spec s))
                           (Runtime_Container
                              (ContainerSpec_set_PullOptions sc
                                 (Container_PullOptions tc)))
                    else Service_Task (Service_Spec s)
                  | _, _ => Service_Task (Service_Spec s)
                  end = Task_Spec t)) || b) = Some true).
  { intros b. rewrite bool_decide_eq_false_2; [done|].
    intros Heq. apply Hne. rewrite <- Heq.
    symmetry. apply compared_spec_Placement. }
  unfold nodeMatches. destruct n as [node|]; cbn [mbind option_bind].
  - rewrite Hpl. cbn [mbind option_bind].
    destruct (constraint_NodeMatches _ node); [done|].
    cbv zeta. apply Hdirty.
  - cbv zeta. apply Hdirty.
Qed.

(** X3: [IsTaskDirty] panics exactly when the versions do not settle the
    question, the specs differ in their placement only, the node is
    known, and the service's task spec has no placement at all. *)
Theorem IsTaskDirty_panics_iff s t n :
  IsTaskDirty s t n = None
  ↔ sameSpecVersion s t = false
    ∧ IsTaskDirtyPlacementConstraintsOnly (Service_Task (Service_Spec s)) t = true
    ∧ is_Some n
    ∧ Spec_Placement (Service_Task (Service_Spec s)) = None.
Proof.
  rewrite IsTaskDirty_unfold.
  destruct (sameSpecVersion s t).
  { split; [done|]. by intros (? & _). }
  destruct (IsTaskDirtyPlacementConstraintsOnly _ t).
  2:{ cbn [mbind option_bind]. split; [done|]. by intros (_ & ? & _). }
  unfold nodeMatches. destruct n as [node|].
  2:{ cbn [mbind option_bind]. split; [done|].
      intros (_ & _ & Hn & _). by destruct Hn. }
  destruct (Spec_Placement (Service_Task (Service_Spec s))) as [placement|].
  - cbn [mbind option_bind].
    destruct (constraint_NodeMatches _ node);
      (split; [done|]; by intros (_ & _ & _ & ?)).
  - cbn [mbind option_bind]. split; [|done]. intros _. eauto.
Qed.

(** X4: when the task's spec is the service's task spec but for the
    container's pull options, and the endpoint specs agree, the task is
    dirty exactly when the pull options differ and the task is not in the
    window (desired state at most Running, state from Ready to Running)
    in which they are left out of the comparison. *)
Theorem IsTaskDirty_pull_options s t n sc p :
  sameSpecVersion s t = false →
  Spec_Runtime (Service_Task (Service_Spec s)) = Runtime_Container sc →
  Task_Spec t
  = TaskSpec_set_Runtime (Service_Task (Service_Spec s))
      (Runtime_Container (ContainerSpec_set_PullOptions sc p)) →
  (∀ e, Task_Endpoint t = Some e →
        Endpoint_Spec e = Service_Endpoint (Service_Spec s)) →
  IsTaskDirty s t n
  = Some (bool_decide (p ≠ Container_PullOptions sc)
          && negb (ignorePullOpts t)).
Proof.
  intros Hv Hsc Hspec Hend. rewrite IsTaskDirty_unfold, Hv.
  assert (Hgs : GetContainer (Service_Task (Service_Spec s)) = Some sc)
    by (unfold GetContainer; by rewrite Hsc).
  assert (Hgt : GetContainer (Task_Spec t)
                = Some (ContainerSpec_set_PullOptions sc p))
    by (by rewrite Hspec).
  rewrite Hgs, Hgt.
  unfold IsTaskDirtyPlacementConstraintsOnly. rewrite Hspec.
  rewrite (bool_decide_eq_true_2 (Spec_Placement _ = Spec_Placement _))
    by reflexivity.
  cbn [mbind option_bind]. cbv zeta.
  cbn [Container_PullOptions ContainerSpec_set_PullOptions].
  assert (Hendb :
    match Task_Endpoint t with
    | Some e =>
      negb (bool_decide (Service_Endpoint (Service_Spec s) = Endpoint_Spec e))
    | None => false
    end = false).
  { destruct (Task_Endpoint t) as [e|] eqn:He; [|done].
    by rewrite (Hend e), bool_decide_eq_true_2. }
  rewrite Hendb, orb_false_r.
  destruct (ignorePullOpts t).
  - rewrite bool_decide_eq_true_2 by reflexivity.
    by rewrite andb_false_r.
  - cbn [negb]. rewrite andb_true_r. f_equal.
    destruct (decide (p = Container_PullOptions sc)) as [->|Hne].
    + rewrite (bool_decide_eq_false_2 (_ ≠ _)) by tauto.
      rewrite bool_decide_eq_true_2; [done|].
      destruct (Service_Task (Service_Spec s)) as [r ? ? ? ? ?].
      cbn in Hsc. subst r. unfold TaskSpec_set_Runtime. cbn.
      by destruct sc.
    + rewrite (bool_decide_eq_true_2 (_ ≠ _)) by done.
      rewrite bool_decide_eq_false_2; [done|].
      intros Heq. apply Hne.
      apply (f_equal Spec_Runtime) in Heq. cbn in Heq.
      rewrite Hsc in Heq. injection Heq as Heq.
      rewrite Heq. reflexivity.
Qed.

(** X5: [Less] on a right operand that has no AppliedAt orders the two
    tasks by their effective timestamps; on a right operand that has one,
    its answer does not depend on the left task at all. *)
Theorem Less_right_operand ts i j tj :
  ts !! j = Some tj →
  is_Some (ts !! i) →
  (AppliedAt (Status tj) = None → Less ts i j = Less_spec ts i j)
  ∧ (is_Some (AppliedAt (Status tj)) → i ≠ j →
     ∀ ti', Less (<[i := ti']> ts) i j = Less ts i j).
Proof.
  intros Hj [ti Hi]. split.
  - intros Hnone. unfold Less, Less_spec, effectiveTimestamp.
    rewrite Hi, Hj. cbn [mbind option_bind]. rewrite Hnone. reflexivity.
  - intros [a Ha] Hne ti'. unfold Less.
    rewrite list_lookup_insert_eq by (by apply lookup_lt_Some in Hi).
    rewrite list_lookup_insert_ne by done.
    rewrite Hi, Hj. cbn [mbind option_bind]. rewrite Ha. reflexivity.
Qed.

End task_go_dirty.

Section task_go_dirty_examples.
Import Api Orchestrator Examples.

Lemma IsTaskDirty_placement_only_witness :
  IsTaskDirty (H:=exampleTaskLib) Splaced taskPlaced (Some nodeN1)
  = Some false.
Proof.
  apply (IsTaskDirty_placement_only (H:=exampleTaskLib) Splaced taskPlaced
           (Some nodeN1) {| Constraints := ["node.labels.zone==b"] |});
    reflexivity.
Defined.

Lemma IsTaskDirty_pull_options_witness :
  IsTaskDirty (H:=exampleTaskLib) Spull (taskPull TaskStateRunning) None
  = Some false
  ∧ IsTaskDirty (H:=exampleTaskLib) Spull (taskPull TaskStateCompleted) None
    = Some true.
Proof.
  split.
  - apply (IsTaskDirty_pull_options (H:=exampleTaskLib) Spull
             (taskPull TaskStateRunning) None
             (ContainerSpec_set_PullOptions (plainContainer "img")
                (Some {| RegistryAuth := "new" |}))
             (Some {| RegistryAuth := "old" |}));
      [reflexivity | reflexivity | reflexivity | by intros e].
  - apply (IsTaskDirty_pull_options (H:=exampleTaskLib) Spull
             (taskPull TaskStateCompleted) None
             (ContainerSpec_set_PullOptions (plainContainer "img")
                (Some {| RegistryAuth := "new" |}))
             (Some {| RegistryAuth := "old" |}));
      [reflexivity | reflexivity | reflexivity | by intros e].
Defined.

Lemma Less_right_operand_witness :
  Less [ stamped "A" (Some {| Seconds := 5; Nanos := 0 |}) None;
         stamped "B" (Some {| Seconds := 1; Nanos := 0 |}) None ] 0 1
  = Less_spec [ stamped "A" (Some {| Seconds := 5; Nanos := 0 |}) None;
                stamped "B" (Some {| Seconds := 1; Nanos := 0 |}) None ] 0 1.
Proof.
  destruct (Less_right_operand
              [ stamped "A" (Some {| Seconds := 5; Nanos := 0 |}) None;
                stamped "B" (Some {| Seconds := 1; Nanos := 0 |}) None ] 0 1
              (stamped "B" (Some {| Seconds := 1; Nanos := 0 |}) None))
    as [Hnone _].
  - reflexivity.
  - by eexists.
  - apply Hnone. reflexivity.
Defined.

End task_go_dirty_examples.

Section new_task_references.
Import Api Orchestrator Dispatcher.
Context `{TaskLib}.

Lemma GetCertificateIssuanceConfigRefs_keys t :
  configKey <$> GetCertificateIssuanceConfigRefs t
  = flat_map (issuanceKeys t) (containerIssuances t).
Proof.
  unfold GetCertificateIssuanceConfigRefs, containerIssuances.
  destruct (GetContainer (Task_Spec t)) as [container|]; [|done].
  induction (CertificateIssuances container) as [|ci l IH]; [done|].
  cbn [flat_map]. rewrite fmap_app, IH. reflexivity.
Qed.

(** X6: the references [NewTask] lists in MaterializedConfigs are filed
    under exactly the keys the assignment set synthesizes files under:
    the peer-group key if the service carries static info, and the three
    keys of each certificate issuance; so a new task of a service with
    static info lists every file the assignment set may synthesize for
    it, under any store. *)
Theorem NewTask_lists_synthesized_files taskID now c s slot node :
  let task := NewTask taskID now c s slot node in
  configKey <$> MaterializedConfigs task
  = ((if Service_StaticInfo s is Some _ then [peerGroupKey task] else [])
     ++ flat_map (issuanceKeys task) (containerIssuances task))%list
  ∧ (is_Some (Service_StaticInfo s) →
     ∀ readTx, listsSynthesized readTx task).
Proof.
  intros task.
  assert (Hkeys : configKey <$> MaterializedConfigs task
    = ((if Service_StaticInfo s is Some _ then [peerGroupKey task] else [])
       ++ flat_map (issuanceKeys task) (containerIssuances task))%list).
  { unfold task. rewrite NewTask_MaterializedConfigs, fmap_app.
    rewrite GetCertificateIssuanceConfigRefs_keys.
    by destruct (Service_StaticInfo s). }
  split; [exact Hkeys|].
  intros [info Hinfo] readTx k Hk. rewrite Hkeys, Hinfo.
  unfold synthesizedKeys in Hk.
  apply elem_of_app in Hk as [Hk|Hk].
  - apply elem_of_app. by right.
  - apply elem_of_app. left.
    destruct (staticServiceOf _ _); [done | by apply elem_of_nil in Hk].
Qed.

End new_task_references.

(** ** manager/orchestrator/static: start-up, the task queue and node
       removal *)

Section static_startup.
Import Api Orchestrator Static.

Implicit Types (o : Static.Orchestrator) (s svc : Service).

Local Notation "'byNode' o n" :=
  (default (∅ : gset string) (servicesByNodeID o !! n))
  (at level 10, o at level 9, n at level 9).

Lemma updateService_Some o s info :
  Service_StaticInfo s = Some info →
  ∃ o', updateService o s = Some o'
    ∧ store o' = store o ∧ restartTasks o' = restartTasks o
    ∧ cluster o' = cluster o
    ∧ services o' = <[Service_ID s := s]> (services o)
    ∧ ∀ n id, id ∈ byNode o' n
              ↔ id ∈ byNode o n
                ∨ (n = Static_NodeID info ∧ n ≠ "" ∧ id = Service_ID s).
Proof.
  intros Hinfo. unfold updateService. rewrite Hinfo. cbn [mbind option_bind].
  eexists. split; [reflexivity|]. cbn.
  do 4 (split; [reflexivity|]).
  intros n id. case_bool_decide as Hn.
  - destruct (decide (n = Static_NodeID info)) as [->|Hne].
    + rewrite lookup_insert_eq. cbn. set_solver.
    + rewrite lookup_insert_ne by done. naive_solver.
  - naive_solver.
Qed.

Lemma Run_enumerate_spec l : ∀ o ids,
  (∀ s, s ∈ l → IsStaticService s = true → is_Some (Service_StaticInfo s)) →
  ∃ o', Run_enumerate o ids l
        = Some (o', (ids ++ (Service_ID <$>
                               filter (λ s, IsStaticService s = true) l))%list)
    ∧ store o' = store o ∧ restartTasks o' = restartTasks o
    ∧ cluster o' = cluster o
    ∧ (∀ id svc, services o' !! id = Some svc →
         services o !! id = Some svc
         ∨ (svc ∈ l ∧ IsStaticService svc = true ∧ Service_ID svc = id))
    ∧ (∀ id, is_Some (services o !! id) → is_Some (services o' !! id))
    ∧ (∀ svc, svc ∈ l → IsStaticService svc = true →
         is_Some (services o' !! Service_ID svc))
    ∧ (∀ n id, id ∈ byNode o' n
         ↔ id ∈ byNode o n
           ∨ ∃ svc info, svc ∈ l ∧ IsStaticService svc = true
               ∧ Service_StaticInfo svc = Some info
               ∧ Static_NodeID info = n ∧ n ≠ "" ∧ Service_ID svc = id).
Proof.
  induction l as [|s l IH]; intros o ids Hinfo.
  - exists o. cbn. rewrite app_nil_r. repeat split; auto.
    + intros ?; set_solver.
    + intros [?|(? & ? & Hin & _)]; [done|]. by apply elem_of_nil in Hin.
  - cbn [Run_enumerate].
    destruct (IsStaticService s) eqn:Hs.
    + destruct (Hinfo s) as [info Hi]; [left | done |].
      destruct (updateService_Some o s info Hi)
        as (o1 & -> & Hst1 & Hrt1 & Hcl1 & Hsv1 & Hbn1).
      cbn [mbind option_bind].
      destruct (IH o1 (ids ++ [Service_ID s])%list)
        as (o' & -> & Hst & Hrt & Hcl & Hsv & Hkeep & Hin & Hbn).
      { intros s' Hs'. apply Hinfo. by right. }
      exists o'. rewrite filter_cons_True by done.
      rewrite fmap_cons, <- app_assoc. cbn [app].
      split; [reflexivity|].
      split; [congruence|]. split; [congruence|]. split; [congruence|].
      split; [|split; [|split]].
      * intros id svc Hl. destruct (Hsv id svc Hl) as [Ho1|(? & ? & ?)].
        -- rewrite Hsv1 in Ho1.
           apply lookup_insert_Some in Ho1 as [[<- <-]|[_ Ho]]; [|by left].
           right. split; [left | done].
        -- right. split; [by right | done].
      * intros id Hid. apply Hkeep. rewrite Hsv1.
        destruct (decide (Service_ID s = id)) as [->|Hne].
        -- rewrite lookup_insert_eq. eauto.
        -- by rewrite lookup_insert_ne.
      * intros svc Hsvc Hstat. apply elem_of_cons in Hsvc as [->|Hsvc].
        -- apply Hkeep. rewrite Hsv1, lookup_insert_eq. eauto.
        -- by apply Hin.
      * intros n id. rewrite Hbn, Hbn1. split.
        -- intros [[?|(-> & Hn & ->)]|(svc & i & Hl & ? & ? & ? & ? & ?)].
           ++ by left.
           ++ right. exists s, info. split; [left|]. done.
           ++ right. exists svc, i. split; [by right | done].
        -- intros [?|(svc & i & Hl & Hst' & Hi' & Hn & Hne & Hid)];
             [by left; left|].
           apply elem_of_cons in Hl as [->|Hl].
           ++ left. right. rewrite Hi in Hi'. injection Hi' as <-. done.
           ++ right. exists svc, i. done.
    + destruct (IH o ids) as (o' & -> & Hst & Hrt & Hcl & Hsv & Hkeep & Hin & Hbn).
      { intros s' Hs'. apply Hinfo. by right. }
      exists o'. rewrite filter_cons_False by (by rewrite Hs).
      split; [reflexivity|].
      split; [done|]. split; [done|]. split; [done|].
      split; [|split; [|split]].
      * intros id svc Hl. destruct (Hsv id svc Hl) as [?|(? & ? & ?)];
          [by left|]. right. split; [by right | done].
      * done.
      * intros svc Hsvc Hstat. apply elem_of_cons in Hsvc as [->|Hsvc];
          [congruence|]. by apply Hin.
      * intros n id. rewrite Hbn. split.
        -- intros [?|(svc & i & Hl & ?)]; [by left|].
           right. exists svc, i. split; [by right | done].
        -- intros [?|(svc & i & Hl & Hst' & ?)]; [by left|].
           apply elem_of_cons in Hl as [->|Hl]; [congruence|].
           right. exists svc, i. done.
Qed.

Lemma Run_enumerate_None l : ∀ o ids s,
  s ∈ l → IsStaticService s = true → Service_StaticInfo s = None →
  Run_enumerate o ids l = None.
Proof.
  induction l as [|s' l IH]; intros o ids s Hin Hs Hnone.
  - by apply elem_of_nil in Hin.
  - cbn [Run_enumerate]. apply elem_of_cons in Hin as [<-|Hin].
    + rewrite Hs. unfold updateService. by rewrite Hnone.
    + destruct (IsStaticService s'); [|by eapply IH].
      destruct (updateService o s') as [o1|]; [|done].
      cbn [mbind option_bind]. by eapply IH.
Qed.

Lemma elem_of_FindServicesAll tx s :
  s ∈ Store.FindServicesAll tx ↔ ∃ k, Store.tableService tx !! k = Some s.
Proof.
  unfold Store.FindServicesAll. rewrite list_elem_of_fmap. split.
  - intros ([k s'] & -> & Hin). exists k. by apply elem_of_map_to_list.
  - intros [k Hk]. exists (k, s). split; [done|].
    by apply elem_of_map_to_list.
Qed.

(** X7: start-up panics exactly when the store holds a static service
    without StaticInfo. *)
Theorem Run_startup_panics_iff o :
  Run_startup o = None
  ↔ ∃ k s, Store.tableService (store o) !! k = Some s
           ∧ IsStaticService s = true ∧ Service_StaticInfo s = None.
Proof.
  unfold Run_startup. split.
  - intros Hnone.
    destruct (decide (Forall (λ s, IsStaticService s = true →
                                   is_Some (Service_StaticInfo s))
                        (Store.FindServicesAll (store o)))) as [Hall|Hex].
    + rewrite Forall_forall in Hall.
      destruct (Run_enumerate_spec _ o [] Hall) as (o' & Heq & _).
      congruence.
    + apply not_Forall_Exists in Hex; [|apply _].
      apply Exists_exists in Hex as (s & Hin & Hs).
      apply elem_of_FindServicesAll in Hin as [k Hk].
      exists k, s. split; [done|]. cbn in Hs.
      destruct (IsStaticService s); [|by destruct Hs].
      split; [done|]. destruct (Service_StaticInfo s); [|done].
      destruct Hs. eauto.
  - intros (k & s & Hk & Hs & Hnone).
    eapply Run_enumerate_None; [|done..].
    apply elem_of_FindServicesAll. eauto.
Qed.

(** X8: start-up on a store that keys its services by their ids, each
    static one with StaticInfo: the orchestrator tracks exactly the static
    services of the store, whatever their node id is, hands each of their
    ids once to the first reconciliation, and indexes under a node
    exactly the static services pinned to it. *)
Theorem Run_startup_tracks_static_services tx :
  (∀ k s, Store.tableService tx !! k = Some s → Service_ID s = k) →
  (∀ k s, Store.tableService tx !! k = Some s → IsStaticService s = true →
          is_Some (Service_StaticInfo s)) →
  ∃ o' ids,
    Run_startup (NewStaticOrchestrator tx) = Some (o', ids)
    ∧ store o' = tx
    ∧ NoDup ids
    ∧ (∀ id, id ∈ ids
         ↔ ∃ s, Store.tableService tx !! id = Some s
                ∧ IsStaticService s = true)
    ∧ (∀ id s, services o' !! id = Some s
         ↔ Store.tableService tx !! id = Some s ∧ IsStaticService s = true)
    ∧ (∀ n id, id ∈ byNode o' n
         ↔ n ≠ "" ∧ ∃ s info, Store.tableService tx !! id = Some s
                    ∧ IsStaticService s = true
                    ∧ Service_StaticInfo s = Some info
                    ∧ Static_NodeID info = n).
Proof.
  intros Hkey Hinfo.
  set (o := NewStaticOrchestrator tx).
  destruct (Run_enumerate_spec (Store.FindServicesAll (store o)) o [])
    as (o' & Heq & Hst & _ & _ & Hsv & _ & Hin & Hbn).
  { intros s Hs. apply elem_of_FindServicesAll in Hs as [k Hk]. eauto. }
  exists o'. eexists. split; [exact Heq|]. split; [exact Hst|].
  assert (Hmem : ∀ s, s ∈ Store.FindServicesAll tx
                      ↔ Store.tableService tx !! Service_ID s = Some s).
  { intros s. rewrite elem_of_FindServicesAll. split; [|eauto].
    intros [k Hk]. by rewrite (Hkey k s Hk). }
  cbn [app]. change (store o) with tx in *.
  split; [|split; [|split]].
  - eapply sublist_NoDup; [|apply fmap_sublist, sublist_filter].
    unfold Store.FindServicesAll. rewrite <- list_fmap_compose.
    replace (Service_ID ∘ snd <$> map_to_list (Store.tableService tx))
      with (fst <$> map_to_list (Store.tableService tx)).
    { apply NoDup_fst_map_to_list. }
    apply Forall_fmap_ext, Forall_forall. intros [k s] Hks.
    apply elem_of_map_to_list in Hks. cbn. symmetry. eauto.
  - intros id. rewrite list_elem_of_fmap. split.
    + intros (s & -> & Hs). apply list_elem_of_filter in Hs as [Hs Hl].
      exists s. split; [by apply Hmem | done].
    + intros (s & Hs & Hstat). exists s.
      split; [symmetry; eauto|].
      apply list_elem_of_filter. split; [done|].
      apply elem_of_FindServicesAll. eauto.
  - intros id s. split.
    + intros Hl. destruct (Hsv id s Hl) as [Habs|(Hs & Hstat & <-)].
      { exfalso. revert Habs. unfold o. cbn. by rewrite lookup_empty. }
      split; [by apply Hmem | done].
    + intros [Hs Hstat].
      destruct (Hin s) as [s' Hs']; [apply elem_of_FindServicesAll; eauto|done|].
      rewrite (Hkey id s Hs) in Hs'.
      destruct (Hsv id s' Hs') as [Habs|(Hl & _ & Hid)].
      { exfalso. revert Habs. unfold o. cbn. by rewrite lookup_empty. }
      apply Hmem in Hl. rewrite Hid in Hl. congruence.
  - intros n id. rewrite Hbn.
    change (byNode o n) with (∅ : gset string). split.
    + intros [Habs|(s & info & Hl & Hstat & Hi & Hn & Hne & Hid)];
        [set_solver|].
      split; [done|]. exists s, info. apply Hmem in Hl.
      rewrite Hid in Hl. done.
    + intros (Hne & s & info & Hs & Hstat & Hi & Hn). right.
      exists s, info. split; [apply elem_of_FindServicesAll; eauto|].
      split; [done|]. split; [done|]. split; [done|]. split; [done|]. eauto.
Qed.

End static_startup.

Section static_startup_examples.
Import Api Orchestrator Static Examples.

Lemma storeWith_keyed svcs k s :
  Store.tableService (storeWith svcs) !! k = Some s → Service_ID s = k.
Proof.
  unfold storeWith. cbn. intros Hk.
  apply elem_of_list_to_map_2, list_elem_of_fmap in Hk as (q & [= -> ->] & _).
  done.
Qed.

Lemma Run_startup_tracks_static_services_witness :
  ∃ o' ids,
    Run_startup (NewStaticOrchestrator (storeWith [S1; S0])) = Some (o', ids)
    ∧ (∀ id s, services o' !! id = Some s
         ↔ Store.tableService (storeWith [S1; S0]) !! id = Some s
           ∧ IsStaticService s = true).
Proof.
  destruct (Run_startup_tracks_static_services (storeWith [S1; S0]))
    as (o' & ids & Hrun & _ & _ & _ & Hsv & _).
  - apply storeWith_keyed.
  - intros k s Hk _. apply storeWith_lookup in Hk.
    apply elem_of_cons in Hk as [->|Hk]; [by eexists|].
    apply list_elem_of_singleton in Hk as ->. by eexists.
  - exists o', ids. split; [exact Hrun | exact Hsv].
Defined.

End static_startup_examples.

Section static_events.
Import Api Orchestrator Static.

Implicit Types (o : Static.Orchestrator) (s svc : Service) (t : Task).

Local Notation "'byNode' o n" :=
  (default (∅ : gset string) (servicesByNodeID o !! n))
  (at level 10, o at level 9, n at level 9).

(** X9: a service the event loop accepts is indexed without a panic,
    under its id and under its node; the node index only grows, so a
    service that comes back with another node id stays indexed under the
    old one as well. *)
Theorem updateService_only_adds o s :
  IsRelatedService s = Some true →
  ∃ o' info,
    updateService o s = Some o'
    ∧ Service_StaticInfo s = Some info
    ∧ services o' = <[Service_ID s := s]> (services o)
    ∧ Service_ID s ∈ byNode o' (Static_NodeID info)
    ∧ (∀ n id, id ∈ byNode o n → id ∈ byNode o' n)
    ∧ (∀ n id, id ∈ byNode o' n →
         id ∈ byNode o n ∨ (n = Static_NodeID info ∧ id = Service_ID s))
    ∧ store o' = store o ∧ restartTasks o' = restartTasks o.
Proof.
  unfold IsRelatedService. destruct (IsStaticService s); [|done].
  destruct (Service_StaticInfo s) as [info|] eqn:Hi; [|done].
  cbn [mbind option_bind]. intros [= Hn]. apply bool_decide_eq_true in Hn.
  destruct (updateService_Some o s info Hi)
    as (o' & Hrun & Hst & Hrt & _ & Hsv & Hbn).
  exists o', info. split; [exact Hrun|]. split; [done|]. split; [done|].
  split; [apply Hbn; by right|].
  split; [intros n id Hin; apply Hbn; by left|].
  split; [|done].
  intros n id Hin. apply Hbn in Hin as [?|(? & _ & ?)]; [by left | by right].
Qed.

Lemma set_store_id o : set_store o (store o) = o.
Proof. by destruct o. Qed.

Lemma state_lt_le a b : state_lt a b = negb (state_le b a).
Proof. apply Z.ltb_antisym. Qed.

(** What [deleteTask] does to the store, whether the task is there or
    not. *)
Lemma deleteTask_store o t :
  deleteTask o t
  = set_store o
      (Store.set_tableTask (store o)
         (delete (Task_ID t) (Store.tableTask (store o)))).
Proof.
  unfold deleteTask, Store.DeleteTask.
  destruct (Store.tableTask (store o) !! Task_ID t) eqn:E; [done|].
  rewrite delete_id by done.
  destruct o as [[] ? ? ? ?]; reflexivity.
Qed.

Lemma foldl_deleteTask l : ∀ o,
  let o' := foldl (λ o t, match services o !! ServiceID t with
                          | Some _ => deleteTask o t
                          | None => o
                          end) o l in
  o' = set_store o
         (Store.set_tableTask (store o) (Store.tableTask (store o')))
  ∧ ∀ k T, Store.tableTask (store o') !! k = Some T
           ↔ Store.tableTask (store o) !! k = Some T
             ∧ ¬ ∃ t, t ∈ l ∧ Task_ID t = k
                      ∧ is_Some (services o !! ServiceID t).
Proof.
  induction l as [|t l IH]; intros o; cbn [foldl].
  - split; [by destruct o as [[] ? ? ? ?]|].
    intros k T. split; [|tauto]. intros Hk. split; [done|].
    intros (t & Hin & _). by apply elem_of_nil in Hin.
  - destruct (services o !! ServiceID t) as [svc|] eqn:Hsvc.
    + destruct (IH (deleteTask o t)) as [Hframe Htbl].
      rewrite deleteTask_store in Hframe, Htbl |- *.
      cbn [store set_store Store.tableTask Store.set_tableTask services]
        in Hframe, Htbl |- *.
      split; [rewrite Hframe at 1; reflexivity|].
      intros k T. rewrite Htbl, lookup_delete_Some. split.
      * intros [[Hne Hk] Hno]. split; [done|].
        intros (t' & Hin & Hid & Htr).
        apply elem_of_cons in Hin as [->|Hin]; [done|].
        apply Hno. eauto.
      * intros [Hk Hno]. split; [split; [|done]|].
        -- intros Heq. apply Hno. exists t. rewrite Hsvc.
           split; [left|]. eauto.
        -- intros (t' & Hin & Hid & Htr). apply Hno. exists t'.
           split; [by right | done].
    + destruct (IH o) as [Hframe Htbl]. split; [exact Hframe|].
      intros k T. rewrite Htbl. split.
      * intros [Hk Hno]. split; [done|].
        intros (t' & Hin & Hid & Htr).
        apply elem_of_cons in Hin as [->|Hin].
        -- rewrite Hsvc in Htr. by destruct Htr.
        -- apply Hno. eauto.
      * intros [Hk Hno]. split; [done|].
        intros (t' & Hin & Hid & Htr). apply Hno. exists t'.
        split; [by right | done].
Qed.

Lemma elem_of_FindTasksByNodeID tx nodeID t :
  t ∈ Store.FindTasksByNodeID tx nodeID
  ↔ NodeID t = nodeID ∧ ∃ k, Store.tableTask tx !! k = Some t.
Proof.
  unfold Store.FindTasksByNodeID.
  rewrite list_elem_of_filter, list_elem_of_fmap. split.
  - intros [Hn ([k t'] & -> & Hin)]. split; [done|].
    exists k. by apply elem_of_map_to_list.
  - intros [Hn [k Hk]]. split; [done|]. exists (k, t).
    split; [done|]. by apply elem_of_map_to_list.
Qed.

(** X10: when a node is removed, the tasks deleted from a store that keys
    its tasks by their ids are exactly the tasks on that node whose
    service is tracked; nothing else in the store or in the orchestrator
    changes. *)
Theorem node_removal_deletes_tracked_tasks o node :
  (∀ k t, Store.tableTask (store o) !! k = Some t → Task_ID t = k) →
  let o' := foreachTaskFromNode o node deleteTask in
  o' = set_store o
         (Store.set_tableTask (store o) (Store.tableTask (store o')))
  ∧ ∀ k t, Store.tableTask (store o') !! k = Some t
           ↔ Store.tableTask (store o) !! k = Some t
             ∧ ¬ (NodeID t = Node_ID node
                  ∧ is_Some (services o !! ServiceID t)).
Proof.
  intros Hkey o'.
  destruct (foldl_deleteTask
              (Store.FindTasksByNodeID (store o) (Node_ID node)) o)
    as [Hframe Htbl].
  split; [exact Hframe|].
  intros k t. unfold o', foreachTaskFromNode. rewrite Htbl. split.
  - intros [Hk Hno]. split; [done|]. intros [Hn Htr]. apply Hno.
    exists t. split; [apply elem_of_FindTasksByNodeID; eauto|]. eauto.
  - intros [Hk Hno]. split; [done|]. intros (t' & Hin & Hid & Htr).
    apply elem_of_FindTasksByNodeID in Hin as [Hn [k' Hk']].
    pose proof (Hkey k' t' Hk') as Hid'.
    assert (k' = k) as -> by congruence.
    assert (t' = t) as -> by congruence. by apply Hno.
Qed.

(** X11: [addTask] changes nothing but the task table at the new id: it
    never overwrites a task that has the id, and it creates nothing for
    a service that has left the store in the meantime. *)
Theorem addTask_frame `{TaskLib} taskID now o service nodeID :
  let o' := addTask taskID now o service nodeID in
  o' = set_store o
         (Store.set_tableTask (store o) (Store.tableTask (store o')))
  ∧ (∀ k, k ≠ taskID →
          Store.tableTask (store o') !! k = Store.tableTask (store o) !! k)
  ∧ (is_Some (Store.tableTask (store o) !! taskID) → o' = o)
  ∧ (Store.GetService (store o) (Service_ID service) = None → o' = o).
Proof.
  intros o'. unfold o', addTask.
  destruct (NewTask_basic taskID now (cluster o) service 0 nodeID)
    as (Hid & _).
  assert (Htid : Task_ID (addTask_task taskID now o service nodeID) = taskID)
    by exact Hid.
  assert (Hsame : o = set_store o
            (Store.set_tableTask (store o) (Store.tableTask (store o))))
    by (by destruct o as [[] ? ? ? ?]).
  destruct (Store.GetService (store o) (Service_ID service)) as [svc|];
    [|by repeat split].
  unfold Store.CreateTask. rewrite Htid.
  destruct (Store.tableTask (store o) !! taskID) as [old|] eqn:Eold;
    [by repeat split|].
  split; [reflexivity|]. split; [|split; [|done]].
  - intros k Hne. cbn. by rewrite lookup_insert_ne.
  - intros [? ?]. done.
Qed.

End static_events.

Section static_node_removal.
Import Api Orchestrator Static Store.
Context `{StringsLib}.

Implicit Types (o : Static.Orchestrator) (s : Service) (tx : Tables).

(** Writing back a stored service under its own name succeeds. *)
Lemma UpdateService_same_name tx s s' :
  names_unique tx →
  tableService tx !! Service_ID s' = Some s →
  key_of s' = key_of s →
  UpdateService tx s'
  = Ok (set_tableService tx (<[Service_ID s' := s']> (tableService tx))).
Proof.
  intros ([Hid Hname] & _) Hs Hkey. unfold UpdateService.
  destruct (lookupName (tableService tx) _) as [existing|] eqn:E.
  - apply lookupName_Some in E as (k & Hk & Hn).
    assert (k = Service_ID s') as ->.
    { apply (Hname k (Service_ID s') existing s Hk Hs).
      unfold key_of in *. by rewrite Hn, <- Hkey. }
    assert (existing = s) as -> by congruence.
    rewrite bool_decide_eq_false_2.
    2:{ intros Hne. apply Hne. exact (Hid _ _ Hs). }
    unfold update. change (GetID s') with (Service_ID s'). by rewrite Hs.
  - destruct (lookupName_None _ _ _ _ E Hs). exact (eq_sym Hkey).
Qed.

Lemma markServiceDown_spec tx serviceID :
  names_unique tx →
  (∀ s, tableService tx !! serviceID = Some s →
        is_Some (Service_StaticInfo s)) →
  ∃ tx', markServiceDown tx serviceID = Some tx'
    ∧ names_unique tx'
    ∧ tx' = set_tableService tx (tableService tx')
    ∧ tableService tx' !! serviceID
      = markedDown <$> tableService tx !! serviceID
    ∧ ∀ k, k ≠ serviceID → tableService tx' !! k = tableService tx !! k.
Proof.
  intros Huniq Hinfo. unfold markServiceDown, GetService.
  destruct (tableService tx !! serviceID) as [s|] eqn:Hs.
  2:{ exists tx. split; [done|]. split; [done|].
      split; [by destruct tx|]. by rewrite Hs. }
  destruct (Hinfo s eq_refl) as [info Hi]. rewrite Hi.
  cbn [mbind option_bind].
  set (s' := Service_set_StaticInfo s _).
  assert (Hsid : Service_ID s' = serviceID).
  { destruct Huniq as ([Hid _] & _). exact (Hid _ _ Hs). }
  assert (Hupd := UpdateService_same_name tx s s' Huniq).
  rewrite Hsid in Hupd. rewrite Hupd by done.
  eexists. split; [reflexivity|].
  split; [eapply UpdateService_names_unique; [exact Huniq|];
          rewrite <- Hsid in Hs; rewrite (UpdateService_same_name tx s s');
          [by rewrite Hsid | done..]|].
  split; [reflexivity|]. cbn [tableService set_tableService].
  split.
  - rewrite lookup_insert_eq. cbn. unfold markedDown. by rewrite Hi.
  - intros k Hne. by rewrite lookup_insert_ne.
Qed.

Lemma foldl_markServiceDown l : ∀ tx,
  NoDup l →
  names_unique tx →
  (∀ id s, id ∈ l → tableService tx !! id = Some s →
           is_Some (Service_StaticInfo s)) →
  ∃ tx', foldl (λ acc serviceID, acc ← acc; markServiceDown acc serviceID)
           (Some tx) l = Some tx'
    ∧ names_unique tx'
    ∧ tx' = set_tableService tx (tableService tx')
    ∧ ∀ k, tableService tx' !! k
           = if decide (k ∈ l) then markedDown <$> tableService tx !! k
             else tableService tx !! k.
Proof.
  induction l as [|id l IH]; intros tx Hnd Huniq Hinfo; cbn [foldl].
  - exists tx. split; [done|]. split; [done|]. split; [by destruct tx|].
    intros k. rewrite decide_False; [done|]. apply not_elem_of_nil.
  - apply NoDup_cons in Hnd as [Hnotin Hnd].
    destruct (markServiceDown_spec tx id Huniq)
      as (tx1 & Hrun & Huniq1 & Hframe1 & Hat & Hother).
    { intros s. apply Hinfo. left. }
    cbn [mbind option_bind]. rewrite Hrun.
    destruct (IH tx1 Hnd Huniq1) as (tx' & Hfold & Huniq' & Hframe & Htbl).
    { intros id' s Hin Hs. apply (Hinfo id' s); [by right|].
      rewrite <- Hother; [done|]. intros ->. done. }
    exists tx'. split; [exact Hfold|]. split; [exact Huniq'|].
    split.
    { rewrite Hframe at 1. rewrite Hframe1 at 1. reflexivity. }
    intros k. rewrite Htbl.
    destruct (decide (k = id)) as [->|Hne].
    + rewrite decide_False by done. rewrite decide_True by left. exact Hat.
    + rewrite Hother by done.
      destruct (decide (k ∈ l)) as [Hin|Hnin].
      * rewrite decide_True by (by right). done.
      * rewrite decide_False; [done|].
        intros Hin. apply elem_of_cons in Hin as [?|?]; done.
Qed.

(** X12: the removal of a node, on a store with unique names in which
    every service indexed under the node carries static info: the
    services indexed under the node that are still in the store get the
    message "Static Node Removed" and are otherwise kept as they are; no
    other service changes, and the only tasks deleted are the tasks of
    tracked services. *)
Theorem Run_deleteNode_marks_services o node :
  names_unique (store o) →
  (∀ id s, id ∈ default ∅ (servicesByNodeID o !! Node_ID node) →
           tableService (store o) !! id = Some s →
           is_Some (Service_StaticInfo s)) →
  ∃ o', Run_deleteNode o node = Some o'
    ∧ (∀ id, tableService (store o') !! id
             = if decide (id ∈ default ∅ (servicesByNodeID o !! Node_ID node))
               then markedDown <$> tableService (store o) !! id
               else tableService (store o) !! id)
    ∧ tablePeerGroup (store o') = tablePeerGroup (store o)
    ∧ (∀ k t, tableTask (store o') !! k = Some t →
              tableTask (store o) !! k = Some t)
    ∧ services o' = services o
    ∧ servicesByNodeID o' = servicesByNodeID o
    ∧ names_unique (store o').
Proof.
  intros Huniq Hinfo. unfold Run_deleteNode.
  destruct (foldl_deleteTask
              (FindTasksByNodeID (store o) (Node_ID node)) o)
    as [Hframe Htbl].
  fold (foreachTaskFromNode o node deleteTask) in Hframe, Htbl.
  set (o1 := foreachTaskFromNode o node deleteTask) in *.
  assert (Hsv1 : tableService (store o1) = tableService (store o))
    by (by rewrite Hframe).
  assert (Hpg1 : tablePeerGroup (store o1) = tablePeerGroup (store o))
    by (by rewrite Hframe).
  assert (Hbn1 : servicesByNodeID o1 = servicesByNodeID o)
    by (by rewrite Hframe).
  assert (Hs1 : services o1 = services o) by (by rewrite Hframe).
  destruct (foldl_markServiceDown
              (elements (default ∅ (servicesByNodeID o1 !! Node_ID node)))
              (store o1))
    as (tx' & Hfold & Huniq' & Hframe' & Htbl').
  { apply NoDup_elements. }
  { destruct Huniq as (? & ? & ?). unfold names_unique.
    by rewrite Hsv1, Hpg1. }
  { intros id s Hin Hs. apply elem_of_elements in Hin.
    rewrite Hbn1 in Hin. rewrite Hsv1 in Hs. eauto. }
  rewrite Hfold. cbn [mbind option_bind]. eexists. split; [reflexivity|].
  cbn [store set_store services servicesByNodeID].
  split; [|split; [|split; [|split; [|split]]]]; try done.
  - intros id. rewrite Htbl', Hbn1, Hsv1.
    destruct (decide (id ∈ elements _)) as [Hin|Hnin];
      [rewrite decide_True by (by apply elem_of_elements in Hin)
      |rewrite decide_False by (by rewrite <- elem_of_elements)]; done.
  - rewrite Hframe'. exact Hpg1.
  - intros k t Hk. rewrite Hframe' in Hk. cbn in Hk.
    by apply Htbl in Hk as [? _].
Qed.

End static_node_removal.

Section static_restarts.
Import Api Orchestrator Static.
Context `{RestartLib}.

Implicit Types (o : Static.Orchestrator) (t : Task).

Lemma foldl_tickTask_skip c l : ∀ restarts tx,
  (∀ id t, id ∈ l → Store.GetTask tx id = Some t →
     state_le (DesiredState t) TaskStateRunning = true →
     Store.GetService tx (ServiceID t) = None) →
  foldl (tickTask c) (restarts, tx) l = (restarts, tx).
Proof.
  induction l as [|id l IH]; intros restarts tx Hskip; [done|].
  cbn [foldl].
  assert (Hone : tickTask c (restarts, tx) id = (restarts, tx)).
  { unfold tickTask. cbn [fst snd].
    destruct (Store.GetTask tx id) as [t|] eqn:Ht; [|done].
    rewrite state_lt_le.
    destruct (state_le (DesiredState t) TaskStateRunning) eqn:Hd; [|done].
    cbn [negb]. rewrite (Hskip id t); [done|by left|done..]. }
  rewrite Hone. apply IH. intros id' t Hin. apply Hskip. by right.
Qed.

(** X13: [tickTasks] always empties the queue and touches nothing of the
    orchestrator but the queue and the store; and it leaves the store and
    the restart supervisor alone as well when no queued id names a stored
    task with a desired state of at most Running whose service is still
    stored. *)
Theorem tickTasks_nothing_to_restart restarts o :
  restartTasks (tickTasks restarts o).2 = ∅
  ∧ (tickTasks restarts o).2
    = set_restartTasks (set_store o (store (tickTasks restarts o).2)) ∅
  ∧ ((∀ id t, id ∈ restartTasks o → Store.GetTask (store o) id = Some t →
        state_le (DesiredState t) TaskStateRunning = true →
        Store.GetService (store o) (ServiceID t) = None) →
     tickTasks restarts o = (restarts, set_restartTasks o ∅)).
Proof.
  split_and!.
  - unfold tickTasks. case_bool_decide as Hq; [exact Hq|reflexivity].
  - unfold tickTasks. case_bool_decide as Hq; [|reflexivity].
    destruct o; cbn in *. by subst.
  - intros Hskip. unfold tickTasks. case_bool_decide as Hq.
    + f_equal. destruct o; cbn in *. by subst.
    + rewrite foldl_tickTask_skip.
      * cbn [fst snd]. by rewrite set_store_id.
      * intros id t Hin. apply Hskip. by apply elem_of_elements.
Qed.

(** X14: a task update that reports a state above Running for a task of a
    tracked service, with a desired state of at most Running, makes the
    next tick ask the supervisor for exactly one restart: of the task as
    the store has it, for the service as the store has it; the queue is
    empty afterwards. *)
Theorem failed_task_restarted_once restarts o t stored service :
  restartTasks o = ∅ →
  is_Some (services o !! ServiceID t) →
  state_le (DesiredState t) TaskStateRunning = true →
  state_lt TaskStateRunning (State (Status t)) = true →
  Store.GetTask (store o) (Task_ID t) = Some stored →
  state_le (DesiredState stored) TaskStateRunning = true →
  Store.GetService (store o) (ServiceID stored) = Some service →
  tickTasks restarts (handleTaskChange o t)
  = let st := Restart restarts (store o) (cluster o) service stored in
    (st.1, set_restartTasks (set_store o st.2) ∅).
Proof.
  intros Hq [svc Hsvc] Hd Hs Hstored Hd' Hservice.
  unfold handleTaskChange. rewrite Hsvc, state_lt_le, Hd, Hs. cbn [negb].
  rewrite Hq, union_empty_r_L. unfold tickTasks.
  cbn [restartTasks set_restartTasks store cluster].
  rewrite bool_decide_eq_false_2 by set_solver.
  rewrite elements_singleton. cbn [foldl].
  unfold tickTask. cbn [fst snd].
  rewrite Hstored, state_lt_le, Hd', Hservice. cbn [negb].
  reflexivity.
Qed.

End static_restarts.

Section static_events_examples.
Import Api Orchestrator Static Examples.

Lemma updateService_only_adds_witness :
  ∃ o', updateService (NewStaticOrchestrator (storeWith [S1])) S1 = Some o'
        ∧ services o' = {[ "S1" := S1 ]}.
Proof.
  destruct (updateService_only_adds (NewStaticOrchestrator (storeWith [S1])) S1)
    as (o' & info & Hrun & _ & Hsv & _); [reflexivity|].
  exists o'. split; [exact Hrun | exact Hsv].
Defined.

Lemma trackingS1_keyed k t :
  Store.tableTask (store trackingS1) !! k = Some t → Task_ID t = k.
Proof.
  cbn. intros Hk. by apply lookup_singleton_Some in Hk as [<- <-].
Qed.

Lemma node_removal_deletes_tracked_tasks_witness :
  Store.tableTask (store (foreachTaskFromNode trackingS1 nodeN1 deleteTask))
  !! "T1" = None.
Proof.
  destruct (node_removal_deletes_tracked_tasks trackingS1 nodeN1
              trackingS1_keyed) as [_ Htbl].
  destruct (Store.tableTask
              (store (foreachTaskFromNode trackingS1 nodeN1 deleteTask))
            !! "T1") as [t|] eqn:E; [|done].
  apply Htbl in E as [Hk Hno]. exfalso. apply Hno.
  cbn in Hk. apply lookup_singleton_Some in Hk as [_ <-].
  split; [reflexivity|]. by eexists.
Defined.

Lemma storeS1T1_names_unique :
  Store.names_unique (H:=asciiStrings) storeS1T1.
Proof.
  pose proof (run_names_unique (H:=asciiStrings) [Store.OpCreateService S1])
    as Hu.
  assert (Hs : Store.tableService (Store.run (H:=asciiStrings)
                                     [Store.OpCreateService S1])
               = Store.tableService storeS1T1) by reflexivity.
  assert (Hp : Store.tablePeerGroup (Store.run (H:=asciiStrings)
                                       [Store.OpCreateService S1])
               = Store.tablePeerGroup storeS1T1) by reflexivity.
  unfold Store.names_unique in *. by rewrite <- Hs, <- Hp.
Qed.

Lemma Run_deleteNode_marks_services_witness :
  ∃ o', Run_deleteNode (H:=asciiStrings) trackingS1 nodeN1 = Some o'
        ∧ Store.tableService (store o') !! "S1" = Some (markedDown S1).
Proof.
  destruct (Run_deleteNode_marks_services (H:=asciiStrings) trackingS1 nodeN1)
    as (o' & Hrun & Hsv & _).
  - exact storeS1T1_names_unique.
  - intros id s _ Hs. apply storeWith_lookup in Hs.
    apply list_elem_of_singleton in Hs as ->. by eexists.
  - exists o'. split; [exact Hrun|]. rewrite Hsv. reflexivity.
Defined.

Lemma tickTasks_nothing_to_restart_witness :
  tickTasks (H:=exampleRestarts) []
    (set_restartTasks (NewStaticOrchestrator (storeWith [S1])) {[ "T1" ]})
  = ([], NewStaticOrchestrator (storeWith [S1])).
Proof.
  destruct (tickTasks_nothing_to_restart (H:=exampleRestarts) []
              (set_restartTasks (NewStaticOrchestrator (storeWith [S1]))
                 {[ "T1" ]})) as (_ & _ & Hsame).
  apply Hsame.
  intros id t _ Ht. unfold Store.GetTask in Ht.
  change ((∅ : gmap string Task) !! id = Some t) in Ht.
  by rewrite lookup_empty in Ht.
Defined.

Lemma failed_task_restarted_once_witness :
  tickTasks (H:=exampleRestarts) [] (handleTaskChange trackingS1 taskFailed)
  = (["T1"], trackingS1).
Proof.
  apply (failed_task_restarted_once (H:=exampleRestarts) [] trackingS1
           taskFailed taskFailed S1); try reflexivity.
  by eexists.
Defined.

End static_events_examples.

(** ** manager/state/store: the outcomes of the peer-group writes *)

Section peer_group_table.
Import Api Store.
Context `{StringsLib}.

Implicit Types (tx : Tables) (p q : PeerGroupT).

Lemma lookupName_free {A} `{StoreObject A} (tbl : gmap string A) key :
  (∀ k o, tbl !! k = Some o → ToLower (GetName o) ≠ key) →
  lookupName tbl key = None.
Proof.
  intros Hfree. destruct (lookupName tbl key) as [o|] eqn:E; [|done].
  apply lookupName_Some in E as (k & Hk & Hn). by destruct (Hfree k o Hk).
Qed.

Lemma set_tablePeerGroup_id tx : set_tablePeerGroup tx (tablePeerGroup tx) = tx.
Proof. by destruct tx. Qed.

(** X15: CreatePeerGroup with a name that no stored peer group and no
    stored service has (after lower-casing): it fails with ErrExist exactly
    when the id is taken, and otherwise stores the peer group under its id
    and changes nothing else; deleting it again gives back the store as
    it was, and an id that is not stored cannot be deleted. *)
Theorem CreatePeerGroup_free_name tx p :
  (∀ k q, tablePeerGroup tx !! k = Some q → key_of q ≠ key_of p) →
  (∀ k s, tableService tx !! k = Some s → key_of s ≠ key_of p) →
  CreatePeerGroup tx p
  = match GetPeerGroup tx (PG_ID p) with
    | Some _ => Err ErrExist
    | None => Ok (set_tablePeerGroup tx (<[PG_ID p := p]> (tablePeerGroup tx)))
    end
  ∧ (GetPeerGroup tx (PG_ID p) = None →
     ∀ tx', CreatePeerGroup tx p = Ok tx' →
       GetPeerGroup tx' (PG_ID p) = Some p
       ∧ (∀ id, id ≠ PG_ID p → GetPeerGroup tx' id = GetPeerGroup tx id)
       ∧ DeletePeerGroup tx' (PG_ID p) = Ok tx
       ∧ DeletePeerGroup tx (PG_ID p) = Err ErrNotExist).
Proof.
  intros Hpg Hsvc.
  assert (Hrun : CreatePeerGroup tx p
    = match GetPeerGroup tx (PG_ID p) with
      | Some _ => Err ErrExist
      | None =>
        Ok (set_tablePeerGroup tx (<[PG_ID p := p]> (tablePeerGroup tx)))
      end).
  { unfold CreatePeerGroup.
    rewrite (lookupName_free (tablePeerGroup tx)) by exact Hpg.
    rewrite (lookupName_free (tableService tx)) by exact Hsvc.
    unfold create, GetPeerGroup. change (GetID p) with (PG_ID p).
    by destruct (tablePeerGroup tx !! PG_ID p). }
  split; [exact Hrun|].
  intros Hfresh tx'. rewrite Hrun, Hfresh. intros [= <-].
  unfold GetPeerGroup, DeletePeerGroup, delete_ in *.
  cbn [tablePeerGroup set_tablePeerGroup].
  rewrite lookup_insert_eq. split; [done|].
  split; [intros id Hne; by rewrite lookup_insert_ne|].
  rewrite Hfresh. split; [|done].
  cbn [commitPeerGroup]. rewrite delete_insert_id by done.
  f_equal. by destruct tx.
Qed.

(** X16: UpdatePeerGroup on a store with unique names, with a name that
    no other stored peer group and no stored service has: it fails with
    ErrNotExist exactly when the id is not stored, and otherwise replaces
    the stored peer group and changes nothing else; in particular a peer
    group may be written back under its own name. *)
Theorem UpdatePeerGroup_free_name tx p :
  names_unique tx →
  (∀ k q, tablePeerGroup tx !! k = Some q → key_of q = key_of p →
          k = PG_ID p) →
  (∀ k s, tableService tx !! k = Some s → key_of s ≠ key_of p) →
  UpdatePeerGroup tx p
  = match GetPeerGroup tx (PG_ID p) with
    | None => Err ErrNotExist
    | Some _ => Ok (set_tablePeerGroup tx (<[PG_ID p := p]> (tablePeerGroup tx)))
    end.
Proof.
  intros (_ & [Hid _] & _) Hpg Hsvc. unfold UpdatePeerGroup.
  assert (Hupd : commitPeerGroup tx (update (tablePeerGroup tx) p)
    = match GetPeerGroup tx (PG_ID p) with
      | None => Err ErrNotExist
      | Some _ =>
        Ok (set_tablePeerGroup tx (<[PG_ID p := p]> (tablePeerGroup tx)))
      end).
  { unfold update, GetPeerGroup. change (GetID p) with (PG_ID p).
    by destruct (tablePeerGroup tx !! PG_ID p). }
  destruct (lookupName (tablePeerGroup tx) _) as [existing|] eqn:E.
  - apply lookupName_Some in E as (k & Hk & Hn).
    pose proof (Hpg k existing Hk Hn) as ->.
    rewrite bool_decide_eq_false_2; [exact Hupd|].
    intros Hne. apply Hne. exact (Hid _ _ Hk).
  - rewrite (lookupName_free (tableService tx)) by exact Hsvc. exact Hupd.
Qed.

End peer_group_table.

Section peer_group_table_examples.
Import Api Store Examples.

Lemma CreatePeerGroup_free_name_witness :
  CreatePeerGroup (H:=asciiStrings) emptyTables pgAlpha
  = Ok (set_tablePeerGroup emptyTables {[ "P1" := pgAlpha ]}).
Proof.
  destruct (CreatePeerGroup_free_name (H:=asciiStrings) emptyTables pgAlpha)
    as [Hrun _].
  - intros k q Hk. cbn in Hk. by rewrite lookup_empty in Hk.
  - intros k s Hk. cbn in Hk. by rewrite lookup_empty in Hk.
  - exact Hrun.
Defined.

Lemma UpdatePeerGroup_free_name_witness :
  UpdatePeerGroup (H:=asciiStrings)
    (run (H:=asciiStrings) [OpCreatePeerGroup pgAlpha]) pgALPHA
  = Ok (set_tablePeerGroup emptyTables {[ "P1" := pgALPHA ]}).
Proof.
  assert (Hpg : tablePeerGroup (run (H:=asciiStrings)
                                  [OpCreatePeerGroup pgAlpha])
                = {[ "P1" := pgAlpha ]}) by reflexivity.
  assert (Hsv : tableService (run (H:=asciiStrings)
                                [OpCreatePeerGroup pgAlpha]) = ∅)
    by reflexivity.
  rewrite (UpdatePeerGroup_free_name (H:=asciiStrings)
             (run (H:=asciiStrings) [OpCreatePeerGroup pgAlpha]) pgALPHA).
  - reflexivity.
  - apply run_names_unique.
  - intros k q Hk _. rewrite Hpg in Hk.
    by apply lookup_singleton_Some in Hk as [<- _].
  - intros k s Hk. rewrite Hsv in Hk. by rewrite lookup_empty in Hk.
Defined.

End peer_group_table_examples.

(** ** manager/dispatcher: what holds of the assignment set after any
       calls *)

Section assignment_invariants.
Import Api Dispatcher.
Context `{lib : Lib}.

Implicit Types (a : assignmentSet) (k : typeAndID) (t : Task).

Lemma tud_assignSecret a readTx k t :
  tasksUsingDependency (assignSecret a readTx k t)
  = <[k := ∅]> (tasksUsingDependency a).
Proof. unfold assignSecret. by destruct (secret _ _ _). Qed.

Lemma tud_assignConfig a readTx k :
  tasksUsingDependency (assignConfig a readTx k)
  = <[k := ∅]> (tasksUsingDependency a).
Proof. unfold assignConfig. by destruct (Store.GetConfig _ _). Qed.

(** Filing a task under a key writes the key's set in one piece. *)
Lemma tud_addKey readTx t a k :
  tasksUsingDependency (addKey readTx t a k)
  = <[k := {[Task_ID t]} ∪ users a k]> (tasksUsingDependency a).
Proof.
  unfold addKey, register.
  destruct (unused a k) eqn:E; [|done]. apply unused_true in E.
  cbn [tasksUsingDependency set_tasksUsingDependency].
  destruct (objType k);
    rewrite ?users_assignSecret, ?users_assignConfig, decide_True by done;
    rewrite ?tud_assignSecret, ?tud_assignConfig, insert_insert_eq, E;
    reflexivity.
Qed.

Lemma tud_addMaterialized a configID data tid :
  tasksUsingDependency (addMaterialized a configID data tid)
  = <[configIDKey configID := {[tid]} ∪ users a (configIDKey configID)]>
      (tasksUsingDependency a).
Proof.
  unfold addMaterialized, register. fold (configIDKey configID).
  destruct (unused a (configIDKey configID)) eqn:E; [|done].
  apply unused_true in E.
  cbn [tasksUsingDependency set_tasksUsingDependency set_changes].
  unfold users at 1. cbn [tasksUsingDependency set_tasksUsingDependency
                          set_changes].
  by rewrite lookup_insert_eq, insert_insert_eq, E.
Qed.

Lemma nonEmptyIndex_noTaskKeys a : nonEmptyIndex a → noTaskKeys a.
Proof.
  intros Hidx k Hk. unfold users in Hk.
  destruct (tasksUsingDependency a !! k) as [S|] eqn:E; [|done].
  by destruct (Hidx k S E).
Qed.

Lemma nonEmptyIndex_addKey readTx t a k :
  isDependency k → nonEmptyIndex a → nonEmptyIndex (addKey readTx t a k).
Proof.
  intros Hdep Hidx k' S. rewrite tud_addKey.
  intros [[<- <-]|[_ Hk]]%lookup_insert_Some; [|by apply Hidx].
  split; [set_solver | done].
Qed.

Lemma nonEmptyIndex_addMaterialized a configID data tid :
  nonEmptyIndex a → nonEmptyIndex (addMaterialized a configID data tid).
Proof.
  intros Hidx k' S. rewrite tud_addMaterialized.
  intros [[<- <-]|[_ Hk]]%lookup_insert_Some; [|by apply Hidx].
  split; [set_solver | done].
Qed.

Lemma nonEmptyIndex_releaseDependency a k assignment tid :
  nonEmptyIndex a → nonEmptyIndex (releaseDependency a k assignment tid).1.
Proof.
  intros Hidx. unfold releaseDependency.
  set (a1 := set_tasksUsingDependency a _).
  assert (Hidx1 : ∀ k' S, tasksUsingDependency a1 !! k' = Some S →
                          (k' = k ∨ S ≠ ∅) ∧ isDependency k').
  { intros k' S. unfold a1. cbn [tasksUsingDependency set_tasksUsingDependency].
    destruct (decide (k' = k)) as [->|Hne].
    - rewrite lookup_alter_eq.
      destruct (tasksUsingDependency a !! k) as [S0|] eqn:E0; [|done].
      intros _. split; [by left|]. by destruct (Hidx k S0 E0).
    - rewrite lookup_alter_ne by done. intros Hk.
      destruct (Hidx k' S Hk). split; [by right | done]. }
  destruct (unused a1 k) eqn:E; cbn [negb fst].
  - intros k' S. cbn [tasksUsingDependency set_tasksUsingDependency set_changes].
    intros [Hne Hk]%lookup_delete_Some.
    destruct (Hidx1 k' S Hk) as [[?|?] ?]; done.
  - apply unused_false in E. intros k' S Hk.
    destruct (Hidx1 k' S Hk) as [[->|?] ?]; [|done].
    split; [|done]. unfold users in E. by rewrite Hk in E.
Qed.

(** The shape of addTaskDependencies and of releaseTaskDependencies, for
    any property that their steps keep. *)
Lemma addCertIssuanceDependencies_preserves (I : assignmentSet → Prop)
    readTx t hosts a certIssuance :
  (∀ a configID data, I a → I (addMaterialized a configID data (Task_ID t))) →
  I a → I (addCertIssuanceDependencies readTx t hosts a certIssuance).
Proof.
  intros Hmat HI. unfold addCertIssuanceDependencies.
  destruct (Store.GetCA _ _) as [certAuthority|]; [|done].
  destruct (issueCertificate _ _ _) as [[key cert]|]; [|done].
  by do 3 apply Hmat.
Qed.

Lemma addTaskDependencies_preserves (I : assignmentSet → Prop)
    readTx t a a' :
  (∀ a k, isDependency k → I a → I (addKey readTx t a k)) →
  (∀ a configID data, I a → I (addMaterialized a configID data (Task_ID t))) →
  noTaskKeys a → I a →
  addTaskDependencies readTx t a = Some a' → I a'.
Proof.
  intros Hkey Hmat Hno HI. unfold addTaskDependencies.
  change (match GetContainer (Task_Spec t) with
          | Some c => Secrets c | None => [] end) with (containerSecrets t).
  change (match GetContainer (Task_Spec t) with
          | Some c => Configs c | None => [] end) with (containerConfigs t).
  rewrite declared_phase by done.
  assert (H1 : I (foldl (addKey readTx t) a (declaredKeys t))).
  { assert (Hdep : ∀ k, k ∈ declaredKeys t → isDependency k)
      by apply declaredKeys_dependency.
    clear Hno. revert a HI Hdep.
    induction (declaredKeys t) as [|k l IH]; intros a HI Hdep; [done|].
    cbn [foldl]. apply IH.
    - apply Hkey; [apply Hdep; left | done].
    - intros k' Hk'. apply Hdep. by right. }
  set (a1 := foldl (addKey readTx t) a (declaredKeys t)) in *.
  assert (H2 : I match GetContainer (Task_Spec t) with
                 | Some c =>
                   if bool_decide (CertificateIssuances c ≠ [])
                   then foldl (addCertIssuanceDependencies readTx t
                                 (getTaskCertHosts readTx t)) a1
                          (CertificateIssuances c)
                   else a1
                 | None => a1
                 end).
  { destruct (GetContainer (Task_Spec t)) as [c|]; [|done].
    destruct (bool_decide _); [|done].
    generalize (getTaskCertHosts readTx t). intros hosts.
    revert H1. generalize a1.
    induction (CertificateIssuances c) as [|ci l IH]; intros a2 H2; [done|].
    cbn [foldl]. apply IH.
    by apply addCertIssuanceDependencies_preserves. }
  revert H2. generalize (match GetContainer (Task_Spec t) with
                         | Some c =>
                           if bool_decide (CertificateIssuances c ≠ [])
                           then foldl (addCertIssuanceDependencies readTx t
                                         (getTaskCertHosts readTx t)) a1
                                  (CertificateIssuances c)
                           else a1
                         | None => a1
                         end).
  intros a2 H2. unfold maybeAddStaticServiceDependencies.
  destruct (bool_decide (ServiceID t = "")); [by intros [= <-]|].
  destruct (Store.GetService _ _) as [service|]; [|by intros [= <-]].
  destruct (GetStatic _) as [static|]; [|by intros [= <-]].
  destruct (collectPeers _ _ _) as [peerAddrs|]; [|done].
  cbn [mbind option_bind].
  destruct (firstAddress service) as [address|]; [|done].
  cbn [mbind option_bind]. intros [= <-]. by apply Hmat.
Qed.

Lemma releaseTaskDependencies_preserves (I : assignmentSet → Prop) a t :
  (∀ a k, isDependency k → I a →
          I (releaseDependency a k (minimalFor k) (Task_ID t)).1) →
  I a → I (releaseTaskDependencies a t).1.
Proof.
  intros Hrel HI. rewrite releaseTaskDependencies_keys.
  assert (Hdep : ∀ k, k ∈ releasedKeys t → isDependency k)
    by apply releasedKeys_dependency.
  revert HI Hdep. generalize false. generalize a.
  induction (releasedKeys t) as [|k l IH]; intros a0 b HI Hdep; [done|].
  cbn [foldl].
  destruct (releaseKey (Task_ID t) (a0, b) k) as [a1 b1] eqn:E.
  apply IH.
  - replace a1 with (releaseKey (Task_ID t) (a0, b) k).1 by (by rewrite E).
    rewrite releaseKey_fst. apply Hrel; [apply Hdep; left | done].
  - intros k' Hk'. apply Hdep. by right.
Qed.

Lemma nonEmptyIndex_addTaskDependencies readTx t a a' :
  nonEmptyIndex a → addTaskDependencies readTx t a = Some a' →
  nonEmptyIndex a'.
Proof.
  intros Hidx. apply (addTaskDependencies_preserves nonEmptyIndex);
    [intros; by apply nonEmptyIndex_addKey
    |intros; by apply nonEmptyIndex_addMaterialized
    |by apply nonEmptyIndex_noTaskKeys | done].
Qed.

Lemma nonEmptyIndex_releaseTaskDependencies a t :
  nonEmptyIndex a → nonEmptyIndex (releaseTaskDependencies a t).1.
Proof.
  apply (releaseTaskDependencies_preserves nonEmptyIndex).
  intros; by apply nonEmptyIndex_releaseDependency.
Qed.

Lemma tasksMap_addTaskDependencies readTx t a a' :
  nonEmptyIndex a → addTaskDependencies readTx t a = Some a' →
  tasksMap a' = tasksMap a.
Proof.
  intros Hidx Hadd.
  by destruct (addTaskDependencies_extends readTx t a a'
                 (nonEmptyIndex_noTaskKeys a Hidx) Hadd) as (? & _).
Qed.

Lemma tasksAdmitted_insert (m : gmap string Task) t :
  (∀ tid T, m !! tid = Some T →
     Task_ID T = tid ∧ state_le TaskStateAssigned (State (Status T)) = true) →
  state_lt (State (Status t)) TaskStateAssigned = false →
  ∀ tid T, <[Task_ID t := t]> m !! tid = Some T →
    Task_ID T = tid ∧ state_le TaskStateAssigned (State (Status T)) = true.
Proof.
  intros Hm Hst tid T [[<- <-]|[_ Hk]]%lookup_insert_Some; [|by apply Hm].
  split; [done|]. rewrite state_lt_le in Hst. by destruct (state_le _ _).
Qed.

Lemma wellFormed_call a c a' :
  wellFormed a → call a c = Some a' → wellFormed a'.
Proof.
  intros [Hidx Htasks] Hcall. destruct c as [readTx t|t]; cbn in Hcall.
  - unfold addOrUpdateTask in Hcall.
    destruct (state_lt (State (Status t)) TaskStateAssigned) eqn:Hst.
    { by simplify_eq/=. }
    pose proof (tasksAdmitted_insert (tasksMap a) t Htasks Hst) as Hins.
    destruct (tasksMap a !! Task_ID t) as [old|] eqn:Hstored.
    + destruct (TasksEqualStable old t
                && state_lt TaskStateAssigned (State (Status t))).
      * destruct (state_lt TaskStateRunning (State (Status t))).
        -- simplify_eq/=. split.
           ++ by apply nonEmptyIndex_releaseTaskDependencies.
           ++ unfold tasksAdmitted.
              by rewrite tasksMap_releaseTaskDependencies.
        -- by simplify_eq/=.
      * by simplify_eq/=.
    + destruct (state_le (State (Status t)) TaskStateRunning).
      * destruct (addTaskDependencies readTx t a) as [a1|] eqn:Hadd; [|done].
        simplify_eq/=. split.
        -- exact (nonEmptyIndex_addTaskDependencies readTx t a a1 Hidx Hadd).
        -- unfold tasksAdmitted. cbn [tasksMap set_changes set_tasksMap].
           by rewrite (tasksMap_addTaskDependencies readTx t a a1).
      * by simplify_eq/=.
  - simplify_eq/=. unfold removeTask.
    destruct (tasksMap a !! Task_ID t) as [old|] eqn:Hstored; [|done].
    cbn [fst]. split.
    + by apply nonEmptyIndex_releaseTaskDependencies.
    + unfold tasksAdmitted. rewrite tasksMap_releaseTaskDependencies.
      cbn [tasksMap set_changes set_tasksMap].
      intros tid T [_ Hk]%lookup_delete_Some. by apply Htasks.
Qed.

(** X17: after any sequence of addOrUpdateTask and removeTask calls on a
    new assignment set, whatever the tasks and the stores are, the
    reverse index holds no empty set and no key of kind TASK, and every
    stored task sits under its own id and is Assigned or beyond. *)
Theorem calls_wellFormed cs a :
  calls newAssignmentSet cs = Some a → wellFormed a.
Proof.
  assert (Hnew : wellFormed newAssignmentSet).
  { split; intros ? ?; cbn; by rewrite lookup_empty. }
  revert Hnew. generalize newAssignmentSet.
  induction cs as [|c cs IH]; intros a0 H0; cbn [calls].
  - by intros [= <-].
  - destruct (call a0 c) as [a1|] eqn:Hcall; [|done].
    cbn [mbind option_bind]. apply IH. by eapply wellFormed_call.
Qed.

(** *** The pending changes *)

Lemma changeKey_minimalFor k :
  isDependency k → changeKey (removeChange (minimalFor k)) = k.
Proof. destruct k as [i []]; [by intros []|done..]. Qed.

Lemma changesKeyed_addKey readTx t a k :
  keyedStore readTx → isDependency k →
  changesKeyed a → changesKeyed (addKey readTx t a k).
Proof.
  intros [Hsec Hcfg] Hdep Hch k' c. rewrite changes_addKey.
  destruct (unused a k); [|by apply Hch].
  destruct (materialize readTx t k) as [c0|] eqn:Hmat; [|by apply Hch].
  intros [[<- <-]|[_ Hk]]%lookup_insert_Some; [|by apply Hch].
  unfold materialize in Hmat. destruct k as [i []]; [by destruct Hdep|..];
    cbn [objType id] in Hmat.
  - unfold secret in Hmat.
    destruct (Store.GetSecret readTx i) as [s|] eqn:Hs; [|done].
    apply Hsec in Hs.
    destruct (Secret_Driver (Secret_Spec s)).
    + destruct (NewSecretDriver d) as [drv|]; [|done].
      cbn [mbind option_bind] in Hmat.
      destruct (SecretDriver_Get drv _ t) as [value|]; [|done].
      cbn [mbind option_bind] in Hmat.
      destruct (ValidateSecretPayload value); [|done].
      simplify_eq/=. done.
    + simplify_eq/=. done.
  - destruct (Store.GetConfig readTx i) as [c1|] eqn:Hc; [|done].
    apply Hcfg in Hc. simplify_eq/=. done.
Qed.

Lemma changesKeyed_addMaterialized a configID data tid :
  changesKeyed a → changesKeyed (addMaterialized a configID data tid).
Proof.
  intros Hch k' c. rewrite changes_addMaterialized.
  destruct (unused a _); [|by apply Hch].
  intros [[<- <-]|[_ Hk]]%lookup_insert_Some; [done | by apply Hch].
Qed.

Lemma changesKeyed_releaseDependency a k tid :
  isDependency k → changesKeyed a →
  changesKeyed (releaseDependency a k (minimalFor k) tid).1.
Proof.
  intros Hdep Hch k' c. rewrite changes_releaseDependency.
  destruct (decide _); [|by apply Hch].
  intros [[<- <-]|[_ Hk]]%lookup_insert_Some; [|by apply Hch].
  by apply changeKey_minimalFor.
Qed.

Lemma changesKeyed_call a c a' :
  keyedCall c → nonEmptyIndex a → changesKeyed a →
  call a c = Some a' → changesKeyed a'.
Proof.
  intros Hkeyed Hidx Hch Hcall.
  assert (Hrel : ∀ a0 t, changesKeyed a0 →
                         changesKeyed (releaseTaskDependencies a0 t).1).
  { intros a0 t. apply (releaseTaskDependencies_preserves changesKeyed).
    intros; by apply changesKeyed_releaseDependency. }
  assert (Hsend : ∀ a0 t, changesKeyed a0 →
            changesKeyed
              (set_changes (set_tasksMap a0 (<[Task_ID t := t]> (tasksMap a0)))
                 (<[taskKey (Task_ID t) := updateTask t]> (changes a0)))).
  { intros a0 t H0 k' c'. cbn [changes set_changes].
    intros [[<- <-]|[_ Hk]]%lookup_insert_Some; [done | by apply H0]. }
  destruct c as [readTx t|t]; cbn in Hcall, Hkeyed.
  - unfold addOrUpdateTask in Hcall.
    destruct (state_lt (State (Status t)) TaskStateAssigned).
    { by simplify_eq/=. }
    destruct (tasksMap a !! Task_ID t) as [old|].
    + destruct (TasksEqualStable old t
                && state_lt TaskStateAssigned (State (Status t))).
      * destruct (state_lt TaskStateRunning (State (Status t))).
        -- simplify_eq/=. by apply Hrel.
        -- by simplify_eq/=.
      * simplify_eq/=. by apply Hsend.
    + destruct (state_le (State (Status t)) TaskStateRunning).
      * destruct (addTaskDependencies readTx t a) as [a1|] eqn:Hadd; [|done].
        simplify_eq/=. apply Hsend.
        revert Hadd. apply (addTaskDependencies_preserves changesKeyed);
          [intros; by apply changesKeyed_addKey
          |intros; by apply changesKeyed_addMaterialized
          |by apply nonEmptyIndex_noTaskKeys | done].
      * simplify_eq/=. by apply Hsend.
  - simplify_eq/=. unfold removeTask.
    destruct (tasksMap a !! Task_ID t) as [old|]; [|done].
    cbn [fst]. apply Hrel. intros k' c'.
    cbn [changes set_changes set_tasksMap].
    intros [[<- <-]|[_ Hk]]%lookup_insert_Some; [done | by apply Hch].
Qed.

Lemma calls_changesKeyed cs : ∀ a0 a,
  Forall keyedCall cs → wellFormed a0 → changesKeyed a0 →
  calls a0 cs = Some a → changesKeyed a.
Proof.
  induction cs as [|c cs IH]; intros a0 a Hk Hwf Hch; cbn [calls].
  - by intros [= <-].
  - apply Forall_cons in Hk as [Hc Hk].
    destruct (call a0 c) as [a1|] eqn:Hcall; [|done].
    cbn [mbind option_bind]. apply IH; [done|..].
    + by eapply wellFormed_call.
    + eapply changesKeyed_call; [done|apply Hwf|done..].
Qed.

(** X18: after any calls made under stores that keep secrets and configs
    under their ids, every pending change is filed under the kind and id
    of its payload, so the message carries at most one change for each
    object; building the message leaves nothing pending and touches
    neither the tasks nor the reverse index, so the next message is
    empty. *)
Theorem message_one_change_per_object cs a :
  Forall keyedCall cs →
  calls newAssignmentSet cs = Some a →
  changesKeyed a
  ∧ NoDup (changeKey <$> (message a).1)
  ∧ (∀ c, c ∈ (message a).1 ↔ changes a !! changeKey c = Some c)
  ∧ (message a).2 = set_changes a ∅
  ∧ (message (message a).2).1 = [].
Proof.
  intros Hk Hcalls.
  assert (Hch : changesKeyed a).
  { eapply calls_changesKeyed; [exact Hk| | |exact Hcalls].
    - split; intros ? ?; cbn; by rewrite lookup_empty.
    - intros ? ?; cbn; by rewrite lookup_empty. }
  split; [exact Hch|]. unfold message. cbn [fst snd changes set_changes].
  split; [|split; [|split; [done|]]].
  - rewrite <- list_fmap_compose.
    replace (changeKey ∘ snd <$> map_to_list (changes a))
      with (fst <$> map_to_list (changes a)).
    { apply NoDup_fst_map_to_list. }
    apply Forall_fmap_ext, Forall_forall. intros [k c] Hkc.
    apply elem_of_map_to_list in Hkc. cbn. symmetry. by apply Hch.
  - intros c. rewrite list_elem_of_fmap. split.
    + intros ([k c'] & -> & Hin). apply elem_of_map_to_list in Hin.
      cbn. by rewrite (Hch k c' Hin).
    + intros Hc. exists (changeKey c, c). split; [done|].
      by apply elem_of_map_to_list.
  - by rewrite map_to_list_empty.
Qed.

(** *** Removing, re-sending and the round trip *)

(** X19: removing a task twice: the second removeTask finds the task
    gone, reports no modification and changes nothing. *)
Theorem removeTask_twice a t :
  removeTask (removeTask a t).1 t = ((removeTask a t).1, false).
Proof.
  unfold removeTask at 2 3.
  destruct (tasksMap a !! Task_ID t) as [old|] eqn:Hstored.
  - cbn [fst]. unfold removeTask.
    rewrite tasksMap_releaseTaskDependencies.
    cbn [tasksMap set_changes set_tasksMap].
    by rewrite lookup_delete_eq.
  - cbn [fst]. unfold removeTask. by rewrite Hstored.
Qed.

(** X20: sending again the very task the set stores, when stable equality
    is reflexive on it: between Assigned and Running (Assigned excluded)
    nothing at all changes and no modification is reported; a task that
    is still Assigned is sent again. *)
Theorem addOrUpdateTask_same_task readTx a t :
  tasksMap a !! Task_ID t = Some t →
  TasksEqualStable t t = true →
  state_le TaskStateAssigned (State (Status t)) = true →
  state_le (State (Status t)) TaskStateRunning = true →
  addOrUpdateTask readTx a t
  = if state_lt TaskStateAssigned (State (Status t))
    then Some (a, false)
    else Some (set_changes a
                 (<[taskKey (Task_ID t) := updateTask t]> (changes a)),
               true).
Proof.
  intros Hstored Heq Hge Hle. unfold addOrUpdateTask.
  rewrite state_lt_le, Hge. cbn [negb]. rewrite Hstored, Heq.
  cbn [andb].
  assert (Hsame : set_tasksMap a (<[Task_ID t := t]> (tasksMap a)) = a).
  { rewrite insert_id by done. by destruct a. }
  destruct (state_lt TaskStateAssigned (State (Status t))).
  - rewrite (state_lt_le TaskStateRunning), Hle. cbn [negb].
    by rewrite Hsame.
  - by rewrite Hsame.
Qed.

(** X21: admitting a task the set does not know and removing it again
    gives back the stored tasks and every set of the reverse index, when
    the task lists its synthesized files; the removal is reported as a
    modification and leaves a Remove pending for the task. *)
Theorem add_then_remove_restores_index readTx a t a1 b :
  wellFormed a →
  tasksMap a !! Task_ID t = None →
  (∀ k, Task_ID t ∉ users a k) →
  state_le (State (Status t)) TaskStateRunning = true →
  listsSynthesized readTx t →
  addOrUpdateTask readTx a t = Some (a1, b) →
  state_le TaskStateAssigned (State (Status t)) = true →
  b = true
  ∧ tasksMap a1 = <[Task_ID t := t]> (tasksMap a)
  ∧ (removeTask a1 t).2 = true
  ∧ tasksMap (removeTask a1 t).1 = tasksMap a
  ∧ (∀ k, users (removeTask a1 t).1 k = users a k)
  ∧ changes (removeTask a1 t).1 !! taskKey (Task_ID t)
    = Some (removeChange (Assignment_Task (minimalTask (Task_ID t)))).
Proof.
  intros [Hidx Htasks] Hfresh Hnot Hle Hlists Hadd Hge.
  pose proof (nonEmptyIndex_noTaskKeys a Hidx) as Hno.
  unfold addOrUpdateTask in Hadd.
  rewrite state_lt_le, Hge in Hadd. cbn [negb] in Hadd.
  rewrite Hfresh, Hle in Hadd.
  destruct (addTaskDependencies readTx t a) as [a'|] eqn:Hdeps; [|done].
  cbn [mbind option_bind] in Hadd. injection Hadd as <- <-.
  pose proof (addTaskDependencies_extends readTx t a a' Hno Hdeps)
    as (Htm & Hsub & Hsup & Hout & _).
  split; [done|].
  split; [cbn [tasksMap set_changes set_tasksMap]; by rewrite Htm|].
  set (a1 := set_changes _ _).
  assert (Hst1 : tasksMap a1 !! Task_ID t = Some t).
  { unfold a1. cbn [tasksMap set_changes set_tasksMap].
    by rewrite lookup_insert_eq. }
  destruct (removeTask_stored a1 t t Hst1) as (Htm' & Hu & _).
  split; [unfold removeTask; by rewrite Hst1|].
  split.
  { rewrite Htm'. unfold a1. cbn [tasksMap set_changes set_tasksMap].
    rewrite Htm, delete_insert_id; done. }
  split.
  - intros k. rewrite Hu.
    change (users a1 k) with (users a' k).
    specialize (Hsub k). specialize (Hsup k). specialize (Hnot k).
    destruct (decide (k ∈ releasedKeys t)) as [Hin|Hnin].
    + set_solver.
    + apply Hout. intros Hfiled. apply Hnin.
      by apply (filedKeys_released readTx).
  - unfold removeTask. rewrite Hst1. cbn [fst].
    rewrite changes_releaseTaskDependencies.
    rewrite decide_False.
    + cbn [changes set_changes set_tasksMap]. by rewrite lookup_insert_eq.
    + intros [Hin _]. by apply releasedKeys_dependency in Hin.
Qed.

End assignment_invariants.

Section assignment_invariants_examples.
Import Api Dispatcher Examples.

Lemma calls_afterBoth :
  calls (H:=exampleLib) newAssignmentSet
    [CallAddOrUpdate storeX taskT; CallAddOrUpdate storeX taskT']
  = Some afterBoth.
Proof. reflexivity. Qed.

Lemma calls_wellFormed_witness : wellFormed afterBoth.
Proof.
  apply (calls_wellFormed (lib:=exampleLib)
           [CallAddOrUpdate storeX taskT; CallAddOrUpdate storeX taskT']).
  exact calls_afterBoth.
Defined.

Lemma storeX_keyed : keyedStore storeX.
Proof.
  split; intros i s Hi; cbn in Hi.
  - by apply lookup_singleton_Some in Hi as [<- <-].
  - by rewrite lookup_empty in Hi.
Qed.

Lemma message_one_change_per_object_witness :
  NoDup (changeKey <$> (message afterBoth).1)
  ∧ (message (message afterBoth).2).1 = [].
Proof.
  destruct (message_one_change_per_object (lib:=exampleLib)
              [CallAddOrUpdate storeX taskT; CallAddOrUpdate storeX taskT']
              afterBoth)
    as (_ & Hnd & _ & _ & Hempty).
  - apply Forall_cons. split; [exact storeX_keyed|].
    apply Forall_cons. split; [exact storeX_keyed | apply Forall_nil_2].
  - exact calls_afterBoth.
  - split; [exact Hnd | exact Hempty].
Defined.

Lemma addOrUpdateTask_same_task_witness :
  addOrUpdateTask (H:=exampleLib) storeX storingRunning taskRunning
  = Some (storingRunning, false).
Proof.
  apply (addOrUpdateTask_same_task (lib:=exampleLib) storeX storingRunning
           taskRunning); reflexivity.
Defined.

Lemma add_then_remove_restores_index_witness :
  tasksMap (removeTask afterT taskT).1 = ∅
  ∧ users (removeTask afterT taskT).1 keyX = ∅.
Proof.
  destruct (add_then_remove_restores_index (lib:=exampleLib) storeX
              newAssignmentSet taskT afterT true)
    as (_ & _ & _ & Htm & Hu & _).
  - split; intros ? ?; cbn; by rewrite lookup_empty.
  - reflexivity.
  - intros k. unfold users. cbn. rewrite lookup_empty. cbn. set_solver.
  - reflexivity.
  - intros k Hk. cbn in Hk. by apply elem_of_nil in Hk.
  - reflexivity.
  - reflexivity.
  - split; [exact Htm | exact (Hu keyX)].
Defined.

End assignment_invariants_examples.

(** ** manager/dispatcher: certificate hosts, certificate files and the
       panics of the peer-group synthesis *)

Section certificates.
Import Api Dispatcher.
Context `{lib : Lib}.

Implicit Types (a : assignmentSet) (k : typeAndID) (t task : Task)
  (hs : gset string).

Lemma getTaskCertHosts_stages readTx task :
  getTaskCertHosts readTx task
  = if bool_decide (Task_Networks task = []) then []
    else
      let hostSet := foldl (attachmentHosts task) ∅ (Task_Networks task) in
      let hostSet :=
        match Task_Endpoint task with
        | None => hostSet
        | Some endpoint =>
          foldl (virtualIPHosts task) hostSet (VirtualIPs endpoint)
        end in
      let hostSet :=
        if bool_decide (ServiceID task ≠ "") then
          match Store.GetService readTx (ServiceID task) with
          | None => hostSet
          | Some service => serviceHosts task service hostSet
          end
        else hostSet in
      elements hostSet.
Proof. reflexivity. Qed.

Lemma foldl_grows {A} (f : gset string → A → gset string) l :
  (∀ hs x, hs ⊆ f hs x) → ∀ hs, hs ⊆ foldl f hs l.
Proof.
  intros Hf. induction l as [|x l IH]; intros hs; cbn [foldl]; [done|].
  etrans; [apply (Hf hs x) | apply IH].
Qed.

Lemma foldl_adds {A} (f : gset string → A → gset string) l h x :
  (∀ hs y, hs ⊆ f hs y) → x ∈ l → (∀ hs, h ∈ f hs x) →
  ∀ hs, h ∈ foldl f hs l.
Proof.
  intros Hf Hin Hx. induction l as [|y l IH]; intros hs; cbn [foldl].
  - by apply elem_of_nil in Hin.
  - apply elem_of_cons in Hin as [<-|Hin]; [|by apply IH].
    apply (foldl_grows f l Hf). apply Hx.
Qed.

Lemma addParsed_grows address hs : hs ⊆ addParsed address hs.
Proof. unfold addParsed. destruct (ParseCIDR address); set_solver. Qed.

Lemma attachmentHosts_grows task hs attachment :
  hs ⊆ attachmentHosts task hs attachment.
Proof.
  unfold attachmentHosts. cbv zeta.
  etrans; [|apply foldl_grows; intros; apply addParsed_grows].
  apply foldl_grows. intros; set_solver.
Qed.

Lemma attachmentHosts_alias task hs attachment alias :
  alias ∈ Aliases attachment → alias ∈ attachmentHosts task hs attachment.
Proof.
  intros Hin. unfold attachmentHosts. cbv zeta.
  apply (foldl_grows _ (Addresses attachment));
    [intros; apply addParsed_grows|].
  apply (foldl_adds _ (Aliases attachment) alias alias);
    [intros; set_solver | done | intros; set_solver].
Qed.

Lemma attachmentHosts_address task hs attachment address ip :
  address ∈ Addresses attachment → ParseCIDR address = Some ip →
  ip ∈ attachmentHosts task hs attachment.
Proof.
  intros Hin Hip. unfold attachmentHosts. cbv zeta.
  apply (foldl_adds _ (Addresses attachment) ip address);
    [intros; apply addParsed_grows | done |].
  intros hs'. unfold addParsed. rewrite Hip. set_solver.
Qed.

Lemma virtualIPHosts_grows task hs virtualIP :
  hs ⊆ virtualIPHosts task hs virtualIP.
Proof.
  unfold virtualIPHosts. cbv zeta.
  etrans; [|apply addParsed_grows]. set_solver.
Qed.

Lemma serviceHosts_grows task service hs :
  {[Name (Service_Annotations (Service_Spec service))]} ∪ hs
  ⊆ serviceHosts task service hs.
Proof.
  unfold serviceHosts. cbv zeta. apply foldl_grows. intros; set_solver.
Qed.

Lemma serviceStage_grows readTx task hs :
  hs ⊆ if bool_decide (ServiceID task ≠ "") then
         match Store.GetService readTx (ServiceID task) with
         | None => hs
         | Some service => serviceHosts task service hs
         end
       else hs.
Proof.
  destruct (bool_decide _); [|done].
  destruct (Store.GetService _ _) as [service|]; [|done].
  etrans; [|apply serviceHosts_grows]. set_solver.
Qed.

(** X22: getTaskCertHosts lists no host twice; a task without network
    attachments gets no host at all, not even its service's name; a task
    with attachments gets every alias, the address of every attachment
    address and virtual IP that parses, every virtual IP name, and the
    name of its service if the store has it. *)
Theorem getTaskCertHosts_hosts readTx task :
  NoDup (getTaskCertHosts readTx task)
  ∧ (Task_Networks task = [] → getTaskCertHosts readTx task = [])
  ∧ (Task_Networks task ≠ [] →
     (∀ attachment alias,
        attachment ∈ Task_Networks task → alias ∈ Aliases attachment →
        alias ∈ getTaskCertHosts readTx task)
     ∧ (∀ attachment address ip,
          attachment ∈ Task_Networks task → address ∈ Addresses attachment →
          ParseCIDR address = Some ip →
          ip ∈ getTaskCertHosts readTx task)
     ∧ (∀ endpoint virtualIP,
          Task_Endpoint task = Some endpoint →
          virtualIP ∈ VirtualIPs endpoint →
          VIP_Name virtualIP ∈ getTaskCertHosts readTx task)
     ∧ (∀ service,
          ServiceID task ≠ "" →
          Store.GetService readTx (ServiceID task) = Some service →
          Name (Service_Annotations (Service_Spec service))
          ∈ getTaskCertHosts readTx task)).
Proof.
  rewrite getTaskCertHosts_stages. cbv zeta.
  set (h1 := foldl (attachmentHosts task) ∅ (Task_Networks task)).
  set (h2 := match Task_Endpoint task with
             | None => h1
             | Some endpoint =>
               foldl (virtualIPHosts task) h1 (VirtualIPs endpoint)
             end).
  set (h3 := if bool_decide (ServiceID task ≠ "") then
               match Store.GetService readTx (ServiceID task) with
               | None => h2
               | Some service => serviceHosts task service h2
               end
             else h2).
  assert (H12 : h1 ⊆ h2).
  { unfold h2. destruct (Task_Endpoint task); [|done].
    apply foldl_grows. intros; apply virtualIPHosts_grows. }
  assert (H23 : h2 ⊆ h3) by apply serviceStage_grows.
  split; [|split].
  - destruct (bool_decide (Task_Networks task = []));
      [apply NoDup_nil_2 | apply NoDup_elements].
  - intros Hnil. by rewrite bool_decide_eq_true_2.
  - intros Hne. rewrite bool_decide_eq_false_2 by done.
    split; [|split; [|split]].
    + intros attachment alias Hatt Halias.
      apply elem_of_elements, H23, H12.
      apply (foldl_adds _ (Task_Networks task) alias attachment);
        [intros; apply attachmentHosts_grows | done |].
      intros hs. by apply attachmentHosts_alias.
    + intros attachment address ip Hatt Haddr Hip.
      apply elem_of_elements, H23, H12.
      apply (foldl_adds _ (Task_Networks task) ip attachment);
        [intros; apply attachmentHosts_grows | done |].
      intros hs. by eapply attachmentHosts_address.
    + intros endpoint virtualIP He Hvip.
      apply elem_of_elements, H23. unfold h2. rewrite He.
      apply (foldl_adds _ (VirtualIPs endpoint) _ virtualIP);
        [intros; apply virtualIPHosts_grows | done |].
      intros hs. unfold virtualIPHosts. cbv zeta.
      apply addParsed_grows. set_solver.
    + intros service Hsid Hsvc. apply elem_of_elements. unfold h3.
      rewrite bool_decide_eq_true_2 by done. rewrite Hsvc.
      apply serviceHosts_grows. set_solver.
Qed.

(** The three files of one issuance have different ids. *)
Lemma issuance_keys_differ t certIssuance :
  let file suffix :=
    configIDKey (Task_ID t +:+ "-" +:+ CertificateAuthorityID certIssuance
                 +:+ suffix) in
  file "-issue-ca" ≠ file "-issue-key"
  ∧ file "-issue-ca" ≠ file "-issue-cert"
  ∧ file "-issue-key" ≠ file "-issue-cert".
Proof.
  intros file. unfold file, configIDKey.
  repeat split; intros [= Heq];
    do 3 apply (inj (String.append _)) in Heq; done.
Qed.

(** X23: a certificate issuance whose authority is in the store and whose
    signing succeeds, for a task whose three file keys have no user yet:
    the ca file carries the authority's certificate, the key and cert
    files carry the issued key and certificate, each as a pending Update,
    the task becomes the only user of the three keys, and nothing else
    changes. *)
Theorem addCertIssuanceDependencies_files readTx task hosts a certIssuance
    certAuthority key cert :
  Store.GetCA readTx (CertificateAuthorityID certIssuance)
  = Some certAuthority →
  issueCertificate certAuthority (Task_ID task) hosts = Some (key, cert) →
  (∀ k, k ∈ issuanceKeys task certIssuance → users a k = ∅) →
  let a' := addCertIssuanceDependencies readTx task hosts a certIssuance in
  let file suffix :=
    Task_ID task +:+ "-" +:+ CertificateAuthorityID certIssuance
    +:+ suffix in
  changes a' !! configIDKey (file "-issue-ca")
  = Some (updateConfig (file "-issue-ca") (CA_Cert certAuthority))
  ∧ changes a' !! configIDKey (file "-issue-key")
    = Some (updateConfig (file "-issue-key") key)
  ∧ changes a' !! configIDKey (file "-issue-cert")
    = Some (updateConfig (file "-issue-cert") cert)
  ∧ (∀ k, users a' k
          = if decide (k ∈ issuanceKeys task certIssuance)
            then {[Task_ID task]} else users a k)
  ∧ (∀ k, k ∉ issuanceKeys task certIssuance →
          changes a' !! k = changes a !! k)
  ∧ tasksMap a' = tasksMap a.
Proof.
  intros Hca Hissue Hfree a' file.
  destruct (issuance_keys_differ task certIssuance) as (H12 & H13 & H23).
  fold file in H12, H13, H23.
  unfold a', addCertIssuanceDependencies. rewrite Hca, Hissue.
  fold (file "-issue-ca") (file "-issue-key") (file "-issue-cert").
  set (k1 := configIDKey (file "-issue-ca")) in *.
  set (k2 := configIDKey (file "-issue-key")) in *.
  set (k3 := configIDKey (file "-issue-cert")) in *.
  set (a1 := addMaterialized a (file "-issue-ca") (CA_Cert certAuthority)
               (Task_ID task)).
  set (a2 := addMaterialized a1 (file "-issue-key") key (Task_ID task)).
  set (a3 := addMaterialized a2 (file "-issue-cert") cert (Task_ID task)).
  assert (Hkeys : ∀ k, k ∈ issuanceKeys task certIssuance
                       ↔ k = k1 ∨ k = k2 ∨ k = k3).
  { intros k. unfold issuanceKeys. cbv zeta.
    fold (file "-issue-ca") (file "-issue-key") (file "-issue-cert").
    fold k1 k2 k3. rewrite !elem_of_cons, elem_of_nil. tauto. }
  assert (Hf1 : users a k1 = ∅) by (apply Hfree, Hkeys; auto).
  assert (Hf2 : users a k2 = ∅) by (apply Hfree, Hkeys; auto).
  assert (Hf3 : users a k3 = ∅) by (apply Hfree, Hkeys; auto).
  assert (Hu1 : ∀ k, users a1 k
                     = if decide (k1 = k) then {[Task_ID task]} ∪ users a k
                       else users a k)
    by (intros; apply users_addMaterialized).
  assert (Hu2 : ∀ k, users a2 k
                     = if decide (k2 = k) then {[Task_ID task]} ∪ users a1 k
                       else users a1 k)
    by (intros; apply users_addMaterialized).
  assert (Hu3 : ∀ k, users a3 k
                     = if decide (k3 = k) then {[Task_ID task]} ∪ users a2 k
                       else users a2 k)
    by (intros; apply users_addMaterialized).
  assert (Hc1 : changes a1
                = <[k1 := updateConfig (file "-issue-ca")
                            (CA_Cert certAuthority)]> (changes a)).
  { unfold a1. rewrite changes_addMaterialized. fold k1.
    by rewrite (proj2 (unused_true a k1) Hf1). }
  assert (Hc2 : changes a2
                = <[k2 := updateConfig (file "-issue-key") key]> (changes a1)).
  { unfold a2. rewrite changes_addMaterialized. fold k2.
    rewrite (proj2 (unused_true a1 k2)); [done|].
    rewrite Hu1, decide_False by done. exact Hf2. }
  assert (Hc3 : changes a3
                = <[k3 := updateConfig (file "-issue-cert") cert]>
                    (changes a2)).
  { unfold a3. rewrite changes_addMaterialized. fold k3.
    rewrite (proj2 (unused_true a2 k3)); [done|].
    rewrite Hu2, decide_False by done.
    rewrite Hu1, decide_False by done. exact Hf3. }
  split; [|split; [|split; [|split; [|split]]]].
  - rewrite Hc3, lookup_insert_ne by (by apply not_eq_sym).
    rewrite Hc2, lookup_insert_ne by (by apply not_eq_sym).
    by rewrite Hc1, lookup_insert_eq.
  - rewrite Hc3, lookup_insert_ne by (by apply not_eq_sym).
    by rewrite Hc2, lookup_insert_eq.
  - by rewrite Hc3, lookup_insert_eq.
  - intros k. rewrite Hu3, Hu2, Hu1.
    destruct (decide (k ∈ issuanceKeys task certIssuance)) as [Hin|Hnin].
    + apply Hkeys in Hin as [-> | [-> | ->]].
      * rewrite decide_False by (by apply not_eq_sym).
        rewrite decide_False by (by apply not_eq_sym).
        rewrite decide_True by done. rewrite Hf1. apply union_empty_r_L.
      * rewrite decide_False by (by apply not_eq_sym).
        rewrite decide_True by done.
        rewrite decide_False by done. rewrite Hf2. apply union_empty_r_L.
      * rewrite decide_True by done.
        rewrite decide_False by done.
        rewrite decide_False by done. rewrite Hf3. apply union_empty_r_L.
    + rewrite Hkeys in Hnin.
      rewrite !decide_False; [done|..]; intros <-; tauto.
  - intros k Hnin. rewrite Hkeys in Hnin.
    rewrite Hc3, Hc2, Hc1.
    rewrite !lookup_insert_ne; [done|..]; intros <-; tauto.
  - unfold a3, a2, a1. by rewrite !tasksMap_addMaterialized.
Qed.

(** *** When the synthesis panics *)

Lemma collectPeers_None_inv service l acc :
  collectPeers service l acc = None →
  firstAddress service = None
  ∨ ∃ p, p ∈ l ∧ Service_ID p ≠ Service_ID service ∧ firstAddress p = None.
Proof.
  revert acc. induction l as [|p l IH]; intros acc; cbn [collectPeers];
    [done|].
  assert (Hrest : ∀ acc', collectPeers service l acc' = None →
    firstAddress service = None
    ∨ ∃ q, q ∈ p :: l ∧ Service_ID q ≠ Service_ID service
           ∧ firstAddress q = None).
  { intros acc' Hc. destruct (IH _ Hc) as [?|(q & Hq & ?)]; [by left|].
    right. exists q. split; [by right | done]. }
  case_bool_decide as Hid; [apply Hrest|].
  destruct (Service_StaticInfo service) as [info|] eqn:Hinfo.
  2:{ intros _. left. unfold firstAddress. by rewrite Hinfo. }
  cbn [mbind option_bind].
  destruct (Static_NetworkAttachment info); [|apply Hrest].
  destruct (firstAddress p) as [address|] eqn:Hp.
  - cbn [mbind option_bind]. apply Hrest.
  - intros _. right. exists p. split; [left | done].
Qed.

Lemma collectPeers_None_intro service l acc p :
  is_Some (firstAddress service) →
  p ∈ l → Service_ID p ≠ Service_ID service → firstAddress p = None →
  collectPeers service l acc = None.
Proof.
  intros [self Hself] Hin Hne Hp.
  destruct (firstAddress_attachment _ _ Hself) as (info & att & Hinfo & Hatt).
  revert acc. induction l as [|q l IH]; intros acc; cbn [collectPeers].
  { by apply elem_of_nil in Hin. }
  apply elem_of_cons in Hin as [<-|Hin].
  - rewrite bool_decide_eq_false_2 by done.
    rewrite Hinfo. cbn [mbind option_bind]. by rewrite Hatt, Hp.
  - case_bool_decide; [by apply IH|].
    rewrite Hinfo. cbn [mbind option_bind]. rewrite Hatt.
    destruct (firstAddress q); [|done]. cbn [mbind option_bind].
    by apply IH.
Qed.

Lemma maybeAddStaticServiceDependencies_None readTx t a :
  maybeAddStaticServiceDependencies readTx t a = None
  ↔ synthesisPanics readTx t.
Proof.
  unfold maybeAddStaticServiceDependencies, synthesisPanics, staticServiceOf.
  destruct (bool_decide (ServiceID t = "")).
  { split; [done|]. by intros (? & ? & ? & _). }
  destruct (Store.GetService readTx (ServiceID t)) as [service|].
  2:{ split; [done|]. by intros (? & ? & ? & _). }
  cbn [mbind option_bind].
  destruct (GetStatic (Service_Spec service)) as [static|] eqn:Hstatic.
  2:{ split; [done|]. by intros (? & ? & ? & _). }
  cbn [mbind option_bind]. split.
  - intros Hnone. exists service, static. split; [done|]. split; [done|].
    destruct (collectPeers _ _ _) as [peerAddrs|] eqn:Hc.
    + cbn [mbind option_bind] in Hnone.
      destruct (firstAddress service); [done | by left].
    + apply collectPeers_None_inv in Hc as [?|(p & Hp & Hne & Hnoaddr)];
        [by left|].
      right. exists p. split; [|done].
      apply elem_of_FindServicesByPeerGroup in Hp as [Hin Hg].
      split; [done|]. split; done.
  - intros (service' & static' & [= <-] & Hs' & Hbad).
    rewrite Hs' in Hstatic. injection Hstatic as ->.
    destruct (firstAddress service) as [self|] eqn:Hself.
    + destruct Hbad as [?|(p & (Hin & Hg & Hne) & Hp)]; [done|].
      rewrite (collectPeers_None_intro service _ ∅ p); [done|by eexists| |done..].
      apply elem_of_FindServicesByPeerGroup. done.
    + by destruct (collectPeers _ _ _).
Qed.

(** X24: addOrUpdateTask panics exactly when it admits a task it does not
    store yet, Assigned to Running, whose service is a static service of
    the store that has no first address itself or has a peer in its peer
    group without one; tasks of other services, stored tasks and tasks
    beyond Running never make it panic. *)
Theorem addOrUpdateTask_panics_iff readTx a t :
  addOrUpdateTask readTx a t = None
  ↔ state_le TaskStateAssigned (State (Status t)) = true
    ∧ state_le (State (Status t)) TaskStateRunning = true
    ∧ tasksMap a !! Task_ID t = None
    ∧ synthesisPanics readTx t.
Proof.
  unfold addOrUpdateTask. rewrite state_lt_le.
  destruct (state_le TaskStateAssigned (State (Status t))); cbn [negb].
  2:{ split; [done|]. by intros (? & _). }
  destruct (tasksMap a !! Task_ID t) as [old|].
  { split; [|by intros (_ & _ & ? & _)].
    destruct (TasksEqualStable old t && _); [|done].
    by destruct (state_lt TaskStateRunning _). }
  destruct (state_le (State (Status t)) TaskStateRunning).
  2:{ split; [done|]. by intros (_ & ? & _). }
  unfold addTaskDependencies.
  destruct (maybeAddStaticServiceDependencies readTx t _) as [a'|] eqn:Hm.
  - cbn [mbind option_bind]. split; [done|]. intros (_ & _ & _ & Hp).
    by rewrite (proj2 (maybeAddStaticServiceDependencies_None readTx t _) Hp)
      in Hm.
  - cbn [mbind option_bind]. split; [|done]. intros _.
    split; [done|]. split; [done|]. split; [done|].
    exact (proj1 (maybeAddStaticServiceDependencies_None readTx t _) Hm).
Qed.

End certificates.

(** ** manager/state/store: the certificate-authority table *)

Section ca_table.
Import Api Store.
Context `{StringsLib}.

Implicit Types (tx : Tables) (ca : CertificateAuthority).

(** X25: certificate authorities have a name-space of their own.  On a
    well keyed table, a CreateCA whose name (after lower-casing) a stored
    authority has fails with ErrNameConflict, and otherwise fails with
    ErrExist exactly when the id is taken, whatever the services and peer
    groups are called; and every create, update and delete keeps the
    table well keyed (ids and names unique) and leaves the other tables
    alone. *)
Theorem CA_names_unique_among_CAs tx :
  keyed (tableCertificateAuthority tx) →
  (∀ ca, (∃ k c, tableCertificateAuthority tx !! k = Some c
                 ∧ key_of c = key_of ca) →
         CreateCA tx ca = Err ErrNameConflict)
  ∧ (∀ ca, (∀ k c, tableCertificateAuthority tx !! k = Some c →
                   key_of c ≠ key_of ca) →
           CreateCA tx ca
           = match tableCertificateAuthority tx !! CA_ID ca with
             | Some _ => Err ErrExist
             | None =>
               Ok (set_tableCertificateAuthority tx
                     (<[CA_ID ca := ca]> (tableCertificateAuthority tx)))
             end)
  ∧ (∀ op, keyed (tableCertificateAuthority (stepCA tx op))
           ∧ stepCA tx op
             = set_tableCertificateAuthority tx
                 (tableCertificateAuthority (stepCA tx op))).
Proof.
  intros Hkeyed. split; [|split].
  - intros ca (k & c & Hk & Hkey). unfold CreateCA.
    destruct (lookupName (tableCertificateAuthority tx) _) eqn:E; [done|].
    by destruct (lookupName_None _ _ _ _ E Hk).
  - intros ca Hfree. unfold CreateCA.
    rewrite (lookupName_free (tableCertificateAuthority tx)) by exact Hfree.
    unfold create. change (GetID ca) with (CA_ID ca).
    by destruct (tableCertificateAuthority tx !! CA_ID ca).
  - assert (Hsame : tx = set_tableCertificateAuthority tx
                           (tableCertificateAuthority tx))
      by (by destruct tx).
    intros op. unfold stepCA.
    destruct (applyCAOp tx op) as [tx'|e] eqn:Hop; [|done].
    destruct op as [ca|ca|id]; cbn [applyCAOp] in Hop.
    + unfold CreateCA in Hop.
      destruct (lookupName (tableCertificateAuthority tx) _) eqn:E; [done|].
      unfold create in Hop.
      destruct (tableCertificateAuthority tx !! GetID ca) eqn:Eid; [done|].
      injection Hop as <-. split; [|reflexivity].
      refine (keyed_insert (tableCertificateAuthority tx) ca Hkeyed _).
      intros k c Hk Hkey. by destruct (lookupName_None _ _ _ _ E Hk).
    + unfold UpdateCA in Hop.
      assert (Hupd : commitCA tx (update (tableCertificateAuthority tx) ca)
                     = Ok tx' →
                     (∀ k c, tableCertificateAuthority tx !! k = Some c →
                             key_of c = key_of ca → k = GetID ca) →
                     keyed (tableCertificateAuthority tx')
                     ∧ tx' = set_tableCertificateAuthority tx
                               (tableCertificateAuthority tx')).
      { unfold update.
        destruct (tableCertificateAuthority tx !! GetID ca); [|done].
        intros [= <-] Hother. split; [|reflexivity].
        exact (keyed_insert (tableCertificateAuthority tx) ca Hkeyed Hother). }
      destruct (lookupName (tableCertificateAuthority tx) _)
        as [existing|] eqn:E.
      * case_bool_decide as Hne; [done|].
        apply Hupd; [done|]. intros k c Hk Hkey.
        apply lookupName_Some in E as (ke & Hke & Hn).
        destruct Hkeyed as [Hid Hname].
        assert (k = ke) as ->.
        { apply (Hname k ke c existing Hk Hke).
          etrans; [exact Hkey | symmetry; exact Hn]. }
        rewrite <- (Hid _ _ Hke). exact Hne.
      * apply Hupd; [done|]. intros k c Hk Hkey.
        by destruct (lookupName_None _ _ _ _ E Hk).
    + unfold DeleteCA, delete_ in Hop.
      destruct (tableCertificateAuthority tx !! id); [|done].
      injection Hop as <-. split; [|reflexivity].
      by apply keyed_delete.
Qed.

End ca_table.

(** ** manager/controlapi *)

Section control_api.
Import Api Controlapi.
Context `{ServerLib} `{Store.StringsLib}.

Lemma matchesAll_Forall {A} (fs : list (A → bool)) c :
  matchesAll fs c = true ↔ Forall (λ f, f c = true) fs.
Proof.
  induction fs as [|f fs IH]; cbn [matchesAll].
  - split; [|done]. intros _. apply Forall_nil_2.
  - rewrite Forall_cons. destruct (f c) eqn:Hfc.
    + rewrite IH. tauto.
    + split; [done|]. by intros [? _].
Qed.

(** The outer loop appends the candidates that match, one by one. *)
Lemma filterCandidates_filter {A} (fs : list (A → bool)) l :
  filterCandidates l fs = filter (λ c, matchesAll fs c = true) l.
Proof.
  unfold filterCandidates.
  assert (Hfold : ∀ acc,
            foldl (λ result c, if matchesAll fs c then (result ++ [c])%list
                               else result) acc l
            = (acc ++ filter (λ c, matchesAll fs c = true) l)%list).
  { induction l as [|c l IH]; intros acc; cbn [foldl].
    - by rewrite app_nil_r.
    - rewrite IH, filter_cons. destruct (matchesAll fs c) eqn:Hc.
      + rewrite decide_True by done. by rewrite <- app_assoc.
      + rewrite decide_False by done. done. }
  by rewrite Hfold.
Qed.

(** X26: the three filter functions return the candidates that pass
    every filter, in the order they came; with no filter they return the
    candidates as they are, and filtering twice is filtering once by all
    the filters. *)
Theorem filterCandidates_spec {A} (candidates : list A)
    (filters more : list (A → bool)) :
  filterCandidates candidates filters
  = filter (λ c, Forall (λ f, f c = true) filters) candidates
  ∧ filterCandidates candidates [] = candidates
  ∧ filterCandidates (filterCandidates candidates filters) more
    = filterCandidates candidates (filters ++ more).
Proof.
  split; [|split].
  - rewrite filterCandidates_filter. apply list_filter_iff.
    intros c. apply matchesAll_Forall.
  - rewrite filterCandidates_filter.
    induction candidates as [|c l IH]; [done|].
    rewrite filter_cons, decide_True by done. by rewrite IH.
  - rewrite !filterCandidates_filter. rewrite list_filter_filter.
    apply list_filter_iff. intros c.
    rewrite !matchesAll_Forall, Forall_app. tauto.
Qed.

(** X27: the private key of a certificate authority leaves the server
    only in the reply to its creation.  A successful CreateCA stores the
    authority with the generated certificate and key and returns it as
    stored; GetCA of its id returns it with an empty key, and so does
    every entry of a ListCAs reply, each being a found authority without
    its key. *)
Theorem CA_key_only_in_CreateCA_reply newID tx spec certAuthority tx' :
  newID ≠ "" →
  CreateCA newID tx spec = (Reply certAuthority, tx') →
  (∃ annotations cert key,
     spec = Some annotations
     ∧ initca_New (Name annotations +:+ " Root Certificate Authority")
       = Some (cert, key)
     ∧ certAuthority = {| CA_ID := newID; CA_Annotations := annotations;
                          CA_Cert := cert; CA_Key := key |})
  ∧ Store.GetCA tx' newID = Some certAuthority
  ∧ GetCA tx' newID = Reply (CA_set_Key certAuthority [])
  ∧ (∀ found filters ca, ca ∈ ListCAs_found found filters →
       CA_Key ca = []
       ∧ ∃ stored, stored ∈ found ∧ ca = CA_set_Key stored []).
Proof.
  intros Hid Hcreate. unfold CreateCA in Hcreate.
  destruct spec as [annotations|]; [|done].
  destruct (validateAnnotations annotations); [|done]. cbn [negb] in Hcreate.
  destruct (initca_New _) as [[cert key]|] eqn:Hnew; [|done].
  destruct (Store.CreateCA tx _) as [tx1|e] eqn:Hstore; [|done].
  injection Hcreate as <- <-.
  assert (Hget : Store.GetCA tx1 newID
                 = Some {| CA_ID := newID; CA_Annotations := annotations;
                           CA_Cert := cert; CA_Key := key |}).
  { unfold Store.CreateCA in Hstore.
    destruct (Store.lookupName _ _); [done|].
    unfold Store.create in Hstore.
    destruct (Store.tableCertificateAuthority tx !! _); [done|].
    injection Hstore as <-. unfold Store.GetCA. cbn.
    by rewrite lookup_insert_eq. }
  split; [by exists annotations, cert, key|]. split; [exact Hget|].
  split.
  - unfold GetCA. rewrite bool_decide_eq_false_2 by done. by rewrite Hget.
  - intros found filters ca Hin. unfold ListCAs_found in Hin.
    apply list_elem_of_fmap in Hin as (stored & -> & Hstored).
    split; [done|]. exists stored. split; [|done].
    destruct filters as [filters|]; [|done].
    unfold filterCAs in Hstored. rewrite filterCandidates_filter in Hstored.
    by apply list_elem_of_filter in Hstored as [_ ?].
Qed.

(** X28: the peer-group calls, end to end.  A successful CreatePeerGroup
    returns the peer group it stored under the new id, with the spec as
    given; GetPeerGroup finds it; RemovePeerGroup takes it out again and
    gives back the store as it was, after which GetPeerGroup and a second
    RemovePeerGroup answer NotFound and change nothing. *)
Theorem PeerGroup_api_round_trip newID tx spec peerGroup tx' :
  newID ≠ "" →
  CreatePeerGroup newID tx spec = (Reply peerGroup, tx') →
  (∃ s, spec = Some s ∧ peerGroup = {| PG_ID := newID; PG_Spec := s |})
  ∧ GetPeerGroup tx newID = Fail NotFound
  ∧ GetPeerGroup tx' newID = Reply peerGroup
  ∧ RemovePeerGroup tx' newID = (Reply (), tx)
  ∧ RemovePeerGroup tx newID = (Fail NotFound, tx).
Proof.
  intros Hid Hcreate. unfold CreatePeerGroup in Hcreate.
  destruct spec as [s|]; [|done].
  destruct (validateAnnotations _); [|done]. cbn [negb] in Hcreate.
  destruct (validateNetworks tx _); [|done]. cbn [negb] in Hcreate.
  destruct (Store.CreatePeerGroup tx _) as [tx1|e] eqn:Hstore; [|done].
  injection Hcreate as <- <-.
  unfold Store.CreatePeerGroup in Hstore.
  destruct (Store.lookupName (Store.tablePeerGroup tx) _); [done|].
  destruct (Store.lookupName (Store.tableService tx) _); [done|].
  unfold Store.create in Hstore. cbn [Store.GetID Store.PeerGroup_object PG_ID]
    in Hstore.
  destruct (Store.tablePeerGroup tx !! newID) eqn:Hfresh; [done|].
  injection Hstore as <-.
  split; [by exists s|].
  unfold GetPeerGroup, RemovePeerGroup, Store.GetPeerGroup,
    Store.DeletePeerGroup, Store.delete_.
  rewrite !bool_decide_eq_false_2 by done.
  cbn [Store.tablePeerGroup Store.set_tablePeerGroup].
  rewrite Hfresh, lookup_insert_eq.
  split; [done|]. split; [done|]. split; [|done].
  cbn [Store.commitPeerGroup]. rewrite delete_insert_id by done.
  f_equal. by destruct tx.
Qed.

End control_api.

Section control_api_examples.
Import Api Controlapi Examples.

Lemma CA_names_unique_among_CAs_witness :
  Store.CreateCA (H:=asciiStrings) Store.emptyTables caOne
  = Store.Ok (Store.set_tableCertificateAuthority Store.emptyTables
                {[ "ca1" := caOne ]}).
Proof.
  destruct (CA_names_unique_among_CAs (H:=asciiStrings) Store.emptyTables)
    as (_ & Hfree & _).
  - apply keyed_empty.
  - rewrite (Hfree caOne); [reflexivity|].
    intros k c Hk. cbn in Hk. by rewrite lookup_empty in Hk.
Defined.

Lemma CA_key_only_in_CreateCA_reply_witness :
  GetCA
    (CreateCA (H:=exampleServer) (H0:=asciiStrings) "ca1" Store.emptyTables
       (Some (named "one"))).2 "ca1"
  = Reply {| CA_ID := "ca1"; CA_Annotations := named "one";
             CA_Cert := [x43]; CA_Key := [] |}.
Proof.
  destruct (CA_key_only_in_CreateCA_reply (H:=exampleServer)
              (H0:=asciiStrings) "ca1" Store.emptyTables (Some (named "one"))
              {| CA_ID := "ca1"; CA_Annotations := named "one";
                 CA_Cert := [x43]; CA_Key := [x4b] |}
              (Store.set_tableCertificateAuthority Store.emptyTables
                 {[ "ca1" := {| CA_ID := "ca1"; CA_Annotations := named "one";
                                CA_Cert := [x43]; CA_Key := [x4b] |} ]}))
    as (_ & _ & Hget & _).
  - done.
  - reflexivity.
  - exact Hget.
Defined.

Lemma PeerGroup_api_round_trip_witness :
  RemovePeerGroup
    (Store.set_tablePeerGroup Store.emptyTables {[ "P1" := pgAlpha ]}) "P1"
  = (Reply (), Store.emptyTables).
Proof.
  destruct (PeerGroup_api_round_trip (H:=exampleServer) (H0:=asciiStrings)
              "P1" Store.emptyTables (Some (PG_Spec pgAlpha)) pgAlpha
              (Store.set_tablePeerGroup Store.emptyTables
                 {[ "P1" := pgAlpha ]}))
    as (_ & _ & _ & Hremove & _).
  - done.
  - reflexivity.
  - exact Hremove.
Defined.

End control_api_examples.

Section certificates_examples.
Import Api Dispatcher Examples.

Lemma addCertIssuanceDependencies_files_witness :
  changes (addCertIssuanceDependencies (H:=issuingLib) storeCA taskCert []
             newAssignmentSet certIssuanceOne)
  !! configIDKey "T1-ca1-issue-ca"
  = Some (updateConfig "T1-ca1-issue-ca" [x43]).
Proof.
  destruct (addCertIssuanceDependencies_files (lib:=issuingLib) storeCA
              taskCert [] newAssignmentSet certIssuanceOne caOne [x6b] [x63])
    as (Hca & _).
  - reflexivity.
  - reflexivity.
  - intros k _. unfold users. cbn. by rewrite lookup_empty.
  - exact Hca.
Defined.

End certificates_examples.

(** ** manager/orchestrator/static: reconciliation *)

Section static_reconcile.
Import Api Orchestrator Static.
Context `{TaskLib}.

Implicit Types (o : Static.Orchestrator).

Lemma FindTasksByServiceID_stored tx k task :
  Store.tableTask tx !! k = Some task →
  Store.FindTasksByServiceID tx (ServiceID task) ≠ [].
Proof.
  intros Hk Hnil.
  assert (Hin : task ∈ Store.FindTasksByServiceID tx (ServiceID task)).
  { unfold Store.FindTasksByServiceID. apply list_elem_of_filter.
    split; [done|]. apply list_elem_of_fmap. exists (k, task).
    split; [done|]. by apply elem_of_map_to_list. }
  rewrite Hnil in Hin. by apply elem_of_nil in Hin.
Qed.

(** X29: reconciling a tracked service that carries static info, is in
    the store and has no task yet creates exactly one task for it, bound
    to the service's node; reconciling it again, whatever the next id and
    time are, creates nothing. *)
Theorem reconcileServices_creates_once newID now o service info :
  services o !! Service_ID service = Some service →
  Service_StaticInfo service = Some info →
  is_Some (Store.GetService (store o) (Service_ID service)) →
  Store.FindTasksByServiceID (store o) (Service_ID service) = [] →
  Store.tableTask (store o) !! newID 0%nat = None →
  ∃ o' task,
    reconcileServices newID now o [Service_ID service] = Some o'
    ∧ o' = set_store o
             (Store.set_tableTask (store o)
                (<[newID 0%nat := task]> (Store.tableTask (store o))))
    ∧ Task_ID task = newID 0%nat
    ∧ ServiceID task = Service_ID service
    ∧ NodeID task = Static_NodeID info
    ∧ ∀ newID' now',
        reconcileServices newID' now' o' [Service_ID service] = Some o'.
Proof.
  intros Htracked Hinfo [svc Hsvc] Hnone Hfresh.
  set (task := addTask_task (newID 0%nat) now o service (Static_NodeID info)).
  destruct (NewTask_basic (newID 0%nat) now (cluster o) service 0
              (Static_NodeID info)) as (Hid & Hsid & _ & Hnode & _).
  assert (Htid : Task_ID task = newID 0%nat) by exact Hid.
  assert (Htsid : ServiceID task = Service_ID service) by exact Hsid.
  exists (set_store o
            (Store.set_tableTask (store o)
               (<[newID 0%nat := task]> (Store.tableTask (store o))))), task.
  split; [|split; [done|split; [done|split; [done|split; [exact Hnode|]]]]].
  - unfold reconcileServices, reconcile_needsTasks. cbn [foldl].
    rewrite Htracked, Hnone, bool_decide_eq_true_2 by done.
    cbn [app reconcile_addTasks]. unfold reconcile_addTask.
    rewrite Hinfo. cbn [mbind option_bind]. unfold addTask. fold task.
    rewrite Hsvc. unfold Store.CreateTask. rewrite Htid, Hfresh. reflexivity.
  - intros newID' now'. unfold reconcileServices, reconcile_needsTasks.
    cbn [foldl services set_store store]. rewrite Htracked.
    rewrite bool_decide_eq_false_2; [reflexivity|].
    rewrite <- Htsid.
    apply (FindTasksByServiceID_stored _ (newID 0%nat)).
    cbn [Store.tableTask Store.set_tableTask]. by rewrite lookup_insert_eq.
Qed.

End static_reconcile.

Section static_reconcile_examples.
Import Api Orchestrator Static Examples.

Lemma reconcileServices_creates_once_witness :
  ∃ o' task,
    reconcileServices (H:=exampleTaskLib) (λ _, "T1") epoch trackingS1_new
      ["S1"] = Some o'
    ∧ Store.tableTask (store o') !! "T1" = Some task
    ∧ NodeID task = "N1"
    ∧ reconcileServices (H:=exampleTaskLib) (λ _, "T2") epoch o' ["S1"]
      = Some o'.
Proof.
  destruct (reconcileServices_creates_once (H:=exampleTaskLib) (λ _, "T1")
              epoch trackingS1_new S1 (pinned "N1" ["10.0.0.4/24"]))
    as (o' & task & Hrun & Ho' & _ & _ & Hnode & Hagain).
  - reflexivity.
  - reflexivity.
  - by exists S1.
  - reflexivity.
  - reflexivity.
  - exists o', task. split; [exact Hrun|].
    split; [rewrite Ho'; cbn; by rewrite lookup_insert_eq|].
    split; [exact Hnode | apply Hagain].
Defined.

End static_reconcile_examples.
